(** * Session manager and keyed store: a shallow embedding

    The development follows the subsystems of the repository:
    - [sessionManager.js]: the [Semaphore] class and the [SessionManager]
      class (registry of session entries, [start], [startAll], [stop],
      [logout], [_handleConnectionUpdate]);
    - [dbmanager.js]: the [DBManager] class (two-level insertion-ordered
      map with owner LRU and per-owner key limit, and its write-behind
      snapshot file);
    - [plugins.js] and the message handler of [lib/index.js]: the plugin
      registry and the dispatch of a message to it;
    - [server.js]: the pairing route with [fmtCode];
    - the main server: the worker pool that restores sessions at startup.

    JavaScript values are modelled by the fragments the code manipulates:
    integers as [Z], strings as [string] (code units below 256), JSON
    values as a tree, [Map] objects as insertion-ordered association lists,
    and heap objects that are shared by reference (session entries) as
    locations into a [gmap]. *)

From Stdlib Require Import ZArith Lia Ascii.
From stdpp Require Import prelude strings pretty sorting gmap.

Set Warnings "-register-all".
Local Open Scope Z_scope.

(** * The program *)

(** ** JavaScript strings *)

Module JsString.

(** [String.prototype.toLowerCase] on one code unit of the Latin-1 range:
    [A-Z] and the accented capitals [U+00C0 .. U+00DE] (except the
    multiplication sign [U+00D7]) move up by 32. *)
Definition lower_char (c : ascii) : ascii :=
  let n := nat_of_ascii c in
  if ((65 <=? n) && (n <=? 90))%nat then ascii_of_nat (n + 32)
  else if ((192 <=? n) && (n <=? 222) && negb (n =? 215))%nat
       then ascii_of_nat (n + 32)
  else c.

Fixpoint toLowerCase (s : string) : string :=
  match s with
  | EmptyString => EmptyString
  | String c t => String (lower_char c) (toLowerCase t)
  end.

(** [s.startsWith(p)] *)
Fixpoint startsWith (s p : string) : bool :=
  match p, s with
  | EmptyString, _ => true
  | String _ _, EmptyString => false
  | String a p', String b s' =>
      if Ascii.eqb a b then startsWith s' p' else false
  end.

(** [s.includes(needle)] *)
Fixpoint includes (s needle : string) : bool :=
  startsWith s needle ||
  match s with
  | EmptyString => false
  | String _ t => includes t needle
  end.

(** [String(n)] for an integer [n] in decimal notation. *)
Definition of_number (n : Z) : string := pretty n.

(** Membership of a code unit in a string. *)
Fixpoint has_char (c : ascii) (s : string) : bool :=
  match s with
  | EmptyString => false
  | String b t => Ascii.eqb c b || has_char c t
  end.

(** The characters of a decimal numeral: digits and the minus sign. *)
Definition numeral_char (c : ascii) : bool :=
  let n := nat_of_ascii c in
  ((48 <=? n) && (n <=? 57) || (n =? 45))%nat.

Fixpoint numeral (s : string) : bool :=
  match s with
  | EmptyString => true
  | String c t => numeral_char c && numeral t
  end.

End JsString.

(** ** Failure classification of a connection-close event
  ([_handleConnectionUpdate], the [connection === 'close'] branch) *)

Module CloseReason.
Import JsString.

(** [lastDisconnect?.error?.output]: the status code is a number when
    present, the payload reason a string when present; [None] is
    [undefined]. *)
Record lastDisconnect := mkLastDisconnect {
  statusCode : option Z;
  payloadReason : option string;
}.

(** The value of [statusCode || payloadReason || null]. *)
Inductive reasonValue :=
| RNum (n : Z)
| RStr (s : string)
| RNull.

Definition truthy_num (n : Z) : bool := negb (n =? 0).
Definition truthy_str (s : string) : bool :=
  match s with EmptyString => false | _ => true end.

Definition reason (ld : lastDisconnect) : reasonValue :=
  match statusCode ld with
  | Some n => if truthy_num n then RNum n else
                match payloadReason ld with
                | Some s => if truthy_str s then RStr s else RNull
                | None => RNull
                end
  | None => match payloadReason ld with
            | Some s => if truthy_str s then RStr s else RNull
            | None => RNull
            end
  end.

(** [String(reason)] *)
Definition string_of_reason (r : reasonValue) : string :=
  match r with
  | RNum n => of_number n
  | RStr s => s
  | RNull => "null"
  end.

(** [String(payloadReason)] *)
Definition string_of_payload (p : option string) : string :=
  match p with
  | Some s => s
  | None => "undefined"
  end.

Definition opt_str_eqb (p : option string) (s : string) : bool :=
  match p with
  | Some q => String.eqb q s
  | None => false
  end.

Definition isLoggedOut (ld : lastDisconnect) : bool :=
  match statusCode ld with Some n => n =? 401 | None => false end
  || opt_str_eqb (payloadReason ld) "loggedOut"
  || opt_str_eqb (payloadReason ld) "logout"
  || includes (toLowerCase (string_of_reason (reason ld))) "loggedout"
  || includes (toLowerCase (string_of_payload (payloadReason ld))) "loggedout"
  || includes (toLowerCase (string_of_payload (payloadReason ld))) "forbidden".

Inductive classification := Permanent | Transient.

Definition classify (ld : lastDisconnect) : classification :=
  if isLoggedOut ld then Permanent else Transient.

(** Case-insensitive substring match of a payload reason against a
    lower-case needle, as the specification words it. *)
Definition contains_ci (p : option string) (needle : string) : bool :=
  match p with
  | Some s => includes (toLowerCase s) needle
  | None => false
  end.

End CloseReason.

(** ** JavaScript [Map]: an insertion-ordered association list

    Keys are unique; [map_set] on a present key overwrites the value and
    keeps the position, on an absent key appends at the end.  [map_delete]
    removes the binding of the key. *)

Section JsMap.
Context {K V : Type} `{EqDecision K}.

Fixpoint map_get (m : list (K * V)) (k : K) : option V :=
  match m with
  | [] => None
  | (k', v) :: t => if decide (k' = k) then Some v else map_get t k
  end.

Definition map_has (m : list (K * V)) (k : K) : bool :=
  match map_get m k with Some _ => true | None => false end.

Fixpoint map_set (m : list (K * V)) (k : K) (v : V) : list (K * V) :=
  match m with
  | [] => [(k, v)]
  | (k', v') :: t =>
      if decide (k' = k) then (k', v) :: t else (k', v') :: map_set t k v
  end.

Fixpoint map_delete (m : list (K * V)) (k : K) : list (K * V) :=
  match m with
  | [] => []
  | (k', v') :: t =>
      if decide (k' = k) then t else (k', v') :: map_delete t k
  end.

(** [m.keys()] and [m.keys().next().value] *)
Definition map_keys (m : list (K * V)) : list K := m.*1.

Definition map_first_key (m : list (K * V)) : option K := head (map_keys m).

(** [while (m.size > max) m.delete(m.keys().next().value)], the loop of
    [_applyLRUIfNeeded] and [_applyMaxKeysToUser]; every iteration removes
    one binding, so [length m] iterations are enough. *)
Fixpoint evict_loop (fuel : nat) (max : nat) (m : list (K * V)) : list (K * V) :=
  match fuel with
  | O => m
  | S fuel' =>
      if (max <? length m)%nat then
        match map_first_key m with
        | Some k => evict_loop fuel' max (map_delete m k)
        | None => m
        end
      else m
  end.

Definition evict_oldest (max : nat) (m : list (K * V)) : list (K * V) :=
  evict_loop (length m) max m.

End JsMap.

(** ** The keyed store ([DBManager]) *)

Module DBManager.

(** JSON-serializable values. *)
Inductive json :=
| JNull
| JBool (b : bool)
| JNum (n : Z)
| JStr (s : string)
| JArr (items : list json)
| JObj (fields : list (string * json)).

(** JavaScript truthiness ([!val] is its negation). *)
Definition truthy (v : json) : bool :=
  match v with
  | JNull => false
  | JBool b => b
  | JNum n => negb (n =? 0)
  | JStr s => match s with EmptyString => false | _ => true end
  | JArr _ => true
  | JObj _ => true
  end.

(** [deepClone(x) = JSON.parse(JSON.stringify(x))]: a fresh copy of the
    tree. *)
Fixpoint deepClone (x : json) : json :=
  match x with
  | JNull => JNull
  | JBool b => JBool b
  | JNum n => JNum n
  | JStr s => JStr s
  | JArr items => JArr (map deepClone items)
  | JObj fields => JObj (map (fun kv => (fst kv, deepClone (snd kv))) fields)
  end.

(** Owner ids as callers pass them: strings or numbers.  As [Map] keys the
    two never coincide (SameValueZero). *)
Inductive userId :=
| UStr (s : string)
| UNum (n : Z).

#[global] Instance userId_eq_dec : EqDecision userId.
Proof. solve_decision. Defined.

(** A limit option ([maxUsers], [maxKeysPerUser]): [None] is the default
    [null]; [null] and [0] are both falsy and switch the limit off. *)
Definition limit_on (l : option nat) : option nat :=
  match l with
  | Some (S n) => Some (S n)
  | _ => None
  end.

Record t := mkDB {
  maxUsers : option nat;
  maxKeysPerUser : option nat;
  returnDirectRef : bool;
  store : list (userId * list (string * json));
}.

Definition with_store (d : t) (s : list (userId * list (string * json))) : t :=
  {| maxUsers := maxUsers d; maxKeysPerUser := maxKeysPerUser d;
     returnDirectRef := returnDirectRef d; store := s |}.

(** [_initFromFile]: the parsed snapshot becomes the store, owner by owner,
    with string owner ids ([Object.entries]). *)
Definition initFromFile (mu mk : option nat) (direct : bool)
    (snapshot : list (string * list (string * json))) : t :=
  {| maxUsers := mu; maxKeysPerUser := mk; returnDirectRef := direct;
     store := fold_left
                (fun st '(u, keysObj) =>
                   map_set st (UStr u)
                     (fold_left (fun m '(k, v) => map_set m k v) keysObj []))
                snapshot [] |}.

(** [_applyLRUIfNeeded] *)
Definition _applyLRUIfNeeded (d : t) : t :=
  match limit_on (maxUsers d) with
  | None => d
  | Some max => with_store d (evict_oldest max (store d))
  end.

(** [this.store.delete(userId); this.store.set(userId, m)] *)
Definition move_to_end (u : userId) (m : list (string * json))
    (s : list (userId * list (string * json))) :=
  map_set (map_delete s u) u m.

(** [_ensureUserMap]: returns the owner's key map and the new store. *)
Definition _ensureUserMap (u : userId) (d : t) : list (string * json) * t :=
  match map_get (store d) u with
  | None => ([], _applyLRUIfNeeded (with_store d (map_set (store d) u [])))
  | Some m =>
      match limit_on (maxUsers d) with
      | Some _ => (m, with_store d (move_to_end u m (store d)))
      | None => (m, d)
      end
  end.

(** [_applyMaxKeysToUser] *)
Definition _applyMaxKeysToUser (d : t) (m : list (string * json)) :=
  match limit_on (maxKeysPerUser d) with
  | None => m
  | Some max => evict_oldest max m
  end.

(** The owner's key map is an object shared with the store: what [set]
    does to it after [_ensureUserMap] is seen through the store as long as
    the owner is still there. *)
Definition write_back (u : userId) (m : list (string * json)) (d : t) : t :=
  if map_has (store d) u then with_store d (map_set (store d) u m) else d.

(** [get(userId, key)]: the result ([JNull] is [null]) and the store after
    the recency update. *)
Definition get (u : userId) (key : string) (d : t) : json * t :=
  match map_get (store d) u with
  | None => (JNull, d)
  | Some m =>
      let val := default JNull (map_get m key) in
      let d' :=
        match limit_on (maxUsers d) with
        | Some _ =>
            if map_has (store d) u
            then match map_get (store d) u with
                 | Some userMap => with_store d (move_to_end u userMap (store d))
                 | None => d
                 end
            else d
        | None => d
        end in
      if negb (truthy val) then (JNull, d')
      else ((if returnDirectRef d then val else deepClone val), d')
  end.

(** [if (typeof userId === "number") userId = String(userId)] *)
Definition coerce (u : userId) : userId :=
  match u with
  | UNum n => UStr (JsString.of_number n)
  | UStr _ => u
  end.

(** [set(userId, key, value)] *)
Definition set (u : userId) (key : string) (value : json) (d : t) : t :=
  let u := coerce u in
  let '(m, d1) := _ensureUserMap u d in
  let m1 := map_set m key value in
  let m2 := _applyMaxKeysToUser d m1 in
  write_back u m2 d1.

(** [delKey(userId, key)] *)
Definition delKey (u : userId) (key : string) (d : t) : bool * t :=
  match map_get (store d) u with
  | None => (false, d)
  | Some m =>
      let existed := map_has m key in
      let m' := map_delete m key in
      let s1 := map_set (store d) u m' in
      let s2 := if (length m' =? 0)%nat then map_delete s1 u else s1 in
      (existed, with_store d s2)
  end.

(** [delUser(userId)] *)
Definition delUser (u : userId) (d : t) : bool * t :=
  (map_has (store d) u, with_store d (map_delete (store d) u)).

(** [getAll(userId)]: the owner's keys as a plain object, or [None] for
    [null]. *)
Definition getAll (u : userId) (d : t) : option (list (string * json)) * t :=
  match map_get (store d) u with
  | None => (None, d)
  | Some m =>
      let obj := fold_left (fun o '(k, v) => map_set o k v) m [] in
      match limit_on (maxUsers d) with
      | Some _ => (Some obj, with_store d (move_to_end u m (store d)))
      | None => (Some obj, d)
      end
  end.

(** Owners in recency order, oldest first. *)
Definition owners (d : t) : list userId := map_keys (store d).

(** A store as [new DBManager(options)] builds it over a missing file. *)
Definition empty (mu mk : option nat) (direct : bool) : t :=
  initFromFile mu mk direct [].

(** The key written by [set] is not dropped by the per-owner key limit:
    there is no limit, or the key is new to the owner, or the owner holds
    no more keys than the limit (as it does in every store grown by [set];
    a snapshot read by [_initFromFile] is not trimmed). *)
Definition key_fits (u : userId) (key : string) (d : t) : bool :=
  match limit_on (maxKeysPerUser d), map_get (store d) u with
  | Some max, Some m => negb (map_has m key) || (length m <=? max)%nat
  | _, _ => true
  end.

(** Every owner id in the store is a string, as [set] and
    [_initFromFile] leave it. *)
Definition is_string_id (u : userId) : bool :=
  match u with UStr _ => true | UNum _ => false end.

Definition string_owners (d : t) : bool := forallb is_string_id (owners d).

(** *** Further operations and the shape of a store *)

(** The value stored under [key] for owner [u]: what [m.get(key)] finds in
    the owner's key map, before [get] turns falsy values into [null]. *)
Definition peek (u : userId) (key : string) (d : t) : option json :=
  match map_get (store d) u with
  | Some m => map_get m key
  | None => None
  end.

(** [stats()]: the number of owners and the total number of keys. *)
Definition stats (d : t) : nat * nat :=
  (length (store d), fold_left (fun keys m => (keys + length m)%nat) (store d).*2 O).

(** The calls of the public interface, and a store after a sequence of
    them. *)
Inductive call :=
| Get (u : userId) (key : string)
| GetAll (u : userId)
| Set_ (u : userId) (key : string) (value : json)
| DelKey (u : userId) (key : string)
| DelUser (u : userId).

Definition apply (c : call) (d : t) : t :=
  match c with
  | Get u key => (get u key d).2
  | GetAll u => (getAll u d).2
  | Set_ u key value => set u key value d
  | DelKey u key => (delKey u key d).2
  | DelUser u => (delUser u d).2
  end.

Definition run (cs : list call) (d : t) : t :=
  fold_left (fun s c => apply c s) cs d.

(** Owners are unique, and so are the keys of every owner (both levels are
    [Map]s). *)
Definition store_ok (d : t) : Prop :=
  NoDup (owners d)
  /\ (forall u m, (u, m) ∈ store d -> NoDup (map_keys m)).

(** The configured limits hold: no more owners than [maxUsers], no owner
    with more keys than [maxKeysPerUser]. *)
Definition owners_within_limit (d : t) : Prop :=
  forall max, limit_on (maxUsers d) = Some max -> (length (store d) <= max)%nat.

Definition keys_within_limit (d : t) : Prop :=
  forall max, limit_on (maxKeysPerUser d) = Some max ->
  forall u m, (u, m) ∈ store d -> (length m <= max)%nat.

(** *** The snapshot file *)

(** A plain object with string keys, as the list of its own properties in
    creation order; the parsed file is an object of objects. *)
Definition snapshot := list (string * list (string * json)).

(** [obj[k] = v] creates or overwrites an own property, except for
    [__proto__]: that assignment reaches the accessor inherited from
    [Object.prototype] and creates no own property. *)
Definition assign {V} (obj : list (string * V)) (k : string) (v : V) : list (string * V) :=
  if decide (k = "__proto__") then obj else map_set obj k v.

(** The number a string of decimal digits denotes. *)
Fixpoint digits_value (acc : N) (s : string) : N :=
  match s with
  | EmptyString => acc
  | String c s' => digits_value (acc * 10 + (N_of_ascii c - 48))%N s'
  end.

(** An array index: the canonical decimal form of an integer below
    [2^32 - 1]. *)
Definition array_index (s : string) : option N :=
  let n := digits_value 0%N s in
  if decide (s = pretty n /\ (n < 4294967295)%N) then Some n else None.

Definition is_index {V} (kv : string * V) : Prop := is_Some (array_index kv.1).

Definition index_le {V} (x y : string * V) : Prop :=
  (default 0 (array_index x.1) <= default 0 (array_index y.1))%N.

#[global] Instance is_index_dec {V} (kv : string * V) : Decision (is_index kv).
Proof. unfold is_index. apply _. Defined.

#[global] Instance index_le_dec {V} (x y : string * V) : Decision (index_le x y).
Proof. unfold index_le. apply _. Defined.

(** The own properties in enumeration order, as [JSON.stringify] writes
    them and [Object.entries] lists them: array indices in ascending
    numeric order first, then the other keys in creation order. *)
Definition enumerate {V} (obj : list (string * V)) : list (string * V) :=
  merge_sort index_le (filter is_index obj) ++ filter (fun kv => ~ is_index kv) obj.

(** The property key an owner id is converted to. *)
Definition prop_key (u : userId) : string :=
  match u with
  | UStr s => s
  | UNum n => JsString.of_number n
  end.

(** [_serializeToObject] *)
Definition _serializeToObject (d : t) : snapshot :=
  fold_left
    (fun out '(u, m) =>
       assign out (prop_key u) (fold_left (fun obj '(k, v) => assign obj k v) m []))
    (store d) [].

(** What [Object.entries] lists, at both levels, after [JSON.parse] of the
    text [JSON.stringify] makes of an object. *)
Definition reread (obj : snapshot) : snapshot :=
  enumerate ((fun '(u, keys) => (u, enumerate keys)) <$> obj).

(** The file: its parsed content, or [Unknown] after a write that failed
    half way. *)
Inductive file :=
| Intact (content : snapshot)
| Unknown.

(** A manager with its write-behind state.  [pending] are the timeouts
    that were set and have neither fired nor been cleared; [_writeTimer]
    keeps the last handle also after its timeout has fired. *)
Record manager := mkDBManager {
  cache : t;
  atomicWrite : bool;
  _dirty : bool;
  _writeTimer : option nat;
  pending : list nat;
  next_timeout : nat;
  disk : file;
  flushes : nat;
}.

(** The constructor over a file with parsed content [content] (a missing
    file is created as [{}]); it throws when the file cannot be parsed. *)
Definition construct (mu mk : option nat) (direct atomic : bool) (f : file)
    : option manager :=
  match f with
  | Unknown => None
  | Intact content =>
      Some {| cache := initFromFile mu mk direct content;
              atomicWrite := atomic;
              _dirty := false;
              _writeTimer := None;
              pending := [];
              next_timeout := O;
              disk := Intact content;
              flushes := O |}
  end.

Definition with_cache (d : t) (p : manager) : manager :=
  {| cache := d; atomicWrite := atomicWrite p; _dirty := _dirty p;
     _writeTimer := _writeTimer p; pending := pending p;
     next_timeout := next_timeout p; disk := disk p; flushes := flushes p |}.

Definition clearTimeout (h : nat) (p : manager) : manager :=
  {| cache := cache p; atomicWrite := atomicWrite p; _dirty := _dirty p;
     _writeTimer := _writeTimer p; pending := filter (fun x => x <> h) (pending p);
     next_timeout := next_timeout p; disk := disk p; flushes := flushes p |}.

(** [_scheduleWrite] *)
Definition _scheduleWrite (p : manager) : manager :=
  let p1 := match _writeTimer p with
            | Some h => clearTimeout h p
            | None => p
            end in
  {| cache := cache p1; atomicWrite := atomicWrite p1; _dirty := true;
     _writeTimer := Some (next_timeout p1);
     pending := pending p1 ++ [next_timeout p1];
     next_timeout := S (next_timeout p1); disk := disk p1; flushes := flushes p1 |}.

(** [_flushToDisk]; [ok] tells whether the file system calls of the write
    succeed.  A failed write leaves [_dirty] set; with [atomicWrite] the
    file is then untouched (only the temporary file was written). *)
Definition _flushToDisk (ok : bool) (p : manager) : manager :=
  if negb (_dirty p) then p
  else if ok then
    {| cache := cache p; atomicWrite := atomicWrite p; _dirty := false;
       _writeTimer := _writeTimer p; pending := pending p;
       next_timeout := next_timeout p;
       disk := Intact (reread (_serializeToObject (cache p)));
       flushes := S (flushes p) |}
  else
    {| cache := cache p; atomicWrite := atomicWrite p; _dirty := _dirty p;
       _writeTimer := _writeTimer p; pending := pending p;
       next_timeout := next_timeout p;
       disk := if atomicWrite p then disk p else Unknown;
       flushes := flushes p |}.

(** [syncFlush] *)
Definition syncFlush (ok : bool) (p : manager) : manager :=
  let p1 := match _writeTimer p with
            | Some h =>
                let p' := clearTimeout h p in
                {| cache := cache p'; atomicWrite := atomicWrite p'; _dirty := _dirty p';
                   _writeTimer := None; pending := pending p';
                   next_timeout := next_timeout p'; disk := disk p';
                   flushes := flushes p' |}
            | None => p
            end in
  _flushToDisk ok p1.

(** [close] *)
Definition close (ok : bool) (p : manager) : manager :=
  let p1 := match _writeTimer p with
            | Some h => clearTimeout h p
            | None => p
            end in
  syncFlush ok p1.

(** The timeout [h] fires: the callback of [_scheduleWrite] runs. *)
Definition timeout_fires (h : nat) (ok : bool) (p : manager) : manager :=
  if decide (h ∈ pending p) then _flushToDisk ok (clearTimeout h p) else p.

(** A call of the public interface on the manager: the store operation and
    the write it schedules. *)
Definition call_on (c : call) (p : manager) : manager :=
  match c with
  | Get u key => with_cache (get u key (cache p)).2 p
  | GetAll u => with_cache (getAll u (cache p)).2 p
  | Set_ u key value => _scheduleWrite (with_cache (set u key value (cache p)) p)
  | DelKey u key =>
      let r := delKey u key (cache p) in
      if r.1 then _scheduleWrite (with_cache r.2 p) else with_cache r.2 p
  | DelUser u =>
      let r := delUser u (cache p) in
      if r.1 then _scheduleWrite (with_cache r.2 p) else with_cache r.2 p
  end.

Inductive event :=
| Call (c : call)
| SyncFlush (ok : bool)
| Close (ok : bool)
| TimeoutFires (h : nat) (ok : bool).

Definition handle (e : event) (p : manager) : manager :=
  match e with
  | Call c => call_on c p
  | SyncFlush ok => syncFlush ok p
  | Close ok => close ok p
  | TimeoutFires h ok => timeout_fires h ok p
  end.

Definition handle_all (es : list event) (p : manager) : manager :=
  fold_left (fun s e => handle e s) es p.

(** The file holds what memory holds: every lookup gives the same after a
    restart from [content] as in [d]. *)
Definition agrees (content : snapshot) (d : t) : Prop :=
  forall u key, u <> "__proto__" -> key <> "__proto__" ->
    peek (UStr u) key (initFromFile None None true content) = peek (UStr u) key d.

(** Whether every write of the events succeeds. *)
Definition event_ok (e : event) : bool :=
  match e with
  | Call _ => true
  | SyncFlush ok | Close ok | TimeoutFires _ ok => ok
  end.

(** Whether a call changes what is stored. *)
Definition mutates (c : call) (d : t) : bool :=
  match c with
  | Get _ _ | GetAll _ => false
  | Set_ _ _ _ => true
  | DelKey u key => (delKey u key d).1
  | DelUser u => (delUser u d).1
  end.

(** Whether one of a sequence of calls changes what is stored. *)
Fixpoint mutated (cs : list call) (d : t) : bool :=
  match cs with
  | [] => false
  | c :: cs' => mutates c d || mutated cs' (apply c d)
  end.

(** What holds of a manager between two events: the store is well formed,
    at most the timeout of [_writeTimer] is pending, a pending timeout means
    unsaved changes, and without unsaved changes the file holds what memory
    holds. *)
Definition consistent (p : manager) : Prop :=
  store_ok (cache p)
  /\ string_owners (cache p) = true
  /\ (pending p = [] \/ exists h, _writeTimer p = Some h /\ pending p = [h])
  /\ (pending p <> [] -> _dirty p = true)
  /\ (_dirty p = false -> exists content, disk p = Intact content /\ agrees content (cache p)).

End DBManager.

(** ** The semaphore ([class Semaphore]) *)

Module Semaphore.

(** [queue] holds the resolvers of the suspended callers, named here by
    the caller they wake. *)
Record t := mkSem {
  limit : Z;
  active : Z;
  queue : list nat;
}.

Definition new (lim : Z) : t := {| limit := lim; active := 0; queue := [] |}.

Inductive acquired := Granted | Suspended.

(** [acquire()] up to its [await]: either the slot is taken at once, or
    the caller's resolver is pushed and the caller is suspended. *)
Definition acquire (w : nat) (s : t) : acquired * t :=
  if active s <? limit s
  then (Granted, {| limit := limit s; active := active s + 1; queue := queue s |})
  else (Suspended, {| limit := limit s; active := active s; queue := queue s ++ [w] |}).

(** The rest of [acquire()] after the [await], run when the woken caller's
    continuation is scheduled: [this.active++]. *)
Definition resume (s : t) : t :=
  {| limit := limit s; active := active s + 1; queue := queue s |}.

(** [release()]: the new state and the caller whose resolver was called. *)
Definition release (s : t) : option nat * t :=
  let a := Z.max 0 (active s - 1) in
  match queue s with
  | [] => (None, {| limit := limit s; active := a; queue := [] |})
  | w :: q => (Some w, {| limit := limit s; active := a; queue := q |})
  end.

(** *** Clients of a semaphore

    One event per synchronous call and one per run of a woken caller's
    continuation (a microtask, run in wake-up order once the calling code
    has returned to the event loop).  [holders] are the callers for which
    [acquire()] has returned and that have not released yet; the two logs
    record suspension and wake-up order. *)
Inductive event :=
| Acquire (w : nat)
| Release (w : nat)
| Resume.

Record sys := mkSys {
  sem : t;
  woken : list nat;
  holders : list nat;
  suspended_log : list nat;
  woken_log : list nat;
}.

Definition init (lim : Z) : sys :=
  {| sem := new lim; woken := []; holders := [];
     suspended_log := []; woken_log := [] |}.

Definition step (e : event) (x : sys) : sys :=
  match e with
  | Acquire w =>
      match acquire w (sem x) with
      | (Granted, s) =>
          {| sem := s; woken := woken x; holders := holders x ++ [w];
             suspended_log := suspended_log x; woken_log := woken_log x |}
      | (Suspended, s) =>
          {| sem := s; woken := woken x; holders := holders x;
             suspended_log := suspended_log x ++ [w]; woken_log := woken_log x |}
      end
  | Release w =>
      match release (sem x) with
      | (Some w', s) =>
          {| sem := s; woken := woken x ++ [w'];
             holders := filter (fun h => h <> w) (holders x);
             suspended_log := suspended_log x; woken_log := woken_log x ++ [w'] |}
      | (None, s) =>
          {| sem := s; woken := woken x;
             holders := filter (fun h => h <> w) (holders x);
             suspended_log := suspended_log x; woken_log := woken_log x |}
      end
  | Resume =>
      match woken x with
      | [] => x
      | w :: rest =>
          {| sem := resume (sem x); woken := rest; holders := holders x ++ [w];
             suspended_log := suspended_log x; woken_log := woken_log x |}
      end
  end.

Definition run (es : list event) (x : sys) : sys :=
  fold_left (fun y e => step e y) es x.

(** The discipline under which the counter is a bound: a caller releases
    only a slot that is counted, and nobody calls [acquire()] between a
    [release()] that woke a waiter and the run of that waiter's
    continuation. *)
Definition in_order (e : event) (x : sys) : bool :=
  match e with
  | Acquire _ => match woken x with [] => true | _ => false end
  | Release _ => 1 <=? active (sem x)
  | Resume => true
  end.

Fixpoint disciplined (es : list event) (x : sys) : bool :=
  match es with
  | [] => true
  | e :: rest => in_order e x && disciplined rest (step e x)
  end.

End Semaphore.

(** ** The session manager ([class SessionManager])

    An [async] method runs in segments separated by its [await]s.  Each
    segment is one function on the manager state below; the event loop is
    the list of jobs that runs them.  Session entries are objects shared
    by reference between the registry, the activations of [start] and the
    reconnect timers, so they live in a heap and are named by location.
    Emitting events, logging and file operations change nothing of the
    state kept here and are left out. *)

Module SessionManager.

Definition conn := nat.
Definition loc := nat.
Definition tid := nat.

Inductive sessionStatus :=
  stopped | starting | connected | reconnecting | stopping.

Record entry := mkEntry {
  sock : option conn;
  backoffMs : Z;
  restarting : bool;
  status : sessionStatus;
}.

Inductive error :=
| FactoryError      (* [createSocketFn] threw or rejected *)
| RegisterError     (* [new Error('failed to register')] *)
| NotAFunction.     (* TypeError: fn is not a function *)

Inductive result :=
| Returned (c : conn)
| Threw (e : error).

(** What [start(sessionId)] hands back to its caller: a promise that is
    already settled, or one that settles when activation [k] does. *)
Inductive promise :=
| Done (r : result)
| Pending (k : tid).

(** Who awaits an activation of [start]. *)
Inductive caller :=
| External
| ReconnectTimer (e : loc)
| StartAllTask.

Inductive phase :=
| AwaitAcquire              (* at [await this.semaphore.acquire()] *)
| AwaitFactory              (* at [await createSocketFn(sessionId)] *)
| AwaitDelay (r : result)   (* in [finally], at the settle delay *)
| Settled (r : result).

Record task := mkTask {
  t_sid : string;
  t_entry : loc;
  t_caller : caller;
  t_phase : phase;
}.

Record timer := mkTimer {
  tm_sid : string;
  tm_entry : loc;
  tm_delay : Z;
}.

Record config := mkConfig {
  concurrency : nat;
  startDelayMs : Z;
  defaultBackoff : Z;
  maxBackoff : Z;
}.

Record t := mkManager {
  cfg : config;
  entries : gmap loc entry;
  next_loc : loc;
  sessions : list (string * loc);
  semaphore : Semaphore.t;
  tasks : gmap tid task;
  next_tid : tid;
  (** continuations of [await this.semaphore.acquire()] ready to run; the
      flag tells a caller woken from the queue, whose [acquire] still has
      to do [this.active++] *)
  microtasks : list (tid * bool);
  timers : list timer;
  (** calls of [createSocketFn], in order, and the sockets it returned *)
  factory_calls : list string;
  sockets : list (conn * string);
  (** delays handed to [setTimeout] by the reconnect branch, in order *)
  reconnect_log : list (string * Z);
}.

(** [opts.x || d] for a numeric option *)
Definition or_nat (o : option nat) (d : nat) : nat :=
  match o with Some (S n) => S n | _ => d end.
Definition or_Z (o : option Z) (d : Z) : Z :=
  match o with Some n => if n =? 0 then d else n | None => d end.

(** [entry.backoffMs || this.defaultBackoff] *)
Definition or_default (b d : Z) : Z := if b =? 0 then d else b.

Record options := mkOptions {
  opt_concurrency : option nat;
  opt_startDelayMs : option Z;
  opt_defaultBackoff : option Z;
  opt_maxBackoff : option Z;
}.

Definition no_options : options :=
  {| opt_concurrency := None; opt_startDelayMs := None;
     opt_defaultBackoff := None; opt_maxBackoff := None |}.

(** [constructor(opts = {})] *)
Definition new (opts : options) : t :=
  let c := or_nat (opt_concurrency opts) 20 in
  {| cfg := {| concurrency := c;
               startDelayMs := or_Z (opt_startDelayMs opts) 200;
               defaultBackoff := or_Z (opt_defaultBackoff opts) 1000;
               maxBackoff := or_Z (opt_maxBackoff opts) 60000 |};
     entries := ∅; next_loc := O; sessions := [];
     semaphore := Semaphore.new (Z.of_nat c);
     tasks := ∅; next_tid := O; microtasks := []; timers := [];
     factory_calls := []; sockets := []; reconnect_log := [] |}.

(** *** Field updates *)

Definition set_entries (f : gmap loc entry -> gmap loc entry) (st : t) : t :=
  {| cfg := cfg st; entries := f (entries st); next_loc := next_loc st;
     sessions := sessions st; semaphore := semaphore st; tasks := tasks st;
     next_tid := next_tid st; microtasks := microtasks st; timers := timers st;
     factory_calls := factory_calls st; sockets := sockets st;
     reconnect_log := reconnect_log st |}.

Definition set_sessions (f : list (string * loc) -> list (string * loc)) (st : t) : t :=
  {| cfg := cfg st; entries := entries st; next_loc := next_loc st;
     sessions := f (sessions st); semaphore := semaphore st; tasks := tasks st;
     next_tid := next_tid st; microtasks := microtasks st; timers := timers st;
     factory_calls := factory_calls st; sockets := sockets st;
     reconnect_log := reconnect_log st |}.

Definition set_semaphore (s : Semaphore.t) (st : t) : t :=
  {| cfg := cfg st; entries := entries st; next_loc := next_loc st;
     sessions := sessions st; semaphore := s; tasks := tasks st;
     next_tid := next_tid st; microtasks := microtasks st; timers := timers st;
     factory_calls := factory_calls st; sockets := sockets st;
     reconnect_log := reconnect_log st |}.

Definition set_tasks (f : gmap tid task -> gmap tid task) (st : t) : t :=
  {| cfg := cfg st; entries := entries st; next_loc := next_loc st;
     sessions := sessions st; semaphore := semaphore st; tasks := f (tasks st);
     next_tid := next_tid st; microtasks := microtasks st; timers := timers st;
     factory_calls := factory_calls st; sockets := sockets st;
     reconnect_log := reconnect_log st |}.

Definition set_microtasks (f : list (tid * bool) -> list (tid * bool)) (st : t) : t :=
  {| cfg := cfg st; entries := entries st; next_loc := next_loc st;
     sessions := sessions st; semaphore := semaphore st; tasks := tasks st;
     next_tid := next_tid st; microtasks := f (microtasks st); timers := timers st;
     factory_calls := factory_calls st; sockets := sockets st;
     reconnect_log := reconnect_log st |}.

Definition set_timers (f : list timer -> list timer) (st : t) : t :=
  {| cfg := cfg st; entries := entries st; next_loc := next_loc st;
     sessions := sessions st; semaphore := semaphore st; tasks := tasks st;
     next_tid := next_tid st; microtasks := microtasks st; timers := f (timers st);
     factory_calls := factory_calls st; sockets := sockets st;
     reconnect_log := reconnect_log st |}.

(** [entry.field = ...] on the object at [l] *)
Definition update_entry (l : loc) (f : entry -> entry) (st : t) : t :=
  set_entries (alter f l) st.

Definition set_phase (k : tid) (p : phase) (st : t) : t :=
  set_tasks (alter (fun tk => {| t_sid := t_sid tk; t_entry := t_entry tk;
                                 t_caller := t_caller tk; t_phase := p |}) k) st.

(** The object literal of [register] and [_loadMeta]. *)
Definition fresh_entry (st : t) : entry :=
  {| sock := None; backoffMs := defaultBackoff (cfg st);
     restarting := false; status := stopped |}.

(** [register(sessionId)] *)
Definition register (sid : string) (st : t) : t :=
  if map_has (sessions st) sid then st
  else
    let l := next_loc st in
    {| cfg := cfg st; entries := <[l := fresh_entry st]> (entries st);
       next_loc := S l; sessions := map_set (sessions st) sid l;
       semaphore := semaphore st; tasks := tasks st; next_tid := next_tid st;
       microtasks := microtasks st; timers := timers st;
       factory_calls := factory_calls st; sockets := sockets st;
       reconnect_log := reconnect_log st |}.

(** [_loadMeta()], given the id list read from the metadata file *)
Definition _loadMeta (ids : list string) (st : t) : t :=
  fold_left (fun s id => register id s) ids st.

(** [unregister(sessionId)] *)
Definition unregister (sid : string) (st : t) : t :=
  set_sessions (fun m => map_delete m sid) st.

(** [this.sessions.get(sessionId)], read through to the entry object *)
Definition get_entry (sid : string) (st : t) : option (loc * entry) :=
  match map_get (sessions st) sid with
  | Some l => match entries st !! l with
              | Some e => Some (l, e)
              | None => None
              end
  | None => None
  end.

(** [start(sessionId)] up to its first [await]: registration, the
    already-running check and the call of [semaphore.acquire()]. *)
Definition start (who : caller) (sid : string) (st : t) : promise * t :=
  let st1 := register sid st in
  match get_entry sid st1 with
  | None => (Done (Threw RegisterError), st1)
  | Some (l, e) =>
      match sock e with
      | Some c => (Done (Returned c), st1)
      | None =>
          let k := next_tid st1 in
          let '(a, s) := Semaphore.acquire k (semaphore st1) in
          let tk := {| t_sid := sid; t_entry := l; t_caller := who;
                       t_phase := AwaitAcquire |} in
          (Pending k,
           {| cfg := cfg st1; entries := entries st1; next_loc := next_loc st1;
              sessions := sessions st1; semaphore := s;
              tasks := <[k := tk]> (tasks st1); next_tid := S k;
              microtasks := match a with
                            | Semaphore.Granted => microtasks st1 ++ [(k, false)]
                            | Semaphore.Suspended => microtasks st1
                            end;
              timers := timers st1; factory_calls := factory_calls st1;
              sockets := sockets st1; reconnect_log := reconnect_log st1 |})
      end
  end.

(** [start] from the return of [acquire()] to [await createSocketFn(..)]:
    [entry.status = 'starting'] and the factory call. *)
Definition start_acquired (k : tid) (from_queue : bool) (st : t) : t :=
  match tasks st !! k with
  | Some tk =>
      match t_phase tk with
      | AwaitAcquire =>
          let st1 := if from_queue
                     then set_semaphore (Semaphore.resume (semaphore st)) st
                     else st in
          let st2 := update_entry (t_entry tk)
                       (fun e => {| sock := sock e; backoffMs := backoffMs e;
                                    restarting := restarting e; status := starting |})
                       st1 in
          let st3 := set_phase k AwaitFactory st2 in
          {| cfg := cfg st3; entries := entries st3; next_loc := next_loc st3;
             sessions := sessions st3; semaphore := semaphore st3;
             tasks := tasks st3; next_tid := next_tid st3;
             microtasks := microtasks st3; timers := timers st3;
             factory_calls := factory_calls st3 ++ [t_sid tk];
             sockets := sockets st3; reconnect_log := reconnect_log st3 |}
      | _ => st
      end
  | None => st
  end.

(** The event loop runs the oldest ready continuation. *)
Definition run_microtask (st : t) : t :=
  match microtasks st with
  | [] => st
  | (k, from_queue) :: rest =>
      start_acquired k from_queue (set_microtasks (fun _ => rest) st)
  end.

(** [start] after the factory returned a socket, up to the settle delay of
    the [finally] block. *)
Definition factory_resolves (k : tid) (st : t) : t :=
  match tasks st !! k with
  | Some tk =>
      match t_phase tk with
      | AwaitFactory =>
          let c := length (sockets st) in
          let st1 := update_entry (t_entry tk)
                       (fun e => {| sock := Some c;
                                    backoffMs := defaultBackoff (cfg st);
                                    restarting := false; status := connected |})
                       st in
          let st2 := set_sessions (fun m => map_set m (t_sid tk) (t_entry tk)) st1 in
          let st3 := set_phase k (AwaitDelay (Returned c)) st2 in
          {| cfg := cfg st3; entries := entries st3; next_loc := next_loc st3;
             sessions := sessions st3; semaphore := semaphore st3;
             tasks := tasks st3; next_tid := next_tid st3;
             microtasks := microtasks st3; timers := timers st3;
             factory_calls := factory_calls st3;
             sockets := sockets st3 ++ [(c, t_sid tk)];
             reconnect_log := reconnect_log st3 |}
      | _ => st
      end
  | None => st
  end.

(** [start] when the factory call throws: straight to [finally]. *)
Definition factory_rejects (k : tid) (st : t) : t :=
  match tasks st !! k with
  | Some tk =>
      match t_phase tk with
      | AwaitFactory => set_phase k (AwaitDelay (Threw FactoryError)) st
      | _ => st
      end
  | None => st
  end.

(** What the awaiting caller does when the promise of [start] settles: the
    [catch] of the reconnect timer clears the guard of the entry it
    captured; the other callers change nothing of the manager. *)
Definition settle_caller (who : caller) (r : result) (st : t) : t :=
  match who, r with
  | ReconnectTimer l, Threw _ =>
      update_entry l (fun e => {| sock := sock e; backoffMs := backoffMs e;
                                  restarting := false; status := status e |}) st
  | _, _ => st
  end.

(** End of the settle delay: [this.semaphore.release()], then [start]
    returns the socket or rethrows. *)
Definition delay_elapsed (k : tid) (st : t) : t :=
  match tasks st !! k with
  | Some tk =>
      match t_phase tk with
      | AwaitDelay r =>
          let '(w, s) := Semaphore.release (semaphore st) in
          let st1 := set_semaphore s st in
          let st2 := set_microtasks
                       (fun q => match w with
                                 | Some k' => q ++ [(k', true)]
                                 | None => q
                                 end) st1 in
          let st3 := set_phase k (Settled r) st2 in
          settle_caller (t_caller tk) r st3
      | _ => st
      end
  | None => st
  end.

(** [stop(sessionId)] *)
Definition stop (sid : string) (st : t) : bool * t :=
  match get_entry sid st with
  | None => (false, st)
  | Some (l, e) =>
      match sock e with
      | None => (false, st)
      | Some _ =>
          (true,
           set_sessions (fun m => map_set m sid l)
             (update_entry l
                (fun e => {| sock := None; backoffMs := backoffMs e;
                             restarting := restarting e; status := stopped |})
                st))
      end
  end.

(** [logout(sessionId)]; the socket logout and the removal of the auth
    folder are awaited before the entry leaves the registry. *)
Definition logout (sid : string) (st : t) : bool * t :=
  match get_entry sid st with
  | None => (false, st)
  | Some _ => (true, set_sessions (fun m => map_delete m sid) st)
  end.

(** [isRunning(sessionId)] *)
Definition isRunning (sid : string) (st : t) : bool :=
  match get_entry sid st with
  | Some (_, e) => match sock e with Some _ => true | None => false end
  | None => false
  end.

(** [list()] (the name [list] is taken by the list type) *)
Definition list_sessions (st : t) : list (string * sessionStatus * Z) :=
  omap (fun '(sid, l) =>
          match entries st !! l with
          | Some e => Some (sid, status e, backoffMs e)
          | None => None
          end) (sessions st).

(** The [update] object of a ['connection.update'] event. *)
Inductive connectionState := ConnOpen | ConnClose | ConnConnecting.

Record update := mkUpdate {
  connection : option connectionState;
  lastDisconnect : CloseReason.lastDisconnect;
}.

(** [_handleConnectionUpdate(sessionId, update)] *)
Definition _handleConnectionUpdate (sid : string) (u : update) (st : t) : t :=
  match get_entry sid st with
  | None => st
  | Some (l, e) =>
      match connection u with
      | Some ConnOpen =>
          set_sessions (fun m => map_set m sid l)
            (update_entry l
               (fun e => {| sock := sock e; backoffMs := defaultBackoff (cfg st);
                            restarting := false; status := connected |})
               st)
      | Some ConnClose =>
          if CloseReason.isLoggedOut (lastDisconnect u)
          then set_sessions (fun m => map_delete m sid) st
          else if restarting e then st
          else
            let backoff := or_default (backoffMs e) (defaultBackoff (cfg st)) in
            let st1 := update_entry l
                         (fun e => {| sock := None; backoffMs := backoffMs e;
                                      restarting := true; status := reconnecting |})
                         st in
            {| cfg := cfg st1; entries := entries st1; next_loc := next_loc st1;
               sessions := sessions st1; semaphore := semaphore st1;
               tasks := tasks st1; next_tid := next_tid st1;
               microtasks := microtasks st1;
               timers := timers st1 ++ [{| tm_sid := sid; tm_entry := l;
                                           tm_delay := backoff |}];
               factory_calls := factory_calls st1; sockets := sockets st1;
               reconnect_log := reconnect_log st1 ++ [(sid, backoff)] |}
      | _ => st
      end
  end.

(** The callback handed to [setTimeout] by the reconnect branch, run when
    pending timer number [i] fires.  It works on the entry object it
    captured when the close event was handled. *)
Definition timer_fires (i : nat) (st : t) : t :=
  match timers st !! i with
  | None => st
  | Some tm =>
      let st1 := set_timers (delete i) st in
      let st2 := update_entry (tm_entry tm)
                   (fun e => {| sock := sock e;
                                backoffMs :=
                                  Z.min (or_default (backoffMs e)
                                           (defaultBackoff (cfg st)) * 2)
                                        (maxBackoff (cfg st));
                                restarting := false; status := status e |})
                   st1 in
      let '(p, st3) := start (ReconnectTimer (tm_entry tm)) (tm_sid tm) st2 in
      match p with
      | Done r => settle_caller (ReconnectTimer (tm_entry tm)) r st3
      | Pending _ => st3
      end
  end.

(** *** [startAll()] *)

(** [keys.map(async (sid) => { try { await this.start(sid); } catch ... })]:
    [map] calls the async arrow on every key, so every [start] has run up
    to its first [await] when [map] returns, and [tasks] holds promises. *)
Definition launch_all (keys : list string) (st : t) : list promise * t :=
  fold_left (fun '(ps, s) sid =>
               let '(p, s') := start StartAllTask sid s in (ps ++ [p], s'))
            keys ([], st).

(** [tasks.slice(i, i + concurrency)] *)
Definition slice {A} (l : list A) (i j : nat) : list A := take (j - i) (drop i l).

(** [chunk.map(fn => fn())]: every element is a promise, and calling a
    promise throws a TypeError; an empty chunk maps to the empty array. *)
Definition call_each (chunk : list promise) : error + list promise :=
  match chunk with
  | [] => inr []
  | _ :: _ => inl NotAFunction
  end.

Inductive startAll_outcome :=
| AllResolved
| AllRejected (e : error)
| AllLoops.     (* the [for] loop never ends *)

(** The [for] loop of [startAll]; [await Promise.all([])] resolves. *)
Fixpoint startAll_loop (fuel i c : nat) (tasks : list promise) : startAll_outcome :=
  match fuel with
  | O => AllLoops
  | S fuel' =>
      if (i <? length tasks)%nat then
        match call_each (slice tasks i (i + c)) with
        | inl e => AllRejected e
        | inr _ => startAll_loop fuel' (i + c) c tasks
        end
      else AllResolved
  end.

Definition startAll (st : t) : startAll_outcome * t :=
  let keys := map_keys (sessions st) in
  let '(tasks, st1) := launch_all keys st in
  (startAll_loop (S (length tasks)) 0 (concurrency (cfg st)) tasks, st1).

(** *** The event loop

    One job per call from outside, per continuation and per timer.  The
    JavaScript event loop runs the ready continuations ([RunMicrotask])
    before it takes the next timer or input event; a list of jobs may
    order them otherwise, and the runs considered below keep to the
    JavaScript order. *)
Inductive job :=
| CallRegister (sid : string)
| CallStart (sid : string)
| CallStartAll
| CallStop (sid : string)
| CallLogout (sid : string)
| RunMicrotask
| FactoryResolves (k : tid)
| FactoryRejects (k : tid)
| DelayElapsed (k : tid)
| ConnectionUpdate (sid : string) (u : update)
| TimerFires (i : nat).

Arguments FactoryResolves k%_nat.
Arguments FactoryRejects k%_nat.
Arguments DelayElapsed k%_nat.
Arguments TimerFires i%_nat.
Arguments timer_fires i%_nat st.

Definition step (j : job) (st : t) : t :=
  match j with
  | CallRegister sid => register sid st
  | CallStart sid => (start External sid st).2
  | CallStartAll => (startAll st).2
  | CallStop sid => (stop sid st).2
  | CallLogout sid => (logout sid st).2
  | RunMicrotask => run_microtask st
  | FactoryResolves k => factory_resolves k st
  | FactoryRejects k => factory_rejects k st
  | DelayElapsed k => delay_elapsed k st
  | ConnectionUpdate sid u => _handleConnectionUpdate sid u st
  | TimerFires i => timer_fires i st
  end.

Definition run (js : list job) (st : t) : t :=
  fold_left (fun s j => step j s) js st.

(** Close events used below: a network drop without status or reason, and
    an ['open'] update. *)
Definition transient_close : update :=
  {| connection := Some ConnClose;
     lastDisconnect := {| CloseReason.statusCode := Some 428;
                          CloseReason.payloadReason := None |} |}.

Definition open_update : update :=
  {| connection := Some ConnOpen;
     lastDisconnect := {| CloseReason.statusCode := None;
                          CloseReason.payloadReason := None |} |}.

(** The phase of activation [k]. *)
Definition phase_of (k : tid) (st : t) : option phase :=
  t_phase <$> tasks st !! k.

Arguments phase_of k%_nat st.

(** [n] calls of [start(sessionId)] in a row and the promises returned. *)
Fixpoint start_repeat (n : nat) (who : caller) (sid : string) (st : t)
    : list promise * t :=
  match n with
  | O => ([], st)
  | S n' =>
      let '(p, st1) := start who sid st in
      let '(ps, st2) := start_repeat n' who sid st1 in
      (p :: ps, st2)
  end.

(** Every registered id names an entry object. *)
Definition registry_ok (st : t) : Prop :=
  forall sid l, map_get (sessions st) sid = Some l -> is_Some (entries st !! l).

(** A manager with a free slot, no waiter and no continuation ready. *)
Definition slot_free (st : t) : Prop :=
  microtasks st = []
  /\ Semaphore.queue (semaphore st) = []
  /\ 0 <= Semaphore.active (semaphore st) < Semaphore.limit (semaphore st).

(** Session [sid] is registered with stored backoff [b], no reconnect is
    pending and nothing else is in flight. *)
Definition idle (sid : string) (b : Z) (st : t) : Prop :=
  (exists l e, get_entry sid st = Some (l, e)
               /\ restarting e = false /\ backoffMs e = b)
  /\ timers st = []
  /\ slot_free st.

(** One failed reconnect round of [sid]: a transient close, the reconnect
    timer firing, and the [start] it calls failing in the factory. *)
Definition failed_round (sid : string) (st : t) : t :=
  let st1 := _handleConnectionUpdate sid transient_close st in
  let k := next_tid st1 in
  run [TimerFires 0; RunMicrotask; FactoryRejects k; DelayElapsed k] st1.

Fixpoint failed_rounds (n : nat) (sid : string) (st : t) : t :=
  match n with
  | O => st
  | S n' => failed_rounds n' sid (failed_round sid st)
  end.

Arguments failed_rounds n%_nat sid st.

(** [start(sessionId)] run to its end with no other job in between, the
    factory call throwing. *)
Definition start_failing (sid : string) (st : t) : t :=
  let k := next_tid (register sid st) in
  run [CallStart sid; RunMicrotask; FactoryRejects k; DelayElapsed k] st.

(** *** Registry persistence and well-formed states *)

(** [_persistMeta()]: the id list written to the metadata file,
    [Array.from(this.sessions.keys())]. *)
Definition _persistMeta (st : t) : list string := map_keys (sessions st).

(** The references to entry objects: the registry holds the entry of an
    id, an activation of [start] holds the entry it read and, when it was
    called by a reconnect timer, the entry that timer captured, and a
    pending reconnect timer holds the entry of the close event. *)
Definition holds (st : t) (sid : string) (l : loc) : Prop :=
  map_get (sessions st) sid = Some l
  \/ (exists k tk, tasks st !! k = Some tk /\ t_sid tk = sid
                   /\ (t_entry tk = l \/ t_caller tk = ReconnectTimer l))
  \/ (exists tm, tm ∈ timers st /\ tm_sid tm = sid /\ tm_entry tm = l).

(** The shape of every manager state the code produces: registered ids are
    unique, the entry objects allocated so far are those below [next_loc],
    every reference is to an allocated entry, and an entry object belongs
    to one session id: whoever holds it holds it for the same id. *)
Definition wf (st : t) : Prop :=
  NoDup (map_keys (sessions st))
  /\ (forall l, is_Some (entries st !! l) <-> (l < next_loc st)%nat)
  /\ (forall sid l, holds st sid l -> (l < next_loc st)%nat)
  /\ (forall sid1 sid2 l, holds st sid1 l -> holds st sid2 l -> sid1 = sid2).

(** [start(sessionId)] run to its end with no other job in between, the
    factory returning a socket. *)
Definition start_succeeding (sid : string) (st : t) : t :=
  let k := next_tid (register sid st) in
  run [CallStart sid; RunMicrotask; FactoryResolves k; DelayElapsed k] st.

(** Everything that changes a manager: the jobs of the event loop, the
    asynchronous [_loadMeta()] started by the constructor (whenever its
    file read completes) and [unregister]. *)
Inductive op :=
| Job (j : job)
| LoadMeta (ids : list string)
| Unregister (sid : string).

Definition step_op (o : op) (st : t) : t :=
  match o with
  | Job j => step j st
  | LoadMeta ids => _loadMeta ids st
  | Unregister sid => unregister sid st
  end.

Definition run_ops (os : list op) (st : t) : t :=
  fold_left (fun s o => step_op o s) os st.

(** A close update that is not classified as a logout. *)
Definition transient (u : update) : Prop :=
  connection u = Some ConnClose
  /\ CloseReason.isLoggedOut (lastDisconnect u) = false.

(** A close update that is classified as a logout. *)
Definition permanent (u : update) : Prop :=
  connection u = Some ConnClose
  /\ CloseReason.isLoggedOut (lastDisconnect u) = true.

(** The session a job works for: the id passed by the caller, the id of
    the activation that continues, or the id of the timer that fires;
    [startAll()] works for no single session. *)
Definition job_session (j : job) (st : t) : option string :=
  match j with
  | CallRegister sid | CallStart sid | CallStop sid | CallLogout sid => Some sid
  | ConnectionUpdate sid _ => Some sid
  | CallStartAll => None
  | RunMicrotask =>
      match microtasks st with
      | [] => None
      | (k, _) :: _ => t_sid <$> tasks st !! k
      end
  | FactoryResolves k | FactoryRejects k | DelayElapsed k =>
      t_sid <$> tasks st !! k
  | TimerFires i => tm_sid <$> timers st !! i
  end.

End SessionManager.

(** ** More of JavaScript strings *)

Module JsText.

(** The white space of [\s] and of [trim()] among the code units below
    256: tab, line feed, vertical tab, form feed, carriage return, space
    and no-break space. *)
Definition is_space (c : ascii) : bool :=
  let n := nat_of_ascii c in
  ((9 <=? n) && (n <=? 13) || (n =? 32) || (n =? 160))%nat.

Fixpoint all_space (s : string) : bool :=
  match s with
  | EmptyString => true
  | String c t => is_space c && all_space t
  end.

Fixpoint no_space (s : string) : bool :=
  match s with
  | EmptyString => true
  | String c t => negb (is_space c) && no_space t
  end.

(** [s.trim()] *)
Fixpoint trimStart (s : string) : string :=
  match s with
  | EmptyString => EmptyString
  | String c t => if is_space c then trimStart t else s
  end.

Fixpoint trimEnd (s : string) : string :=
  match s with
  | EmptyString => EmptyString
  | String c t =>
      match trimEnd t with
      | EmptyString => if is_space c then EmptyString else String c EmptyString
      | String d r => String c (String d r)
      end
  end.

Definition trim (s : string) : string := trimEnd (trimStart s).

(** [s.slice(n)] for a non-negative [n] *)
Fixpoint slice (n : nat) (s : string) : string :=
  match n, s with
  | O, _ => s
  | S _, EmptyString => EmptyString
  | S n', String _ t => slice n' t
  end.

(** [s.split(/\s+/)]: the pieces between the runs of white space, empty
    pieces at the two ends included; [tok] is the piece being read and
    [in_sep] tells that the last unit read was white space. *)
Fixpoint split_go (in_sep : bool) (tok : string) (s : string) : list string :=
  match s with
  | EmptyString => [tok]
  | String c t =>
      if is_space c
      then (if in_sep then split_go true EmptyString t
            else tok :: split_go true EmptyString t)
      else split_go false (tok +:+ String c EmptyString) t
  end.

Definition split_ws (s : string) : list string := split_go false EmptyString s.

(** [l.join(sep)] *)
Fixpoint join (sep : string) (l : list string) : string :=
  match l with
  | [] => EmptyString
  | [x] => x
  | x :: rest => x +:+ sep +:+ join sep rest
  end.

(** [s.endsWith(suffix)] *)
Fixpoint endsWith (s suffix : string) : bool :=
  String.eqb s suffix ||
  match s with
  | EmptyString => false
  | String _ t => endsWith t suffix
  end.

End JsText.

(** ** The plugin registry ([plugins.js]) *)

Module Plugins.

(** A plugin as the registry sees it: the [command] and [on] fields of its
    meta (absent, or a string) and its [exec] function, named by a
    number. *)
Record plugin := mkPlugin {
  command : option string;
  on : option string;
  exec : nat;
}.

#[global] Instance plugin_eq_dec : EqDecision plugin.
Proof. solve_decision. Defined.

(** [commandMap], [textPlugins], [allPlugins] *)
Record registry := mkRegistry {
  commandMap : list (string * plugin);
  textPlugins : list plugin;
  allPlugins : list plugin;
}.

Definition no_plugins : registry :=
  {| commandMap := []; textPlugins := []; allPlugins := [] |}.

(** [Module(meta)(exec)]; [if (plugin.command)] leaves out an absent and an
    empty command. *)
Definition Module_ (p : plugin) (r : registry) : registry :=
  {| commandMap :=
       match command p with
       | Some c => if decide (c = EmptyString) then commandMap r
                   else map_set (commandMap r) c p
       | None => commandMap r
       end;
     textPlugins :=
       if decide (on p = Some "text") then textPlugins r ++ [p] else textPlugins r;
     allPlugins := allPlugins r ++ [p] |}.

Definition register_all (ps : list plugin) (r : registry) : registry :=
  fold_left (fun r p => Module_ p r) ps r.

Record snapshot := mkSnapshot {
  commands : list (string * plugin);
  text : list plugin;
  all : list plugin;
}.

(** [getSnapshot()] *)
Definition getSnapshot (r : registry) : snapshot :=
  {| commands := commandMap r; text := textPlugins r; all := allPlugins r |}.

(** [loadPlugins(dir)]: [files] are the entries of the directory, each with
    the registrations its top-level code performs when imported (up to the
    point where it throws, if it does). *)
Definition loadPlugins (files : list (string * list plugin)) (r : registry)
    : snapshot * registry :=
  match allPlugins r with
  | _ :: _ => (getSnapshot r, r)
  | [] =>
      let r' :=
        fold_left
          (fun r '(file, regs) =>
             if JsText.endsWith file ".js" then register_all regs r else r)
          files r in
      (getSnapshot r', r')
  end.

End Plugins.

(** ** Message dispatch (the [messages.upsert] handler of [lib/index.js]) *)

Module Dispatch.
Import Plugins.

(** The calls of [plugin.exec] the handler schedules, in order. *)
Inductive invocation :=
| RunCommand (p : plugin) (args : string)
| RunText (p : plugin).

(** [config.prefix || "."] *)
Definition prefix_of (configured : option string) : string :=
  match configured with
  | Some EmptyString | None => "."
  | Some p => p
  end.

(** The handler from [const body = msg.body || ""] on. *)
Definition on_message (plugins : snapshot) (configured : option string)
    (body : string) : list invocation :=
  let prefix := prefix_of configured in
  let as_command :=
    if JsString.startsWith body prefix then
      let tokens := JsText.split_ws (JsText.trim (JsText.slice (String.length prefix) body)) in
      match tokens with
      | cmd :: args =>
          match map_get (commands plugins) cmd with
          | Some p => Some [RunCommand p (JsText.join " " args)]
          | None => None
          end
      | [] => None
      end
    else None in
  match as_command with
  | Some calls => calls
  | None =>
      match body with
      | EmptyString => []
      | _ => RunText <$> text plugins
      end
  end.

(** A command line as a user types it: the command word and the argument
    words, each argument after some white space. *)
Definition tail_of (rest : list (string * string)) : string :=
  fold_right (fun '(sep, w) acc => sep +:+ w +:+ acc) EmptyString rest.

Definition well_spaced (rest : list (string * string)) : bool :=
  forallb (fun '(sep, w) =>
             JsText.all_space sep && negb (String.eqb sep EmptyString)
             && JsText.no_space w && negb (String.eqb w EmptyString)) rest.

End Dispatch.

(** ** The pairing route of the HTTP server ([server.js]) *)

Module Server.

(** The line terminators among the code units below 256; [.] matches
    every other code unit. *)
Definition is_line_terminator (c : ascii) : bool :=
  let n := nat_of_ascii c in ((n =? 10) || (n =? 13))%nat.

Fixpoint one_line (s : string) : bool :=
  match s with
  | EmptyString => true
  | String c t => negb (is_line_terminator c) && one_line t
  end.

(** [raw.match(/.{1,4}/g)]: from left to right, the longest runs of at most
    four code units without a line terminator; [cur] is the run being
    read. *)
Fixpoint match_groups (cur : string) (s : string) : list string :=
  match s with
  | EmptyString =>
      match cur with
      | EmptyString => []
      | _ => [cur]
      end
  | String c t =>
      if is_line_terminator c then
        match cur with
        | EmptyString => match_groups EmptyString t
        | _ => cur :: match_groups EmptyString t
        end
      else if (String.length cur =? 3)%nat
           then (cur +:+ String c EmptyString) :: match_groups EmptyString t
           else match_groups (cur +:+ String c EmptyString) t
  end.

(** [fmtCode(raw)] for a string [raw] *)
Definition fmtCode (raw : string) : string :=
  match raw with
  | EmptyString => raw
  | _ =>
      match match_groups EmptyString raw with
      | [] => raw
      | groups =>
          match JsText.join "-" groups with
          | EmptyString => raw
          | code => code
          end
      end
  end.

(** [/^[0-9]{6,15}$/.test(phone)] *)
Definition is_digit (c : ascii) : bool :=
  let n := nat_of_ascii c in ((48 <=? n) && (n <=? 57))%nat.

Fixpoint all_digits (s : string) : bool :=
  match s with
  | EmptyString => true
  | String c t => is_digit c && all_digits t
  end.

Definition valid_phone (phone : string) : bool :=
  all_digits phone && (6 <=? String.length phone)%nat && (String.length phone <=? 15)%nat.

(** What the socket offers, and what a pairing request does: it returns a
    code or throws an [Error] with a message. *)
Inductive api := RequestPairingCode | GeneratePairingCode | NoPairingApi.

Inductive outcome :=
| Returns (raw : string)
| Throws (message : string).

Inductive response :=
| Code200 (code raw : string)
| Bad400
| Err500 (error : string).

(** [String(err?.message || err)] and [lastErr?.message || "failed ..."]
    for an [Error] *)
Definition error_text (message : string) : string :=
  match message with
  | EmptyString => "Error"
  | _ => message
  end.

Definition reported (lastErr : option string) : string :=
  match lastErr with
  | Some (String c m) => String c m
  | _ => "failed to request pairing code"
  end.

(** The errors after which the loop waits and tries again. *)
Definition retryable (message : string) : bool :=
  let msg := JsString.toLowerCase (error_text message) in
  JsString.includes msg "connection closed"
  || JsString.includes msg "request timeout"
  || JsString.includes msg "not open".

(** What a request to the route did: whether the session was started, the
    pairing requests made, the waits between them in milliseconds, and the
    answer. *)
Record trace := mkTrace {
  started : bool;
  requests : nat;
  waits : list Z;
  answer : response;
}.

(** The [while (attempts < 4)] loop; [left] is [4 - attempts], and
    [sock k] is what the [k]-th pairing request does. *)
Fixpoint pair_loop (left : nat) (attempts : nat) (lastErr : option string)
    (has : api) (sock : nat -> outcome) (requests : nat) (waits : list Z) : trace :=
  match left with
  | O => {| started := true; requests := requests; waits := waits;
            answer := Err500 (reported lastErr) |}
  | S left' =>
      let attempts := S attempts in
      let result :=
        match has with
        | NoPairingApi =>
            (Throws "pairing API not supported by this Baileys version", requests)
        | _ => (sock (S requests), S requests)
        end in
      match result with
      | (Returns raw, n) =>
          {| started := true; requests := n; waits := waits;
             answer := Code200 (fmtCode raw) raw |}
      | (Throws message, n) =>
          if retryable message
          then pair_loop left' attempts (Some message) has sock n
                 (waits ++ [1000 * Z.of_nat attempts])
          else {| started := true; requests := n; waits := waits;
                  answer := Err500 (reported (Some message)) |}
      end
  end.

(** [GET /pair/:sessionId/:phone]; [start] is the outcome of
    [sessionManager.start(sid)]: [None] when it resolves, the message of the
    error when it rejects. *)
Definition pair (phone : string) (start : option string) (has : api)
    (sock : nat -> outcome) : trace :=
  if negb (valid_phone phone)
  then {| started := false; requests := O; waits := []; answer := Bad400 |}
  else match start with
       | Some message =>
           {| started := true; requests := O; waits := [];
              answer := Err500 (error_text message) |}
       | None => pair_loop 4 0 None has sock O []
       end.

End Server.

(** ** Restoring sessions at startup ([initializeSessions] of the main
    server) *)

Module Restore.

(** [parseInt(process.env.RESTORE_CONCURRENCY || "3", 10) || 3]; [parsed]
    is the integer [parseInt] reads, [None] when the variable is unset,
    empty or does not start with a number. *)
Definition concurrency (parsed : option Z) : Z :=
  match parsed with
  | None => 3
  | Some z => if z =? 0 then 3 else z
  end.

(** A worker between two awaits: waiting for [startBot(number)], waiting
    for the delay after it, or returned. *)
Inductive worker :=
| Starting (number : string)
| Delaying
| Finished.

#[global] Instance worker_eq_dec : EqDecision worker.
Proof. solve_decision. Defined.

(** The shared queue, the workers, and the calls of [startBot] made so
    far, in order. *)
Record pool := mkPool {
  queue : list string;
  workers : list worker;
  started : list string;
}.

(** A worker at the head of its loop, up to the next await: it leaves
    when the queue is empty or the number it takes is empty, and otherwise
    calls [startBot] for the number it takes ([startBot] catches its own
    errors, so its promise always resolves). *)
Definition enter (p : pool) : worker * pool :=
  match queue p with
  | [] => (Finished, p)
  | number :: rest =>
      match number with
      | EmptyString =>
          (Finished, {| queue := rest; workers := workers p; started := started p |})
      | _ =>
          (Starting number,
           {| queue := rest; workers := workers p; started := started p ++ [number] |})
      end
  end.

(** [Array.from({ length }).map(async () => ...)]: every worker runs up to
    its first await when it is created. *)
Fixpoint spawn (k : nat) (p : pool) : pool :=
  match k with
  | O => p
  | S k' =>
      let '(w, p') := enter p in
      spawn k' {| queue := queue p'; workers := workers p' ++ [w]; started := started p' |}
  end.

Definition create (c : Z) (numbers : list string) : pool :=
  spawn (Z.to_nat (Z.min c (Z.of_nat (length numbers))))
    {| queue := numbers; workers := []; started := [] |}.

Inductive event :=
| BotStarted (i : nat)
| DelayElapsed (i : nat).

Definition step (e : event) (p : pool) : pool :=
  match e with
  | BotStarted i =>
      match workers p !! i with
      | Some (Starting _) =>
          {| queue := queue p; workers := <[i := Delaying]> (workers p);
             started := started p |}
      | _ => p
      end
  | DelayElapsed i =>
      match workers p !! i with
      | Some Delaying =>
          let '(w, p') := enter p in
          {| queue := queue p'; workers := <[i := w]> (workers p');
             started := started p' |}
      | _ => p
      end
  end.

Definition run (es : list event) (p : pool) : pool :=
  fold_left (fun q e => step e q) es p.

(** The calls of [startBot] in progress. *)
Definition is_starting (w : worker) : bool :=
  match w with
  | Starting _ => true
  | _ => false
  end.

Definition in_flight (p : pool) : nat :=
  length (filter (fun w => is_starting w = true) (workers p)).

(** The awaits still to come. *)
Definition weight (w : worker) : nat :=
  match w with
  | Starting _ => 2
  | Delaying => 1
  | Finished => 0
  end.

Definition remaining (p : pool) : nat :=
  (2 * length (queue p) + sum_list_with weight (workers p))%nat.

(** What holds of a pool over the numbers found at startup. *)
Definition pool_ok (numbers : list string) (p : pool) : Prop :=
  started p ++ queue p = numbers
  /\ (Finished ∈ workers p -> queue p = []).

End Restore.

(** * Properties *)

(** ** Strings *)

Module JsStringFacts.
Import JsString.

Lemma startsWith_has_char c needle s :
  startsWith s (String c needle) = true -> has_char c s = true.
Proof.
  destruct s as [|b s]; simpl; [done|].
  destruct (Ascii.eqb c b) eqn:E; [intros _|done].
  by rewrite orb_true_l.
Qed.

Lemma includes_has_char c needle s :
  includes s (String c needle) = true -> has_char c s = true.
Proof.
  induction s as [|b s IH].
  - simpl. done.
  - intros H. change (includes (String b s) (String c needle))
      with (startsWith (String b s) (String c needle) || includes s (String c needle)) in H.
    apply orb_true_iff in H as [H|H].
    + by apply startsWith_has_char in H.
    + simpl. rewrite (IH H). apply orb_true_r.
Qed.

Lemma numeral_char_lower c :
  numeral_char c = true -> Ascii.eqb "l" (lower_char c) = false.
Proof.
  destruct c as [[] [] [] [] [] [] [] []]; vm_compute; congruence.
Qed.

Lemma numeral_no_l s :
  numeral s = true -> has_char "l" (toLowerCase s) = false.
Proof.
  induction s as [|c s IH]; [done|].
  cbn [numeral toLowerCase has_char].
  intros [Hc Hs]%andb_true_iff.
  by rewrite (numeral_char_lower c Hc), (IH Hs).
Qed.

Lemma pretty_N_char_numeral x : numeral_char (pretty_N_char x) = true.
Proof. unfold pretty_N_char. repeat case_match; reflexivity. Qed.

Lemma pretty_N_go_numeral x s :
  numeral s = true -> numeral (pretty_N_go x s) = true.
Proof.
  revert s. induction (N.lt_wf_0 x) as [x _ IH]. intros s Hs.
  destruct (decide (0 < x)%N) as [Hx|Hx].
  - rewrite pretty_N_go_step by done.
    apply IH.
    + apply N.div_lt; lia.
    + simpl. by rewrite pretty_N_char_numeral.
  - assert (x = 0%N) as -> by lia. by rewrite pretty_N_go_0.
Qed.

Lemma of_number_numeral n : numeral (of_number n) = true.
Proof.
  unfold of_number, pretty, pretty_Z.
  destruct n as [|p|p]; [done| |].
  - unfold pretty, pretty_positive, pretty, pretty_N.
    case_match; [done|]. by apply pretty_N_go_numeral.
  - change ("-" +:+ pretty p) with (String "-" (pretty p)).
    simpl. unfold pretty, pretty_positive, pretty, pretty_N.
    case_match; [done|]. by apply pretty_N_go_numeral.
Qed.

(** [String(n)] of a number never matches a needle that starts with [l]. *)
Lemma includes_of_number n needle :
  includes (toLowerCase (of_number n)) (String "l" needle) = false.
Proof.
  destruct (includes _ _) eqn:E; [|done].
  apply includes_has_char in E.
  by rewrite (numeral_no_l _ (of_number_numeral n)) in E.
Qed.

End JsStringFacts.

(** ** Failure classification *)

Module CloseReasonFacts.
Import JsString CloseReason JsStringFacts.

Lemma includes_reason ld :
  includes (toLowerCase (string_of_reason (reason ld))) "loggedout" = true ->
  contains_ci (payloadReason ld) "loggedout" = true.
Proof.
  unfold reason. destruct ld as [[n|] [p|]]; simpl.
  - destruct (truthy_num n); simpl.
    + by rewrite includes_of_number.
    + destruct (truthy_str p); simpl; [done|]. by vm_compute.
  - destruct (truthy_num n); simpl.
    + by rewrite includes_of_number.
    + by vm_compute.
  - destruct (truthy_str p); simpl; [done|]. by vm_compute.
  - by vm_compute.
Qed.

Lemma isLoggedOut_iff ld :
  isLoggedOut ld = true <->
  statusCode ld = Some 401
  \/ payloadReason ld = Some "logout"
  \/ contains_ci (payloadReason ld) "loggedout" = true
  \/ contains_ci (payloadReason ld) "forbidden" = true.
Proof.
  unfold isLoggedOut. rewrite !orb_true_iff. split.
  - intros [[[[[H|H]|H]|H]|H]|H].
    + left. destruct (statusCode ld) as [n|]; [|done].
      apply Z.eqb_eq in H. by subst.
    + right; right; left. destruct (payloadReason ld) as [p|]; [|done].
      simpl in H. apply String.eqb_eq in H. by subst.
    + right; left. destruct (payloadReason ld) as [p|]; [|done].
      simpl in H. apply String.eqb_eq in H. by subst.
    + right; right; left. by apply includes_reason.
    + right; right; left. destruct (payloadReason ld); [done|]. by vm_compute in H.
    + right; right; right. destruct (payloadReason ld); [done|]. by vm_compute in H.
  - intros [H|[H|[H|H]]].
    + rewrite H. by repeat left.
    + rewrite H. do 3 left. by right.
    + do 1 left. right. by destruct (payloadReason ld).
    + right. by destruct (payloadReason ld).
Qed.

(** C1, as amended: a close is classified permanent exactly when the status
    code is 401, or the payload reason is the string "logout", or the
    payload reason contains "loggedout" or "forbidden" as a
    case-insensitive substring; every other close is transient.  Status
    code 401 is permanent whatever the payload. *)
Theorem classify_permanent_iff :
  (forall ld,
     classify ld = Permanent <->
     statusCode ld = Some 401
     \/ payloadReason ld = Some "logout"
     \/ contains_ci (payloadReason ld) "loggedout" = true
     \/ contains_ci (payloadReason ld) "forbidden" = true)
  /\ (forall ld, classify ld = Transient <-> classify ld <> Permanent)
  /\ (forall p, classify {| statusCode := Some 401; payloadReason := p |} = Permanent).
Proof.
  split; [|split].
  - intros ld. rewrite <- isLoggedOut_iff. unfold classify.
    destruct (isLoggedOut ld); split; congruence.
  - intros ld. unfold classify. destruct (isLoggedOut ld); split; congruence.
  - intros p. unfold classify, isLoggedOut. simpl. done.
Qed.

Lemma classify_permanent_iff_witness :
  classify {| statusCode := Some 500; payloadReason := Some "Forbidden by server" |}
  = Permanent.
Proof.
  apply (proj1 classify_permanent_iff). right; right; right. reflexivity.
Defined.

(** C1 as stated fails: a payload reason that contains "logout" without
    being that exact string is classified transient. *)
Lemma logout_substring_is_transient :
  let ld := {| statusCode := None; payloadReason := Some "Logout" |} in
  contains_ci (payloadReason ld) "logout" = true
  /\ classify ld = Transient
  /\ ~ (classify ld = Permanent <->
        statusCode ld = Some 401
        \/ contains_ci (payloadReason ld) "loggedout" = true
        \/ contains_ci (payloadReason ld) "logout" = true
        \/ contains_ci (payloadReason ld) "forbidden" = true).
Proof.
  split; [reflexivity|]. split; [reflexivity|].
  intros [_ H]. assert (Hp : classify {| statusCode := None; payloadReason := Some "Logout" |} = Permanent).
  { apply H. right; right; left. reflexivity. }
  vm_compute in Hp. discriminate.
Qed.

End CloseReasonFacts.

(** ** Insertion-ordered maps *)

Section JsMapFacts.
Context {K V : Type} `{EqDecision K}.
Implicit Types (m : list (K * V)) (k : K) (v : V).
Local Open Scope nat_scope.

Lemma map_get_None m k : map_get m k = None <-> k ∉ map_keys m.
Proof.
  unfold map_keys. induction m as [|[k' v'] m IH]; csimpl.
  - split; [intros _; apply not_elem_of_nil|done].
  - rewrite not_elem_of_cons. case_decide; subst.
    + split; [done|]. intros [? _]. done.
    + rewrite IH. split; [intros ?; split; [congruence|done]|intros [_ ?]; done].
Qed.

Lemma map_has_true m k : map_has m k = true <-> k ∈ map_keys m.
Proof.
  unfold map_has. destruct (map_get m k) eqn:E.
  - split; [intros _|done].
    destruct (decide (k ∈ map_keys m)) as [|Hn]; [done|].
    apply map_get_None in Hn. congruence.
  - apply map_get_None in E. split; [done|]. intros ?. done.
Qed.

Lemma map_has_false m k : map_has m k = false <-> map_get m k = None.
Proof. unfold map_has. destruct (map_get m k); split; congruence. Qed.

Lemma map_set_absent m k v : map_get m k = None -> map_set m k v = m ++ [(k, v)].
Proof.
  induction m as [|[k' v'] m IH]; simpl; [done|].
  case_decide; [done|]. intros Hn. by rewrite IH.
Qed.

Lemma map_get_set_eq m k v : map_get (map_set m k v) k = Some v.
Proof.
  induction m as [|[k' v'] m IH]; simpl.
  - by rewrite decide_True.
  - case_decide; simpl.
    + by rewrite decide_True.
    + by rewrite decide_False.
Qed.

Lemma map_get_set_ne m k k' v : k <> k' -> map_get (map_set m k v) k' = map_get m k'.
Proof.
  intros Hne. induction m as [|[k0 v0] m IH]; simpl.
  - by rewrite decide_False.
  - destruct (decide (k0 = k)) as [->|]; simpl.
    + by rewrite !decide_False.
    + case_decide; [done|]. apply IH.
Qed.

Lemma map_keys_set_present m k v :
  k ∈ map_keys m -> map_keys (map_set m k v) = map_keys m.
Proof.
  unfold map_keys. induction m as [|[k0 v0] m IH]; csimpl.
  - intros ?%elem_of_nil. done.
  - intros [->|Hin]%elem_of_cons.
    + by rewrite decide_True.
    + case_decide; [done|]. csimpl. by rewrite IH.
Qed.

Lemma map_keys_set_absent m k v :
  k ∉ map_keys m -> map_keys (map_set m k v) = map_keys m ++ [k].
Proof.
  intros Hn%map_get_None. rewrite map_set_absent by done.
  unfold map_keys. by rewrite fmap_app.
Qed.

Lemma filter_ne_absent (l : list K) k : k ∉ l -> filter (fun x => x <> k) l = l.
Proof.
  induction l as [|x l IH]; [done|].
  intros [Hx Hl]%not_elem_of_cons.
  rewrite filter_cons_True by congruence. by rewrite IH.
Qed.

Lemma map_keys_delete m k :
  NoDup (map_keys m) ->
  map_keys (map_delete m k) = filter (fun x => x <> k) (map_keys m).
Proof.
  unfold map_keys. induction m as [|[k0 v0] m IH]; csimpl; [done|].
  intros [Hk0 Hnd]%NoDup_cons.
  case_decide; subst.
  - rewrite filter_cons_False by (intros ?; done).
    by rewrite filter_ne_absent.
  - rewrite filter_cons_True by done. csimpl. by rewrite IH.
Qed.

Lemma map_keys_move_to_end m k v :
  NoDup (map_keys m) ->
  map_keys (map_set (map_delete m k) k v) = filter (fun x => x <> k) (map_keys m) ++ [k].
Proof.
  intros Hnd. rewrite map_keys_set_absent.
  - by rewrite map_keys_delete.
  - rewrite map_keys_delete by done. rewrite list_elem_of_filter. intros [? _]. done.
Qed.

Lemma map_keys_NoDup_set m k v : NoDup (map_keys m) -> NoDup (map_keys (map_set m k v)).
Proof.
  intros Hnd. destruct (decide (k ∈ map_keys m)) as [Hin|Hn].
  - by rewrite map_keys_set_present.
  - rewrite map_keys_set_absent by done.
    apply NoDup_app. split; [done|]. split; [|apply NoDup_singleton].
    intros x Hx ->%list_elem_of_singleton. done.
Qed.

Lemma map_keys_NoDup_delete m k : NoDup (map_keys m) -> NoDup (map_keys (map_delete m k)).
Proof. intros Hnd. rewrite map_keys_delete by done. by apply NoDup_filter. Qed.

Lemma evict_loop_drop fuel max m :
  length m <= fuel -> evict_loop fuel max m = drop (length m - max) m.
Proof.
  revert m. induction fuel as [|fuel IH]; intros m Hf.
  - destruct m; [done|]. simpl in Hf. lia.
  - simpl. destruct (Nat.ltb_spec max (length m)) as [Hlt|Hge].
    + destruct m as [|[k v] m]; [simpl in Hlt; lia|].
      unfold map_first_key, map_keys. csimpl. rewrite decide_True by done.
      rewrite IH by (simpl in Hf; lia).
      replace (S (length m) - max)%nat with (S (length m - max)) by (simpl in Hlt; lia).
      done.
    + replace (length m - max)%nat with O by lia. done.
Qed.

Lemma evict_oldest_drop max m : evict_oldest max m = drop (length m - max) m.
Proof. unfold evict_oldest. by apply evict_loop_drop. Qed.

Lemma evict_oldest_length max m : length (evict_oldest max m) <= max.
Proof. rewrite evict_oldest_drop, length_drop. lia. Qed.

Lemma evict_oldest_fits max m : length m <= max -> evict_oldest max m = m.
Proof.
  intros Hle. rewrite evict_oldest_drop.
  replace (length m - max)%nat with O by lia. done.
Qed.

Lemma evict_oldest_snoc max m x :
  evict_oldest (S max) (m ++ [x]) = drop (length m - max) m ++ [x].
Proof.
  rewrite evict_oldest_drop, length_app. simpl.
  replace (length m + 1 - S max)%nat with (length m - max)%nat by lia.
  rewrite drop_app_le by lia. done.
Qed.

Lemma map_get_app m1 m2 k :
  map_get (m1 ++ m2) k =
  match map_get m1 k with Some v => Some v | None => map_get m2 k end.
Proof.
  induction m1 as [|[k' v'] m1 IH]; simpl; [done|].
  by case_decide.
Qed.

Lemma map_get_drop_None m k n : map_get m k = None -> map_get (drop n m) k = None.
Proof.
  rewrite !map_get_None. intros Hn Hin. apply Hn.
  unfold map_keys in *. rewrite fmap_drop in Hin.
  by apply (subseteq_drop n).
Qed.

Lemma map_keys_NoDup_drop m n : NoDup (map_keys m) -> NoDup (map_keys (drop n m)).
Proof.
  unfold map_keys. rewrite fmap_drop. intros Hnd.
  eapply sublist_NoDup; [|apply sublist_drop]. done.
Qed.


Lemma map_keys_length m : length (map_keys m) = length m.
Proof. unfold map_keys. by rewrite length_fmap. Qed.

Lemma map_set_length_present m k v :
  map_has m k = true -> length (map_set m k v) = length m.
Proof.
  intros Hin%map_has_true.
  by rewrite <- (map_keys_length (map_set m k v)), map_keys_set_present, map_keys_length.
Qed.

Lemma elem_of_map_keys_set m k v x :
  x ∈ map_keys (map_set m k v) <-> x = k \/ x ∈ map_keys m.
Proof.
  destruct (decide (k ∈ map_keys m)) as [Hin|Hn].
  - rewrite map_keys_set_present by done.
    split; [by right|]. by intros [->|?].
  - rewrite map_keys_set_absent by done. rewrite elem_of_app, list_elem_of_singleton.
    split; intros [?|?]; auto.
Qed.

Lemma elem_of_map_keys_delete m k x :
  x ∈ map_keys (map_delete m k) -> x ∈ map_keys m.
Proof.
  unfold map_keys. induction m as [|[k0 v0] m IH]; csimpl; [done|].
  case_decide; csimpl.
  - intros ?. by apply list_elem_of_further.
  - intros [->|?]%elem_of_cons; [apply list_elem_of_here|].
    apply list_elem_of_further. by apply IH.
Qed.

Lemma map_delete_absent m k : map_get m k = None -> map_delete m k = m.
Proof.
  induction m as [|[k0 v0] m IH]; simpl; [done|].
  case_decide; [done|]. intros ?. by rewrite IH.
Qed.

Lemma map_delete_length m k : length (map_delete m k) <= length m.
Proof.
  induction m as [|[k0 v0] m IH]; simpl; [done|].
  case_decide; simpl; lia.
Qed.

Lemma map_set_length_le m k v : length (map_set m k v) <= S (length m).
Proof.
  induction m as [|[k0 v0] m IH]; simpl; [done|].
  case_decide; simpl; lia.
Qed.

Lemma map_delete_length_present m k :
  map_has m k = true -> S (length (map_delete m k)) = length m.
Proof.
  unfold map_has. induction m as [|[k0 v0] m IH]; simpl; [done|].
  case_decide; simpl; [done|]. intros ?. by rewrite IH.
Qed.

End JsMapFacts.

(** ** More about insertion-ordered maps *)

Lemma map_get_delete_ne {K V} `{EqDecision K} (m : list (K * V)) k k' :
  k <> k' -> map_get (map_delete m k) k' = map_get m k'.
Proof.
  intros Hne. induction m as [|[k0 v0] m IH]; simpl; [done|].
  destruct (decide (k0 = k)) as [->|Hk0].
  - by rewrite decide_False.
  - simpl. by rewrite IH.
Qed.

Lemma map_get_delete_eq {K V} `{EqDecision K} (m : list (K * V)) k :
  NoDup (map_keys m) -> map_get (map_delete m k) k = None.
Proof.
  intros Hnd. apply map_get_None. rewrite map_keys_delete by done.
  rewrite list_elem_of_filter. intros [? _]. done.
Qed.

Lemma map_get_delete_Some {K V} `{EqDecision K} (m : list (K * V)) k k' v :
  NoDup (map_keys m) ->
  map_get (map_delete m k) k' = Some v -> k <> k' /\ map_get m k' = Some v.
Proof.
  intros Hnd Hget. destruct (decide (k = k')) as [->|Hne].
  - by rewrite map_get_delete_eq in Hget.
  - by rewrite map_get_delete_ne in Hget.
Qed.

Lemma map_get_set_Some {K V} `{EqDecision K} (m : list (K * V)) k k' v v' :
  map_get (map_set m k v) k' = Some v' ->
  (k = k' /\ v = v') \/ (k <> k' /\ map_get m k' = Some v').
Proof.
  destruct (decide (k = k')) as [->|Hne].
  - rewrite map_get_set_eq. intros [= ->]. by left.
  - rewrite map_get_set_ne by done. by right.
Qed.

Lemma elem_of_map_get {K V} `{EqDecision K} (m : list (K * V)) k v :
  NoDup (map_keys m) -> (k, v) ∈ m -> map_get m k = Some v.
Proof.
  unfold map_keys. induction m as [|[k0 v0] m IH]; csimpl.
  - intros _ ?%elem_of_nil. done.
  - intros [Hk0 Hnd]%NoDup_cons [[= -> ->]|Hin]%elem_of_cons.
    + by rewrite decide_True.
    + case_decide; subst; [|by apply IH].
      exfalso. apply Hk0. apply list_elem_of_fmap. by exists (k, v).
Qed.

Lemma map_get_Some_elem_of {K V} `{EqDecision K} (m : list (K * V)) k v :
  map_get m k = Some v -> (k, v) ∈ m.
Proof.
  induction m as [|[k0 v0] m IH]; simpl; [done|].
  case_decide; subst.
  - intros [= ->]. apply list_elem_of_here.
  - intros ?. apply list_elem_of_further. by apply IH.
Qed.

Lemma elem_of_map_set_inv {K V} `{EqDecision K} (m : list (K * V)) k v k' v' :
  (k', v') ∈ map_set m k v -> (k', v') ∈ m \/ (k' = k /\ v' = v).
Proof.
  induction m as [|[k0 v0] m IH]; simpl.
  - intros [= -> ->]%list_elem_of_singleton. by right.
  - case_decide; subst.
    + intros [[= -> ->]|Hin]%elem_of_cons; [by right|].
      left. by apply list_elem_of_further.
    + intros [[= -> ->]|Hin]%elem_of_cons; [left; apply list_elem_of_here|].
      destruct (IH Hin) as [?|?]; [left; by apply list_elem_of_further|by right].
Qed.

Lemma elem_of_map_delete_inv {K V} `{EqDecision K} (m : list (K * V)) k k' v' :
  (k', v') ∈ map_delete m k -> (k', v') ∈ m.
Proof.
  induction m as [|[k0 v0] m IH]; simpl; [done|].
  case_decide; subst.
  - intros Hin. by apply list_elem_of_further.
  - intros [[= -> ->]|Hin]%elem_of_cons; [apply list_elem_of_here|].
    by apply list_elem_of_further, IH.
Qed.

Lemma elem_of_evict_oldest_inv {K V} `{EqDecision K} (m : list (K * V)) max x :
  x ∈ evict_oldest max m -> x ∈ m.
Proof. rewrite evict_oldest_drop. apply subseteq_drop. Qed.

Lemma map_keys_NoDup_evict {K V} `{EqDecision K} (m : list (K * V)) max :
  NoDup (map_keys m) -> NoDup (map_keys (evict_oldest max m)).
Proof. rewrite evict_oldest_drop. apply map_keys_NoDup_drop. Qed.

Lemma fold_map_set_NoDup {K V} `{EqDecision K} (kvs : list (K * V)) : forall m,
  NoDup (map_keys m) ->
  NoDup (map_keys (fold_left (fun m '(k, v) => map_set m k v) kvs m)).
Proof.
  induction kvs as [|[k v] kvs IH]; intros m Hnd; simpl; [done|].
  by apply IH, map_keys_NoDup_set.
Qed.

Lemma map_set_same {K V} `{EqDecision K} (m : list (K * V)) k v :
  map_get m k = Some v -> map_set m k v = m.
Proof.
  induction m as [|[k0 v0] m IH]; simpl; [done|].
  case_decide; subst.
  - by intros [= ->].
  - intros ?. by rewrite IH.
Qed.

Lemma map_get_move_to_end {K V} `{EqDecision K} (m : list (K * V)) k v k' :
  map_get m k = Some v ->
  map_get (map_set (map_delete m k) k v) k' = map_get m k'.
Proof.
  intros Hk. destruct (decide (k = k')) as [<-|Hne].
  - by rewrite map_get_set_eq.
  - by rewrite map_get_set_ne, map_get_delete_ne.
Qed.

Lemma fold_map_set_app {K V} `{EqDecision K} (m : list (K * V)) : forall acc,
  NoDup (map_keys (acc ++ m)) ->
  fold_left (fun o '(k, v) => map_set o k v) m acc = acc ++ m.
Proof.
  induction m as [|[k v] m IH]; intros acc Hnd; simpl.
  - by rewrite app_nil_r.
  - rewrite map_set_absent.
    + rewrite IH; rewrite <- app_assoc; [done|]. done.
    + apply map_get_None. unfold map_keys in *. rewrite fmap_app in Hnd.
      apply NoDup_app in Hnd as (_ & Hd & _). intros Hin.
      apply (Hd _ Hin). csimpl. apply list_elem_of_here.
Qed.

Lemma map_delete_nil_inv {K V} `{EqDecision K} (m : list (K * V)) k k' :
  map_delete m k = [] -> k <> k' -> map_get m k' = None.
Proof. intros Hd Hne. rewrite <- (map_get_delete_ne m k k') by done. by rewrite Hd. Qed.

Lemma map_delete_nil {K V} `{EqDecision K} (m : list (K * V)) k :
  NoDup (map_keys m) ->
  (forall k', k <> k' -> map_get m k' = None) -> map_delete m k = [].
Proof.
  intros Hnd Hall. destruct m as [|[k0 v0] m]; simpl; [done|].
  destruct (decide (k0 = k)) as [->|Hne].
  - destruct m as [|[k1 v1] m]; [done|]. exfalso.
    unfold map_keys in Hnd. csimpl in Hnd.
    apply NoDup_cons in Hnd as [Hk _].
    assert (Hk1 : k <> k1) by (intros ->; apply Hk, list_elem_of_here).
    specialize (Hall k1 Hk1). simpl in Hall.
    rewrite decide_False in Hall by done. by rewrite decide_True in Hall.
  - specialize (Hall k0 (not_eq_sym Hne)). simpl in Hall.
    by rewrite decide_True in Hall.
Qed.

Lemma map_delete_Permutation {K V} `{EqDecision K} (m : list (K * V)) k v :
  map_get m k = Some v -> m ≡ₚ (k, v) :: map_delete m k.
Proof.
  induction m as [|[k0 v0] m IH]; simpl; [done|].
  case_decide; subst.
  - by intros [= ->].
  - intros Hk. rewrite (IH Hk) at 1. apply Permutation_swap.
Qed.

Lemma move_to_end_Permutation {K V} `{EqDecision K} (m : list (K * V)) k v :
  NoDup (map_keys m) -> map_get m k = Some v ->
  map_set (map_delete m k) k v ≡ₚ m.
Proof.
  intros Hnd Hk. rewrite map_set_absent by by apply map_get_delete_eq.
  etrans; [|symmetry; by apply map_delete_Permutation].
  symmetry. apply Permutation_cons_append.
Qed.

Lemma fold_left_sizes {A} (f : A -> nat) (l : list A) : forall n,
  fold_left (fun acc x => (acc + f x)%nat) l n = (n + sum_list_with f l)%nat.
Proof.
  induction l as [|x l IH]; intros n; simpl; [lia|]. rewrite IH. lia.
Qed.

Lemma sum_list_with_Permutation {A} (f : A -> nat) (l1 l2 : list A) :
  l1 ≡ₚ l2 -> sum_list_with f l1 = sum_list_with f l2.
Proof. induction 1; simpl; lia. Qed.

Lemma map_get_drop_Some {K V} `{EqDecision K} (m : list (K * V)) n k v :
  NoDup (map_keys m) -> map_get (drop n m) k = Some v -> map_get m k = Some v.
Proof.
  intros Hnd Hget. apply elem_of_map_get; [done|].
  eapply subseteq_drop. by apply map_get_Some_elem_of.
Qed.

Lemma map_keys_drop {K V} (m : list (K * V)) n : map_keys (drop n m) = drop n (map_keys m).
Proof. unfold map_keys. by rewrite fmap_drop. Qed.

Lemma map_get_elem_of_iff {K V} `{EqDecision K} (m : list (K * V)) k v :
  NoDup (map_keys m) -> map_get m k = Some v <-> (k, v) ∈ m.
Proof. intros Hnd. split; [apply map_get_Some_elem_of|by apply elem_of_map_get]. Qed.

Lemma fold_set_fmap {K K' A B} `{EqDecision K'} (F : K -> K') (G : A -> B)
    (l : list (K * A)) : forall acc : list (K' * B),
  NoDup (map_keys acc ++ (F <$> map_keys l)) ->
  fold_left (fun st '(u, x) => map_set st (F u) (G x)) l acc
  = acc ++ ((fun '(u, x) => (F u, G x)) <$> l).
Proof.
  induction l as [|[u x] l IH]; intros acc Hnd; csimpl.
  - by rewrite app_nil_r.
  - unfold map_keys in Hnd. csimpl in Hnd. rewrite map_set_absent.
    + rewrite IH; [by rewrite <- app_assoc|].
      unfold map_keys. rewrite fmap_app. csimpl. by rewrite <- app_assoc.
    + apply map_get_None. intros Hin.
      apply NoDup_app in Hnd as (_ & Hd & _). apply (Hd _ Hin), list_elem_of_here.
Qed.

Lemma map_keys_Permutation {K V} (m1 m2 : list (K * V)) :
  m1 ≡ₚ m2 -> map_keys m1 ≡ₚ map_keys m2.
Proof. intros Hp. unfold map_keys. by rewrite Hp. Qed.

(** ** The keyed store *)

Module DBManagerFacts.
Import DBManager.
Local Open Scope nat_scope.

Lemma deepClone_id : forall x, deepClone x = x.
Proof.
  fix IH 1. intros [| b | n | s | items | fields]; simpl; try reflexivity.
  - f_equal. induction items as [|y ys IHys]; simpl; [done|].
    by rewrite IH, IHys.
  - f_equal. induction fields as [|[k v] fs IHfs]; simpl; [done|].
    by rewrite IH, IHfs.
Qed.

Lemma limit_on_Some l max : limit_on l = Some max -> exists n, max = S n.
Proof. destruct l as [[|n]|]; simpl; [done| |done]. intros [= <-]. eauto. Qed.

Lemma get_found d u key m V :
  map_get (store d) u = Some m -> map_get m key = Some V -> truthy V = true ->
  (get u key d).1 = V.
Proof.
  intros Hm HV Ht. unfold get. rewrite Hm, HV. simpl. rewrite Ht. simpl.
  destruct (returnDirectRef d); [done|apply deepClone_id].
Qed.

Lemma get_absent d u key : map_get (store d) u = None -> get u key d = (JNull, d).
Proof. intros Hm. unfold get. by rewrite Hm. Qed.

(** The owner's key map after [_applyMaxKeysToUser] still holds the key
    just written. *)
Lemma applyMaxKeys_keeps d u m key V :
  map_get (store d) u = Some m -> key_fits u key d = true ->
  map_get (_applyMaxKeysToUser d (map_set m key V)) key = Some V.
Proof.
  intros Hm. unfold key_fits, _applyMaxKeysToUser. rewrite Hm.
  destruct (limit_on (maxKeysPerUser d)) as [max|] eqn:El; [|intros _; apply map_get_set_eq].
  destruct (limit_on_Some _ _ El) as [n ->].
  intros [Hnew|Hle%Nat.leb_le]%orb_true_iff.
  - apply negb_true_iff, map_has_false in Hnew.
    rewrite map_set_absent by done. rewrite evict_oldest_snoc, map_get_app.
    rewrite map_get_drop_None by done. simpl. by rewrite decide_True.
  - destruct (map_has m key) eqn:Eh.
    + rewrite evict_oldest_fits by (rewrite map_set_length_present; done).
      apply map_get_set_eq.
    + apply map_has_false in Eh.
      rewrite map_set_absent by done. rewrite evict_oldest_snoc, map_get_app.
      rewrite map_get_drop_None by done. simpl. by rewrite decide_True.
Qed.

Lemma applyMaxKeys_new d key V :
  map_get (_applyMaxKeysToUser d (map_set [] key V)) key = Some V.
Proof.
  unfold _applyMaxKeysToUser. simpl.
  destruct (limit_on (maxKeysPerUser d)) as [max|] eqn:El.
  - destruct (limit_on_Some _ _ El) as [n ->].
    rewrite evict_oldest_fits by (simpl; lia). simpl. by rewrite decide_True.
  - simpl. by rewrite decide_True.
Qed.

(** After [_ensureUserMap] the owner is in the store. *)
Lemma ensureUserMap_has u d : map_has (store (_ensureUserMap u d).2) u = true.
Proof.
  unfold _ensureUserMap. destruct (map_get (store d) u) as [m|] eqn:Em; simpl.
  - destruct (limit_on (maxUsers d)); simpl.
    + unfold move_to_end, map_has. by rewrite map_get_set_eq.
    + unfold map_has. by rewrite Em.
  - unfold _applyLRUIfNeeded. simpl.
    destruct (limit_on (maxUsers d)) as [max|] eqn:El; simpl.
    + destruct (limit_on_Some _ _ El) as [n ->].
      rewrite map_set_absent by done. rewrite evict_oldest_snoc.
      unfold map_has. rewrite map_get_app, map_get_drop_None by done.
      simpl. by rewrite decide_True.
    + unfold map_has. by rewrite map_get_set_eq.
Qed.

Lemma ensureUserMap_fst u d :
  (_ensureUserMap u d).1 = default [] (map_get (store d) u).
Proof.
  unfold _ensureUserMap. destruct (map_get (store d) u); simpl; [|done].
  by destruct (limit_on (maxUsers d)).
Qed.

Lemma set_unfold u key V d :
  set u key V d =
  write_back (coerce u)
    (_applyMaxKeysToUser d (map_set (_ensureUserMap (coerce u) d).1 key V))
    (_ensureUserMap (coerce u) d).2.
Proof. unfold set. by destruct (_ensureUserMap (coerce u) d). Qed.

Lemma set_lookup u key V d :
  key_fits (coerce u) key d = true ->
  exists m, map_get (store (set u key V d)) (coerce u) = Some m
            /\ map_get m key = Some V.
Proof.
  intros Hfit. rewrite set_unfold. unfold write_back.
  rewrite ensureUserMap_has. simpl. eexists. split; [apply map_get_set_eq|].
  rewrite ensureUserMap_fst.
  destruct (map_get (store d) (coerce u)) as [m|] eqn:Em; simpl.
  - by eapply applyMaxKeys_keeps.
  - apply applyMaxKeys_new.
Qed.

(** C7, as amended: for every string owner id, key and truthy
    JSON-serializable value [V] (every object and array, every non-empty
    string, non-zero number and [true]), when the key is not dropped by the
    per-owner key limit, [get(owner, key)] right after
    [set(owner, key, V)] returns a value equal to [V]. *)
Theorem get_after_set (d : t) (owner key : string) (V : json) :
  truthy V = true ->
  key_fits (UStr owner) key d = true ->
  (get (UStr owner) key (set (UStr owner) key V d)).1 = V.
Proof.
  intros Ht Hfit.
  destruct (set_lookup (UStr owner) key V d Hfit) as (m & Hm & HV).
  by eapply get_found.
Qed.

Lemma get_after_set_witness :
  (get (UStr "u1") "k"
     (set (UStr "u1") "k" (JObj [("status", JBool true); ("message", JStr "Welcome")])
        (empty (Some 2) (Some 2) false))).1
  = JObj [("status", JBool true); ("message", JStr "Welcome")].
Proof. apply get_after_set; reflexivity. Defined.

(** C7 as stated fails on falsy values: a stored [0] reads back as
    [null]. *)
Lemma get_after_set_zero :
  (get (UStr "u1") "k" (set (UStr "u1") "k" (JNum 0) (empty None None true))).1 = JNull
  /\ JNull <> JNum 0.
Proof. split; [reflexivity|discriminate]. Qed.


(** Why [key_fits] is asked for: a snapshot with more keys than the limit
    is loaded as it is, and overwriting its oldest key evicts that key. *)
Example oversized_snapshot_drops_written_key :
  let d := initFromFile None (Some 2) true
             [("u", [("k1", JStr "a"); ("k2", JStr "b"); ("k3", JStr "c")])] in
  key_fits (UStr "u") "k1" d = false
  /\ (get (UStr "u") "k1" (set (UStr "u") "k1" (JStr "new") d)).1 = JNull.
Proof. split; reflexivity. Qed.

(** *** Owner recency *)

Lemma get_store d u key :
  (get u key d).2 =
  match map_get (store d) u, limit_on (maxUsers d) with
  | Some m, Some _ => with_store d (move_to_end u m (store d))
  | _, _ => d
  end.
Proof.
  unfold get, map_has. destruct (map_get (store d) u) as [m|] eqn:Em; [|done].
  destruct (limit_on (maxUsers d)); by destruct (negb (truthy _)).
Qed.

Lemma getAll_store d u :
  (getAll u d).2 =
  match map_get (store d) u, limit_on (maxUsers d) with
  | Some m, Some _ => with_store d (move_to_end u m (store d))
  | _, _ => d
  end.
Proof.
  unfold getAll. destruct (map_get (store d) u) as [m|] eqn:Em; [|done].
  by destruct (limit_on (maxUsers d)).
Qed.

Lemma set_owners u key v d :
  owners (set u key v d) = owners (_ensureUserMap (coerce u) d).2.
Proof.
  rewrite set_unfold. unfold write_back. rewrite ensureUserMap_has.
  unfold owners. simpl. apply map_keys_set_present.
  apply map_has_true, ensureUserMap_has.
Qed.

Lemma ensureUserMap_owners_present u d max :
  limit_on (maxUsers d) = Some max -> NoDup (owners d) ->
  map_has (store d) u = true ->
  owners (_ensureUserMap u d).2 = filter (fun x => x <> u) (owners d) ++ [u].
Proof.
  intros El Hnd Hin. unfold _ensureUserMap, map_has in *.
  destruct (map_get (store d) u) as [m|]; [|done]. rewrite El. simpl.
  by apply map_keys_move_to_end.
Qed.

Lemma ensureUserMap_owners_absent u d max :
  limit_on (maxUsers d) = Some max ->
  map_has (store d) u = false ->
  owners (_ensureUserMap u d).2 =
  drop (length (owners d ++ [u]) - max) (owners d ++ [u]).
Proof.
  intros El Hout%map_has_false. unfold _ensureUserMap. rewrite Hout.
  unfold _applyLRUIfNeeded. simpl. rewrite El. unfold owners. simpl.
  rewrite evict_oldest_drop, map_set_absent by done.
  unfold map_keys. by rewrite fmap_drop, fmap_app, !length_app, length_fmap.
Qed.

Lemma drop_snoc_last {A} (l : list A) (x : A) n :
  last (drop (length (l ++ [x]) - S n) (l ++ [x])) = Some x.
Proof.
  rewrite length_app. simpl.
  rewrite drop_app_le by lia. apply last_snoc.
Qed.

Lemma applyLRU_owners d max :
  limit_on (maxUsers d) = Some max ->
  owners (_applyLRUIfNeeded d) = drop (length (owners d) - max) (owners d).
Proof.
  intros El. unfold _applyLRUIfNeeded, owners. rewrite El. simpl.
  rewrite evict_oldest_drop. unfold map_keys. by rewrite fmap_drop, length_fmap.
Qed.

Lemma touched_length (l : list userId) u :
  u ∈ l -> length (filter (fun x => x <> u) l ++ [u]) <= length l.
Proof.
  intros Hin. rewrite length_app. simpl.
  pose proof (length_filter_lt (fun x => x <> u) l u Hin) as Hlt.
  assert (¬ u <> u) as Hu by (intros ?; done). specialize (Hlt Hu). lia.
Qed.

Lemma get_owners d max u key :
  limit_on (maxUsers d) = Some max -> NoDup (owners d) ->
  map_has (store d) u = true ->
  owners (get u key d).2 = filter (fun x => x <> u) (owners d) ++ [u].
Proof.
  intros El Hnd Hin. rewrite get_store, El. unfold map_has in Hin.
  destruct (map_get (store d) u) as [m|]; [|done].
  by apply map_keys_move_to_end.
Qed.

Lemma getAll_owners d max u :
  limit_on (maxUsers d) = Some max -> NoDup (owners d) ->
  map_has (store d) u = true ->
  owners (getAll u d).2 = filter (fun x => x <> u) (owners d) ++ [u].
Proof.
  intros El Hnd Hin. rewrite getAll_store, El. unfold map_has in Hin.
  destruct (map_get (store d) u) as [m|]; [|done].
  by apply map_keys_move_to_end.
Qed.

Lemma get_owners_absent d u key : map_has (store d) u = false -> (get u key d).2 = d.
Proof. intros Hout%map_has_false. by rewrite get_store, Hout. Qed.

Lemma getAll_owners_absent d u : map_has (store d) u = false -> (getAll u d).2 = d.
Proof. intros Hout%map_has_false. by rewrite getAll_store, Hout. Qed.

(** C8, as amended: with an owner limit of [max] in force, every [get],
    [getAll] or [set] that touches a present owner moves it to the most
    recent (last) position and leaves the order of the others; a new
    owner enters last and owners are evicted from the oldest end until at
    most [max] are left; a store that holds at most [max] owners holds at
    most [max] after each of the three calls, whereas a store above the
    limit is only cut down by the insertion of a new owner; with a limit
    of 2 and owners a, b, reading a and then writing to a new owner c
    evicts b and keeps a. *)
Theorem owner_lru_touch (d : t) (max : nat) (u : userId) (key : string) (v : json) :
  limit_on (maxUsers d) = Some max ->
  NoDup (owners d) ->
  (map_has (store d) u = true ->
     owners (get u key d).2 = filter (fun x => x <> u) (owners d) ++ [u]
     /\ owners (getAll u d).2 = filter (fun x => x <> u) (owners d) ++ [u])
  /\ (map_has (store d) (coerce u) = true ->
      owners (set u key v d)
      = filter (fun x => x <> coerce u) (owners d) ++ [coerce u])
  /\ (map_has (store d) (coerce u) = false ->
      owners (set u key v d)
      = drop (length (owners d ++ [coerce u]) - max) (owners d ++ [coerce u]))
  /\ last (owners (set u key v d)) = Some (coerce u)
  /\ owners (_applyLRUIfNeeded d) = drop (length (owners d) - max) (owners d)
  /\ length (owners (_applyLRUIfNeeded d)) <= max
  /\ (length (owners d) <= max ->
      length (owners (get u key d).2) <= max
      /\ length (owners (getAll u d).2) <= max
      /\ length (owners (set u key v d)) <= max)
  /\ (forall ma mb ka kc vc mk direct,
        owners
          (set (UStr "c") kc vc
             (get (UStr "a") ka
                {| maxUsers := Some 2; maxKeysPerUser := mk;
                   returnDirectRef := direct;
                   store := [(UStr "a", ma); (UStr "b", mb)] |}).2)
        = [UStr "a"; UStr "c"]).
Proof.
  intros El Hnd.
  assert (Hset_in : map_has (store d) (coerce u) = true ->
            owners (set u key v d)
            = filter (fun x => x <> coerce u) (owners d) ++ [coerce u]).
  { intros Hin. rewrite set_owners. by eapply ensureUserMap_owners_present. }
  assert (Hset_out : map_has (store d) (coerce u) = false ->
            owners (set u key v d)
            = drop (length (owners d ++ [coerce u]) - max) (owners d ++ [coerce u])).
  { intros Hout. rewrite set_owners. by eapply ensureUserMap_owners_absent. }
  destruct (limit_on_Some _ _ El) as [n Hmax].
  split; [|split; [done|split; [done|split; [|split; [|split; [|split]]]]]].
  - intros Hin. split; [by eapply get_owners|by eapply getAll_owners].
  - destruct (map_has (store d) (coerce u)) eqn:Eh.
    + rewrite Hset_in by done. apply last_snoc.
    + rewrite Hset_out by done. subst max. apply drop_snoc_last.
  - by apply applyLRU_owners.
  - rewrite (applyLRU_owners d max El), length_drop. lia.
  - intros Hle. split; [|split].
    + destruct (map_has (store d) u) eqn:Eh.
      * rewrite (get_owners d max) by done.
        etrans; [apply touched_length; by apply map_has_true|done].
      * by rewrite get_owners_absent.
    + destruct (map_has (store d) u) eqn:Eh.
      * rewrite (getAll_owners d max) by done.
        etrans; [apply touched_length; by apply map_has_true|done].
      * by rewrite getAll_owners_absent.
    + destruct (map_has (store d) (coerce u)) eqn:Eh.
      * rewrite Hset_in by done.
        etrans; [apply touched_length; by apply map_has_true|done].
      * rewrite Hset_out by done. rewrite length_drop. lia.
  - intros ma mb ka kc vc mk direct.
    set (d0 := {| maxUsers := Some 2; maxKeysPerUser := mk;
                  returnDirectRef := direct;
                  store := [(UStr "a", ma); (UStr "b", mb)] |}).
    assert (Hg : (get (UStr "a") ka d0).2
                 = with_store d0 [(UStr "b", mb); (UStr "a", ma)]).
    { rewrite get_store. reflexivity. }
    rewrite Hg, set_owners.
    rewrite (ensureUserMap_owners_absent _ _ 2); reflexivity.
Qed.

Lemma owner_lru_touch_witness :
  let d := set (UStr "b") "k" (JObj [])
             (set (UStr "a") "k" (JObj []) (empty (Some 2) None true)) in
  owners d = [UStr "a"; UStr "b"]
  /\ owners (get (UStr "a") "k" d).2 = [UStr "b"; UStr "a"]
  /\ owners (set (UStr "c") "k" (JObj []) (get (UStr "a") "k" d).2)
     = [UStr "a"; UStr "c"].
Proof.
  intros d.
  assert (Hnd : NoDup (owners d)).
  { apply (bool_decide_unpack _). vm_compute. exact I. }
  destruct (owner_lru_touch d 2 (UStr "a") "k" (JObj []) eq_refl Hnd)
    as (Hget & _ & _ & _ & _ & _ & _ & Hscenario).
  split; [reflexivity|]. split.
  - exact (proj1 (Hget eq_refl)).
  - reflexivity.
Defined.

(** C8 as stated fails on a store that starts above the limit:
    [_initFromFile] loads every owner of the snapshot without evicting,
    and [get], [getAll] and [set] on present owners only reorder them, so
    with [maxUsers] 2 a snapshot of three owners keeps its three owners
    through all of them. *)
Lemma oversized_snapshot_keeps_owners :
  let d := initFromFile (Some 2%nat) None true
             [("a", [("k", JStr "x"); ("k2", JStr "x")]);
              ("b", [("k", JStr "y")]); ("c", [("k", JStr "z")])] in
  let d1 := (get (UStr "a") "k" d).2 in
  let d2 := (getAll (UStr "b") d1).2 in
  let d3 := set (UStr "c") "k" (JStr "w") d2 in
  limit_on (maxUsers d) = Some 2%nat
  /\ owners d = [UStr "a"; UStr "b"; UStr "c"]
  /\ owners d1 = [UStr "b"; UStr "c"; UStr "a"]
  /\ owners d2 = [UStr "c"; UStr "a"; UStr "b"]
  /\ owners d3 = [UStr "a"; UStr "b"; UStr "c"]
  /\ stats d3 = (3%nat, 4%nat)
  /\ ~ (length (owners d1) <= 2)%nat
  /\ ~ (length (owners d2) <= 2)%nat
  /\ ~ (length (owners d3) <= 2)%nat.
Proof.
  intros d d1 d2 d3.
  split; [reflexivity|]. split; [reflexivity|]. split; [reflexivity|].
  split; [reflexivity|]. split; [reflexivity|]. split; [reflexivity|].
  repeat split; vm_compute; lia.
Qed.

(** *** Numeric owner ids *)

Lemma string_owners_lookup d n :
  string_owners d = true -> map_get (store d) (UNum n) = None.
Proof.
  unfold string_owners. rewrite forallb_forall. intros Hall.
  apply map_get_None. intros Hin%list_elem_of_In.
  specialize (Hall _ Hin). done.
Qed.

Lemma ensureUserMap_owners_subset u d x :
  x ∈ owners (_ensureUserMap u d).2 -> x = u \/ x ∈ owners d.
Proof.
  unfold _ensureUserMap, owners.
  destruct (map_get (store d) u) as [m|] eqn:Em; simpl.
  - destruct (limit_on (maxUsers d)); simpl; [|by right].
    unfold move_to_end. rewrite elem_of_map_keys_set.
    intros [->|Hin]; [by left|right]. by eapply elem_of_map_keys_delete.
  - unfold _applyLRUIfNeeded. simpl.
    destruct (limit_on (maxUsers d)); simpl.
    + rewrite evict_oldest_drop. unfold map_keys at 1. rewrite fmap_drop.
      intros Hin%(subseteq_drop _). by apply elem_of_map_keys_set in Hin.
    + by rewrite elem_of_map_keys_set.
Qed.

Lemma set_string_owners u key v d :
  string_owners d = true -> string_owners (set u key v d) = true.
Proof.
  unfold string_owners. rewrite !forallb_forall. intros Hall x Hin.
  apply list_elem_of_In in Hin. rewrite set_owners in Hin.
  apply ensureUserMap_owners_subset in Hin as [->|Hin].
  - by destruct u.
  - apply Hall. by apply list_elem_of_In.
Qed.

(** C10, as amended: [set] stores under the string form of a numeric
    owner id and the other operations look the number up as it is.  For
    every numeric owner id [n] and every truthy value [v] (with the key not
    dropped by the per-owner key limit, in a store whose owner ids are
    strings), after [set(n, key, v)]: [get(n, key)] returns [null],
    [get(String(n), key)] returns [v], and [getAll(n)], [delKey(n, key)],
    [delUser(n)] find nothing. *)
Theorem numeric_owner_coercion (d : t) (n : Z) (key : string) (v : json) :
  string_owners d = true ->
  truthy v = true ->
  key_fits (UStr (JsString.of_number n)) key d = true ->
  set (UNum n) key v d = set (UStr (JsString.of_number n)) key v d
  /\ (get (UNum n) key (set (UNum n) key v d)).1 = JNull
  /\ (get (UStr (JsString.of_number n)) key (set (UNum n) key v d)).1 = v
  /\ (getAll (UNum n) (set (UNum n) key v d)).1 = None
  /\ (delKey (UNum n) key (set (UNum n) key v d)).1 = false
  /\ (delUser (UNum n) (set (UNum n) key v d)).1 = false.
Proof.
  intros Hstr Ht Hfit.
  pose proof (string_owners_lookup _ n (set_string_owners (UNum n) key v d Hstr)) as Hnone.
  split; [done|]. split; [|split; [|split; [|split]]].
  - by rewrite get_absent.
  - destruct (set_lookup (UNum n) key v d Hfit) as (m & Hm & HV).
    by eapply get_found.
  - unfold getAll. by rewrite Hnone.
  - unfold delKey. by rewrite Hnone.
  - unfold delUser, map_has. by rewrite Hnone.
Qed.

Lemma numeric_owner_coercion_witness :
  let d := set (UNum 5) "k" (JObj [("on", JBool true)]) (empty None None true) in
  (get (UNum 5) "k" d).1 = JNull
  /\ (get (UStr "5") "k" d).1 = JObj [("on", JBool true)].
Proof.
  intros d.
  destruct (numeric_owner_coercion (empty None None true) 5 "k"
              (JObj [("on", JBool true)]) eq_refl eq_refl eq_refl)
    as (_ & Hnum & Hstr & _).
  split; [exact Hnum|exact Hstr].
Defined.

(** C10 as stated fails on falsy values: after [set(5, "k", false)],
    [get("5", "k")] returns [null], not the stored value. *)
Lemma numeric_owner_falsy_value :
  let d := set (UNum 5) "k" (JBool false) (empty None None true) in
  JsString.of_number 5 = "5"
  /\ (get (UNum 5) "k" d).1 = JNull
  /\ (get (UStr "5") "k" d).1 = JNull
  /\ JNull <> JBool false.
Proof. repeat split; try reflexivity. discriminate. Qed.

(** *** The shape of a store *)

(** Replacing the stores keeps the configuration. *)
Lemma store_ok_with_store d s :
  NoDup (map_keys s) -> (forall u m, (u, m) ∈ s -> NoDup (map_keys m)) ->
  store_ok (with_store d s).
Proof. intros H1 H2. by split. Qed.

Lemma store_ok_move_to_end d u m :
  store_ok d -> map_get (store d) u = Some m ->
  store_ok (with_store d (move_to_end u m (store d))).
Proof.
  intros [Hnd Hin] Hm. apply store_ok_with_store.
  - unfold move_to_end. by apply map_keys_NoDup_set, map_keys_NoDup_delete.
  - intros u' m' [H|[-> ->]]%elem_of_map_set_inv.
    + eapply Hin. by eapply elem_of_map_delete_inv.
    + eapply Hin. by apply map_get_Some_elem_of.
Qed.

Lemma store_ok_get u key d : store_ok d -> store_ok (get u key d).2.
Proof.
  intros Hok. rewrite get_store.
  destruct (map_get (store d) u) as [m|] eqn:Em; [|done].
  destruct (limit_on (maxUsers d)); [|done]. by apply store_ok_move_to_end.
Qed.

Lemma store_ok_getAll u d : store_ok d -> store_ok (getAll u d).2.
Proof.
  intros Hok. rewrite getAll_store.
  destruct (map_get (store d) u) as [m|] eqn:Em; [|done].
  destruct (limit_on (maxUsers d)); [|done]. by apply store_ok_move_to_end.
Qed.

Lemma store_ok_applyLRU d : store_ok d -> store_ok (_applyLRUIfNeeded d).
Proof.
  intros [Hnd Hin]. unfold _applyLRUIfNeeded.
  destruct (limit_on (maxUsers d)) as [max|]; [|done].
  apply store_ok_with_store.
  - by apply map_keys_NoDup_evict.
  - intros u m Hm. eapply Hin. by eapply elem_of_evict_oldest_inv.
Qed.

Lemma store_ok_ensureUserMap u d :
  store_ok d ->
  store_ok (_ensureUserMap u d).2 /\ NoDup (map_keys (_ensureUserMap u d).1).
Proof.
  intros Hok. pose proof Hok as [Hnd Hin]. unfold _ensureUserMap.
  destruct (map_get (store d) u) as [m|] eqn:Em; simpl.
  - assert (NoDup (map_keys m)) by (eapply Hin; by apply map_get_Some_elem_of).
    destruct (limit_on (maxUsers d)); simpl; [|done].
    split; [by apply store_ok_move_to_end|done].
  - split; [|apply NoDup_nil_2]. apply store_ok_applyLRU, store_ok_with_store.
    + by apply map_keys_NoDup_set.
    + intros u' m' [H|[-> ->]]%elem_of_map_set_inv; [by eapply Hin|apply NoDup_nil_2].
Qed.

Lemma store_ok_set u key v d : store_ok d -> store_ok (set u key v d).
Proof.
  intros Hok. rewrite set_unfold.
  destruct (store_ok_ensureUserMap (coerce u) d Hok) as [[Hnd Hin] Hm].
  unfold write_back. rewrite ensureUserMap_has. apply store_ok_with_store.
  - by apply map_keys_NoDup_set.
  - intros u' m' [H|[-> ->]]%elem_of_map_set_inv; [by eapply Hin|].
    unfold _applyMaxKeysToUser. destruct (limit_on (maxKeysPerUser d)).
    + by apply map_keys_NoDup_evict, map_keys_NoDup_set.
    + by apply map_keys_NoDup_set.
Qed.

Lemma store_ok_delKey u key d : store_ok d -> store_ok (delKey u key d).2.
Proof.
  intros [Hnd Hin]. unfold delKey.
  destruct (map_get (store d) u) as [m|] eqn:Em; [|done]. simpl.
  assert (Hm : NoDup (map_keys m)) by (eapply Hin; by apply map_get_Some_elem_of).
  assert (Hs1 : store_ok (with_store d (map_set (store d) u (map_delete m key)))).
  { apply store_ok_with_store; [by apply map_keys_NoDup_set|].
    intros u' m' [H|[-> ->]]%elem_of_map_set_inv; [by eapply Hin|].
    by apply map_keys_NoDup_delete. }
  destruct (length (map_delete m key) =? 0)%nat; [|done].
  destruct Hs1 as [Hnd1 Hin1]. apply store_ok_with_store.
  - by apply map_keys_NoDup_delete.
  - intros u' m' H%elem_of_map_delete_inv. by eapply Hin1.
Qed.

Lemma store_ok_delUser u d : store_ok d -> store_ok (delUser u d).2.
Proof.
  intros [Hnd Hin]. unfold delUser. simpl. apply store_ok_with_store.
  - by apply map_keys_NoDup_delete.
  - intros u' m' H%elem_of_map_delete_inv. by eapply Hin.
Qed.

Lemma store_ok_apply c d : store_ok d -> store_ok (apply c d).
Proof.
  intros Hok. destruct c; simpl.
  - by apply store_ok_get.
  - by apply store_ok_getAll.
  - by apply store_ok_set.
  - by apply store_ok_delKey.
  - by apply store_ok_delUser.
Qed.

Lemma store_ok_run cs : forall d, store_ok d -> store_ok (run cs d).
Proof.
  induction cs as [|c cs IH]; intros d Hok; [done|].
  simpl. by apply IH, store_ok_apply.
Qed.

Lemma store_ok_init mu mk direct snapshot :
  store_ok (initFromFile mu mk direct snapshot).
Proof.
  unfold initFromFile, store_ok, owners. simpl.
  assert (H : forall s : list (userId * list (string * json)),
             NoDup (map_keys s) ->
             (forall u m, (u, m) ∈ s -> NoDup (map_keys m)) ->
             NoDup (map_keys
                      (fold_left
                         (fun st '(u, keysObj) =>
                            map_set st (UStr u)
                              (fold_left (fun m '(k, v) => map_set m k v) keysObj []))
                         snapshot s))
             /\ (forall u m,
                   (u, m) ∈ fold_left
                     (fun st '(u, keysObj) =>
                        map_set st (UStr u)
                          (fold_left (fun m '(k, v) => map_set m k v) keysObj []))
                     snapshot s ->
                   NoDup (map_keys m))).
  { induction snapshot as [|[u keysObj] snapshot IH]; intros s Hnd Hin; simpl; [done|].
    apply IH; [by apply map_keys_NoDup_set|].
    intros u' m' [H|[-> ->]]%elem_of_map_set_inv; [by eapply Hin|].
    apply fold_map_set_NoDup, NoDup_nil_2. }
  apply H; [apply NoDup_nil_2|]. intros u m ?%elem_of_nil. done.
Qed.

(** *** Reads *)

Lemma stats_sum d :
  stats d = (length (store d), sum_list_with (fun um => length um.2) (store d)).
Proof.
  unfold stats. f_equal. rewrite fold_left_sizes. simpl.
  induction (store d) as [|[u m] s IH]; csimpl; [done|]. by rewrite IH.
Qed.

Lemma stats_Permutation d s :
  s ≡ₚ store d -> stats (with_store d s) = stats d.
Proof.
  intros Hp. rewrite !stats_sum. simpl. f_equal.
  - by rewrite Hp.
  - by apply sum_list_with_Permutation.
Qed.

Lemma peek_move_to_end d u m u' key :
  map_get (store d) u = Some m ->
  peek u' key (with_store d (move_to_end u m (store d))) = peek u' key d.
Proof.
  intros Hm. unfold peek, move_to_end. simpl. by rewrite map_get_move_to_end.
Qed.

Lemma touch_peek d u u' key :
  peek u' key
    match map_get (store d) u, limit_on (maxUsers d) with
    | Some m, Some _ => with_store d (move_to_end u m (store d))
    | _, _ => d
    end = peek u' key d.
Proof.
  destruct (map_get (store d) u) as [m|] eqn:Em; [|done].
  destruct (limit_on (maxUsers d)); [|done]. by apply peek_move_to_end.
Qed.

Lemma touch_stats d u :
  store_ok d ->
  stats
    match map_get (store d) u, limit_on (maxUsers d) with
    | Some m, Some _ => with_store d (move_to_end u m (store d))
    | _, _ => d
    end = stats d.
Proof.
  intros [Hnd _]. destruct (map_get (store d) u) as [m|] eqn:Em; [|done].
  destruct (limit_on (maxUsers d)); [|done].
  apply stats_Permutation. by apply move_to_end_Permutation.
Qed.

(** X11: on a store whose owners and keys are unique, [get(u, key)]
    returns the value stored under the key when that value is truthy and
    [null] otherwise (also for a missing owner or key); [getAll(u)] returns
    [null] exactly for a missing owner and otherwise an object that has, under
    every key other than [__proto__] (assigning which creates no property),
    the value stored for the owner.  Neither read changes what is
    stored under any owner and key, nor the counts of [stats()]. *)
Theorem reads_agree_with_store (d : t) (u : userId) (key : string) :
  store_ok d ->
  (get u key d).1
  = match peek u key d with
    | Some v => if truthy v then v else JNull
    | None => JNull
    end
  /\ ((getAll u d).1 = None <-> u ∉ owners d)
  /\ (forall obj, (getAll u d).1 = Some obj ->
        forall key', key' <> "__proto__" -> map_get obj key' = peek u key' d)
  /\ (forall u' key',
        peek u' key' (get u key d).2 = peek u' key' d
        /\ peek u' key' (getAll u d).2 = peek u' key' d)
  /\ stats (get u key d).2 = stats d
  /\ stats (getAll u d).2 = stats d.
Proof.
  intros Hok. split; [|split; [|split; [|split; [|split]]]].
  - unfold get, peek. destruct (map_get (store d) u) as [m|] eqn:Em; [|done].
    destruct (map_get m key) as [v|]; simpl; [|done].
    destruct (truthy v); simpl; [|done].
    destruct (returnDirectRef d); [done|apply deepClone_id].
  - unfold getAll, owners. rewrite <- map_get_None.
    destruct (map_get (store d) u) as [m|]; [|done].
    by destruct (limit_on (maxUsers d)).
  - intros obj Hobj key' _. unfold getAll, peek in *.
    destruct (map_get (store d) u) as [m|] eqn:Em; [|done].
    assert (Hm : NoDup (map_keys m)).
    { destruct Hok as [_ Hin]. eapply Hin. by apply map_get_Some_elem_of. }
    rewrite (fold_map_set_app m []) in Hobj by done.
    destruct (limit_on (maxUsers d)); by injection Hobj as <-.
  - intros u' key'. rewrite get_store, getAll_store. split; apply touch_peek.
  - rewrite get_store. by apply touch_stats.
  - rewrite getAll_store. by apply touch_stats.
Qed.

Lemma reads_agree_with_store_witness :
  let d := set (UStr "a") "k" (JNum 0) (set (UStr "a") "j" (JStr "x") (empty (Some 2%nat) None true)) in
  (get (UStr "a") "k" d).1 = JNull
  /\ (get (UStr "a") "j" d).1 = JStr "x"
  /\ stats (get (UStr "a") "k" d).2 = (1%nat, 2%nat).
Proof.
  intros d.
  assert (Hok : store_ok d).
  { apply store_ok_set, store_ok_set, store_ok_init. }
  pose proof (reads_agree_with_store d (UStr "a") "k" Hok) as (H1 & _ & _ & _ & H5 & _).
  pose proof (reads_agree_with_store d (UStr "a") "j" Hok) as (H2 & _).
  split; [exact H1|]. split; [exact H2|]. exact H5.
Defined.

(** *** Deleting *)

Lemma peek_None_owner d u key : map_get (store d) u = None -> peek u key d = None.
Proof. intros H. unfold peek. by rewrite H. Qed.

(** X12: on a store whose owners and keys are unique, [delKey(u, key)]
    returns whether the key was stored for the owner; afterwards the key is
    gone, every other owner and key holds what it held; the owner stays (at
    its place in the recency order) as long as another key of it remains and
    is removed with its last key; a call that finds nothing to delete leaves
    the store as it was, unless the owner had no keys at all. *)
Theorem delKey_removes_one_key (d : t) (u : userId) (key : string) :
  store_ok d ->
  (delKey u key d).1 = bool_decide (is_Some (peek u key d))
  /\ peek u key (delKey u key d).2 = None
  /\ (forall u' key', (u', key') <> (u, key) ->
        peek u' key' (delKey u key d).2 = peek u' key' d)
  /\ ((exists key', key' <> key /\ is_Some (peek u key' d)) ->
        owners (delKey u key d).2 = owners d)
  /\ ((forall key', key' <> key -> peek u key' d = None) ->
        owners (delKey u key d).2 = filter (fun x => x <> u) (owners d))
  /\ ((delKey u key d).1 = false -> map_get (store d) u <> Some [] ->
        (delKey u key d).2 = d).
Proof.
  intros [Hnd Hin]. unfold delKey, peek, owners.
  destruct (map_get (store d) u) as [m|] eqn:Em; simpl.
  2:{ rewrite Em. split; [done|]. split; [done|]. split; [done|]. split; [done|].
      split; [|done]. intros _. symmetry. apply filter_ne_absent.
      by apply map_get_None. }
  assert (Hm : NoDup (map_keys m)) by (eapply Hin; by apply map_get_Some_elem_of).
  assert (Hu : u ∈ map_keys (store d)).
  { apply map_has_true. unfold map_has. by rewrite Em. }
  split; [|split; [|split; [|split; [|split]]]].
  - unfold map_has. by destruct (map_get m key).
  - destruct (length (map_delete m key) =? 0)%nat; simpl.
    + rewrite map_get_delete_eq; [done|]. by apply map_keys_NoDup_set.
    + rewrite map_get_set_eq. by apply map_get_delete_eq.
  - intros u' key' Hne.
    destruct (length (map_delete m key) =? 0)%nat eqn:El; simpl.
    + apply Nat.eqb_eq, length_zero_iff_nil in El.
      destruct (decide (u' = u)) as [->|Hu'].
      * rewrite map_get_delete_eq, Em by by apply map_keys_NoDup_set.
        symmetry. eapply map_delete_nil_inv; [done|]. congruence.
      * by rewrite map_get_delete_ne, map_get_set_ne.
    + destruct (decide (u' = u)) as [->|Hu'].
      * rewrite map_get_set_eq, Em. apply map_get_delete_ne. congruence.
      * by rewrite map_get_set_ne.
  - intros (key' & Hne & Hsome).
    destruct (length (map_delete m key) =? 0)%nat eqn:El; simpl.
    + apply Nat.eqb_eq, length_zero_iff_nil in El.
      rewrite (map_delete_nil_inv m key key' El) in Hsome by done.
      by destruct Hsome.
    + by apply map_keys_set_present.
  - intros Hall. rewrite map_delete_nil by (try done; intros; by apply Hall).
    simpl. rewrite map_keys_delete by by apply map_keys_NoDup_set.
    by rewrite map_keys_set_present.
  - intros Hex Hne. apply map_has_false in Hex.
    rewrite map_delete_absent by done.
    rewrite (map_set_same (store d) u m Em).
    destruct m as [|kv m]; [done|]. simpl. by destruct d.
Qed.

Lemma delKey_removes_one_key_witness :
  let d := set (UStr "a") "k" (JNum 1) (set (UStr "b") "j" (JNum 2) (empty None None true)) in
  (delKey (UStr "a") "k" d).1 = true
  /\ owners (delKey (UStr "a") "k" d).2 = [UStr "b"]
  /\ (delKey (UStr "b") "k" d).2 = d.
Proof.
  intros d.
  assert (Hok : store_ok d) by apply store_ok_set, store_ok_set, store_ok_init.
  pose proof (delKey_removes_one_key d (UStr "a") "k" Hok) as (H1 & _ & _ & _ & H5 & _).
  pose proof (delKey_removes_one_key d (UStr "b") "k" Hok) as (_ & _ & _ & _ & _ & H6).
  split; [exact H1|]. split; [|by apply H6].
  rewrite H5; [reflexivity|]. intros key' Hne. unfold peek. simpl.
  by rewrite decide_False.
Defined.

(** X13: on a store whose owners are unique, [delUser(u)] returns whether
    the owner was there; afterwards the owner has no keys and [getAll]
    gives [null] for it, the other owners keep their order and everything
    stored for them, and deleting again returns [false]. *)
Theorem delUser_removes_owner (d : t) (u : userId) :
  store_ok d ->
  ((delUser u d).1 = true <-> u ∈ owners d)
  /\ owners (delUser u d).2 = filter (fun x => x <> u) (owners d)
  /\ (forall key, peek u key (delUser u d).2 = None)
  /\ (getAll u (delUser u d).2).1 = None
  /\ (forall u' key, u' <> u -> peek u' key (delUser u d).2 = peek u' key d)
  /\ (delUser u (delUser u d).2).1 = false.
Proof.
  intros [Hnd Hin]. unfold delUser, owners, peek, getAll. simpl.
  rewrite !map_get_delete_eq by done.
  split; [apply map_has_true|]. split; [by apply map_keys_delete|].
  split; [done|]. split; [done|]. split.
  - intros u' key Hne. by rewrite map_get_delete_ne.
  - apply map_has_false. by apply map_get_delete_eq.
Qed.

Lemma delUser_removes_owner_witness :
  let d := set (UStr "a") "k" (JNum 1) (set (UStr "b") "j" (JNum 2) (empty None None true)) in
  (delUser (UStr "b") d).1 = true
  /\ owners (delUser (UStr "b") d).2 = [UStr "a"].
Proof.
  intros d.
  assert (Hok : store_ok d) by apply store_ok_set, store_ok_set, store_ok_init.
  pose proof (delUser_removes_owner d (UStr "b") Hok) as (H1 & H2 & _).
  split; [apply H1, (list_elem_of_here (UStr "b") [UStr "a"])|]. rewrite H2. reflexivity.
Defined.

(** *** Writing *)

Lemma ensureUserMap_lookup_other u d u' :
  store_ok d -> u' <> u ->
  map_get (store (_ensureUserMap u d).2) u' = None
  \/ map_get (store (_ensureUserMap u d).2) u' = map_get (store d) u'.
Proof.
  intros [Hnd _] Hne. unfold _ensureUserMap.
  destruct (map_get (store d) u) as [m|] eqn:Em; simpl.
  - right. destruct (limit_on (maxUsers d)); simpl; [|done].
    unfold move_to_end. by rewrite map_get_move_to_end.
  - unfold _applyLRUIfNeeded. simpl.
    destruct (limit_on (maxUsers d)) as [max|]; simpl.
    + rewrite evict_oldest_drop.
      destruct (map_get (drop _ _) u') as [m'|] eqn:Ed; [|by left]. right.
      apply map_get_drop_Some in Ed; [|by apply map_keys_NoDup_set].
      rewrite map_get_set_ne in Ed by done. done.
    + right. by rewrite map_get_set_ne.
Qed.

Lemma ensureUserMap_limits_off u d :
  limit_on (maxUsers d) = None ->
  store (_ensureUserMap u d).2
  = match map_get (store d) u with
    | Some _ => store d
    | None => map_set (store d) u []
    end.
Proof.
  intros Hoff. unfold _ensureUserMap, _applyLRUIfNeeded. simpl. rewrite Hoff.
  by destruct (map_get (store d) u).
Qed.

Lemma set_store u key v d :
  store (set u key v d)
  = map_set (store (_ensureUserMap (coerce u) d).2) (coerce u)
      (_applyMaxKeysToUser d
         (map_set (default [] (map_get (store d) (coerce u))) key v)).
Proof.
  rewrite set_unfold. unfold write_back.
  by rewrite ensureUserMap_has, ensureUserMap_fst.
Qed.

Lemma owner_map_NoDup d u :
  store_ok d -> NoDup (map_keys (default [] (map_get (store d) u))).
Proof.
  intros [_ Hin]. destruct (map_get (store d) u) as [m|] eqn:Em; simpl.
  - eapply Hin. by apply map_get_Some_elem_of.
  - apply NoDup_nil_2.
Qed.

(** X14: on a store whose owners and keys are unique, [set(u, key, v)]
    writes one binding and invents nothing: whatever is stored afterwards
    under an owner and key is the written value at the written place, or
    was stored there before.  An owner other than the written one is either
    dropped as a whole (by the owner limit) or holds exactly what it held.
    With both limits off, [set] is a point update: the written place holds
    [v] and every other place is unchanged. *)
Theorem set_writes_one_binding (d : t) (u : userId) (key : string) (v : json) :
  store_ok d ->
  (forall u' key' w,
      peek u' key' (set u key v d) = Some w ->
      (u' = coerce u /\ key' = key /\ w = v) \/ peek u' key' d = Some w)
  /\ (forall u', u' <> coerce u ->
        u' ∉ owners (set u key v d)
        \/ forall key', peek u' key' (set u key v d) = peek u' key' d)
  /\ (limit_on (maxUsers d) = None -> limit_on (maxKeysPerUser d) = None ->
      forall u' key',
        peek u' key' (set u key v d)
        = if decide (u' = coerce u /\ key' = key) then Some v else peek u' key' d).
Proof.
  intros Hok. pose proof (owner_map_NoDup d (coerce u) Hok) as Hm.
  split; [|split].
  - intros u' key' w. unfold peek. rewrite set_store.
    destruct (decide (u' = coerce u)) as [->|Hne].
    + rewrite map_get_set_eq. intros Hw.
      assert (Hw' : map_get (map_set (default [] (map_get (store d) (coerce u))) key v) key'
                    = Some w).
      { unfold _applyMaxKeysToUser in Hw.
        destruct (limit_on (maxKeysPerUser d)); [|done].
        rewrite evict_oldest_drop in Hw.
        eapply map_get_drop_Some; [|done]. by apply map_keys_NoDup_set. }
      apply map_get_set_Some in Hw' as [[<- <-]|[Hk Hw']]; [by left|right].
      by destruct (map_get (store d) (coerce u)).
    + rewrite map_get_set_ne by done.
      destruct (ensureUserMap_lookup_other (coerce u) d u' Hok Hne) as [->| ->];
        [done|by right].
  - intros u' Hne. unfold peek, owners. rewrite set_store.
    destruct (ensureUserMap_lookup_other (coerce u) d u' Hok Hne) as [Hn|He].
    + left. apply map_get_None. by rewrite map_get_set_ne.
    + right. intros key'. by rewrite map_get_set_ne, He.
  - intros Hu Hk u' key'. unfold peek. rewrite set_store.
    unfold _applyMaxKeysToUser. rewrite Hk, ensureUserMap_limits_off by done.
    destruct (decide (u' = coerce u)) as [->|Hne].
    + rewrite map_get_set_eq. destruct (decide (key' = key)) as [->|Hne'].
      * rewrite decide_True by done. apply map_get_set_eq.
      * rewrite decide_False by (intros [_ ?]; done).
        rewrite map_get_set_ne by done.
        by destruct (map_get (store d) (coerce u)).
    + rewrite decide_False by (intros [? _]; done).
      rewrite map_get_set_ne by done.
      destruct (map_get (store d) (coerce u)); [done|].
      by rewrite map_get_set_ne.
Qed.

Lemma set_writes_one_binding_witness :
  let d := set (UStr "b") "j" (JNum 2) (empty None None true) in
  peek (UStr "7") "k" (set (UNum 7) "k" (JNum 1) d) = Some (JNum 1)
  /\ peek (UStr "b") "j" (set (UNum 7) "k" (JNum 1) d) = Some (JNum 2).
Proof.
  intros d.
  assert (Hok : store_ok d) by apply store_ok_set, store_ok_init.
  pose proof (set_writes_one_binding d (UNum 7) "k" (JNum 1) Hok) as (_ & _ & H).
  split; by rewrite H.
Defined.

(** X15: with a per-owner key limit [max], after [set(u, key, v)] the
    owner holds at most [max] keys: the last [max] of its keys in insertion
    order, where a new key is inserted last and an overwritten key keeps
    its place; the keys that remain hold the written value ([key]) or what
    they held. *)
Theorem key_limit_evicts_oldest (d : t) (u : userId) (key : string) (v : json)
    (max : nat) :
  store_ok d ->
  limit_on (maxKeysPerUser d) = Some max ->
  let m := default [] (map_get (store d) (coerce u)) in
  let ks := if map_has m key then map_keys m else map_keys m ++ [key] in
  exists m',
    map_get (store (set u key v d)) (coerce u) = Some m'
    /\ map_keys m' = drop (length ks - max) ks
    /\ (length m' <= max)%nat
    /\ (forall key', key' ∈ map_keys m' ->
          map_get m' key' = if decide (key' = key) then Some v else map_get m key').
Proof.
  intros Hok Hmax m ks. pose proof (owner_map_NoDup d (coerce u) Hok) as Hm.
  fold m in Hm. eexists. rewrite set_store. fold m.
  split; [apply map_get_set_eq|]. unfold _applyMaxKeysToUser. rewrite Hmax.
  assert (Hks : map_keys (map_set m key v) = ks).
  { unfold ks. destruct (map_has m key) eqn:Eh.
    - apply map_keys_set_present. by apply map_has_true.
    - apply map_keys_set_absent. by apply map_get_None, map_has_false. }
  split; [|split].
  - rewrite evict_oldest_drop, map_keys_drop, Hks.
    by rewrite <- (map_keys_length (map_set m key v)), Hks.
  - apply evict_oldest_length.
  - intros key' Hin. apply map_has_true in Hin. unfold map_has in Hin.
    destruct (map_get (evict_oldest max (map_set m key v)) key') as [w|] eqn:Ew; [|done].
    rewrite evict_oldest_drop in Ew.
    apply map_get_drop_Some in Ew; [|by apply map_keys_NoDup_set].
    destruct (decide (key' = key)) as [->|Hne].
    + by rewrite map_get_set_eq in Ew.
    + by rewrite map_get_set_ne in Ew.
Qed.

Lemma key_limit_evicts_oldest_witness :
  let d := set (UStr "a") "k2" (JNum 2) (set (UStr "a") "k1" (JNum 1) (empty None (Some 2%nat) true)) in
  exists m', map_get (store (set (UStr "a") "k3" (JNum 3) d)) (UStr "a") = Some m'
             /\ map_keys m' = ["k2"; "k3"].
Proof.
  intros d.
  assert (Hok : store_ok d) by apply store_ok_set, store_ok_set, store_ok_init.
  destruct (key_limit_evicts_oldest d (UStr "a") "k3" (JNum 3) 2%nat Hok eq_refl)
    as (m' & H1 & H2 & _).
  exists m'. split; [exact H1|exact H2].
Defined.

(** *** Every store the interface can reach *)

Lemma move_to_end_owners d u m x :
  map_get (store d) u = Some m ->
  x ∈ map_keys (move_to_end u m (store d)) -> x ∈ owners d.
Proof.
  intros Hm. unfold move_to_end, owners.
  rewrite elem_of_map_keys_set. intros [->|Hin].
  - apply map_has_true. unfold map_has. by rewrite Hm.
  - by eapply elem_of_map_keys_delete.
Qed.

Lemma touch_owners d u x :
  x ∈ owners
        match map_get (store d) u, limit_on (maxUsers d) with
        | Some m, Some _ => with_store d (move_to_end u m (store d))
        | _, _ => d
        end ->
  x ∈ owners d.
Proof.
  destruct (map_get (store d) u) as [m|] eqn:Em; [|done].
  destruct (limit_on (maxUsers d)); [|done]. by apply move_to_end_owners.
Qed.

Lemma delKey_owners u key d x : x ∈ owners (delKey u key d).2 -> x ∈ owners d.
Proof.
  unfold delKey, owners. destruct (map_get (store d) u) as [m|] eqn:Em; [|done].
  simpl. assert (Hu : u ∈ map_keys (store d)).
  { apply map_has_true. unfold map_has. by rewrite Em. }
  destruct (length (map_delete m key) =? 0)%nat.
  - intros Hin%elem_of_map_keys_delete. by rewrite map_keys_set_present in Hin.
  - by rewrite map_keys_set_present.
Qed.

Lemma apply_string_owners c d :
  string_owners d = true -> string_owners (apply c d) = true.
Proof.
  destruct c as [u key|u|u key v|u key|u]; simpl;
    [| |apply set_string_owners| |];
    unfold string_owners; rewrite !forallb_forall; intros Hall x Hin;
    apply Hall; apply list_elem_of_In; apply list_elem_of_In in Hin.
  - rewrite get_store in Hin. by eapply touch_owners.
  - rewrite getAll_store in Hin. by eapply touch_owners.
  - by eapply delKey_owners.
  - unfold delUser, owners in Hin. simpl in Hin. by eapply elem_of_map_keys_delete.
Qed.

Lemma init_string_owners mu mk direct snapshot :
  string_owners (initFromFile mu mk direct snapshot) = true.
Proof.
  unfold string_owners, owners, initFromFile. simpl.
  assert (H : forall s : list (userId * list (string * json)),
             forallb is_string_id (map_keys s) = true ->
             forallb is_string_id
               (map_keys
                  (fold_left
                     (fun st '(u, keysObj) =>
                        map_set st (UStr u)
                          (fold_left (fun m '(k, v) => map_set m k v) keysObj []))
                     snapshot s)) = true).
  { induction snapshot as [|[u keysObj] snapshot IH]; intros s Hs; simpl; [done|].
    apply IH. rewrite forallb_forall in *. intros x Hin%list_elem_of_In.
    apply elem_of_map_keys_set in Hin as [->|Hin]; [done|].
    by apply Hs, list_elem_of_In. }
  by apply H.
Qed.

(** X16: every store the interface can reach is well formed.  After any
    sequence of [get], [getAll], [set], [delKey] and [delUser] calls on a
    store read from any snapshot file, every owner occurs once, every key
    occurs once per owner, and every owner id is a string. *)
Theorem reachable_store_ok (mu mk : option nat) (direct : bool)
    (snapshot : list (string * list (string * json))) (cs : list call) :
  store_ok (run cs (initFromFile mu mk direct snapshot))
  /\ string_owners (run cs (initFromFile mu mk direct snapshot)) = true.
Proof.
  split; [apply store_ok_run, store_ok_init|].
  generalize (init_string_owners mu mk direct snapshot).
  generalize (initFromFile mu mk direct snapshot).
  induction cs as [|c cs IH]; intros d Hd; [done|].
  simpl. by apply IH, apply_string_owners.
Qed.

(** The configuration is fixed at construction. *)
Lemma apply_config c d :
  maxUsers (apply c d) = maxUsers d /\ maxKeysPerUser (apply c d) = maxKeysPerUser d.
Proof.
  destruct c as [u key|u|u key v|u key|u]; simpl.
  - rewrite get_store. destruct (map_get (store d) u); [|done].
    by destruct (limit_on (maxUsers d)).
  - rewrite getAll_store. destruct (map_get (store d) u); [|done].
    by destruct (limit_on (maxUsers d)).
  - rewrite set_unfold. unfold write_back. rewrite ensureUserMap_has. simpl.
    unfold _ensureUserMap, _applyLRUIfNeeded.
    destruct (map_get (store d) (coerce u)); simpl;
      by destruct (limit_on (maxUsers d)).
  - unfold delKey. by destruct (map_get (store d) u).
  - done.
Qed.

Lemma move_to_end_elem d u m x :
  map_get (store d) u = Some m -> x ∈ move_to_end u m (store d) -> x ∈ store d.
Proof.
  intros Hm. destruct x as [u' m']. unfold move_to_end.
  intros [Hin|[-> ->]]%elem_of_map_set_inv.
  - by eapply elem_of_map_delete_inv.
  - by apply map_get_Some_elem_of.
Qed.

Lemma move_to_end_length d u m :
  store_ok d -> map_get (store d) u = Some m ->
  length (move_to_end u m (store d)) = length (store d).
Proof.
  intros [Hnd _] Hm. apply Permutation_length. by apply move_to_end_Permutation.
Qed.

Lemma touch_limits d u :
  store_ok d -> owners_within_limit d -> keys_within_limit d ->
  let d' := match map_get (store d) u, limit_on (maxUsers d) with
            | Some m, Some _ => with_store d (move_to_end u m (store d))
            | _, _ => d
            end in
  owners_within_limit d' /\ keys_within_limit d'.
Proof.
  intros Hok Ho Hk. destruct (map_get (store d) u) as [m|] eqn:Em; [|done].
  destruct (limit_on (maxUsers d)) eqn:El; [|done]. simpl. split.
  - intros max Hmax. simpl in *. rewrite move_to_end_length by done. by apply Ho.
  - intros max Hmax u' m' Hin. simpl in *.
    eapply Hk; [done|]. by eapply move_to_end_elem.
Qed.

Lemma ensureUserMap_elem u d x :
  store_ok d -> x ∈ store (_ensureUserMap u d).2 -> x ∈ store d \/ x = (u, []).
Proof.
  intros Hok. unfold _ensureUserMap.
  destruct (map_get (store d) u) as [m|] eqn:Em; simpl.
  - destruct (limit_on (maxUsers d)); simpl; [|by left].
    intros Hin. left. by eapply move_to_end_elem.
  - unfold _applyLRUIfNeeded. simpl.
    assert (Hset : x ∈ map_set (store d) u [] -> x ∈ store d \/ x = (u, [])).
    { destruct x as [u' m']. intros [?|[-> ->]]%elem_of_map_set_inv; [by left|by right]. }
    destruct (limit_on (maxUsers d)); simpl; [|done].
    intros Hin%elem_of_evict_oldest_inv. by apply Hset.
Qed.

Lemma ensureUserMap_length u d max :
  store_ok d -> owners_within_limit d -> limit_on (maxUsers d) = Some max ->
  (length (store (_ensureUserMap u d).2) <= max)%nat.
Proof.
  intros Hok Ho Hmax. unfold _ensureUserMap.
  destruct (map_get (store d) u) as [m|] eqn:Em; simpl.
  - rewrite Hmax. simpl. rewrite move_to_end_length by done. by apply Ho.
  - unfold _applyLRUIfNeeded. simpl. rewrite Hmax. simpl. apply evict_oldest_length.
Qed.

Lemma apply_limits c d :
  store_ok d -> owners_within_limit d -> keys_within_limit d ->
  owners_within_limit (apply c d) /\ keys_within_limit (apply c d).
Proof.
  intros Hok Ho Hk. destruct c as [u key|u|u key v|u key|u]; simpl.
  - rewrite get_store. by apply touch_limits.
  - rewrite getAll_store. by apply touch_limits.
  - pose proof (apply_config (Set_ u key v) d) as [Hcu Hck]. simpl in Hcu, Hck.
    split.
    + intros max. rewrite Hcu. intros Hmax. rewrite set_store.
      rewrite map_set_length_present by apply ensureUserMap_has.
      by apply ensureUserMap_length.
    + intros max. rewrite Hck. intros Hmax u' m'. rewrite set_store.
      intros [Hin|[-> ->]]%elem_of_map_set_inv.
      * apply ensureUserMap_elem in Hin as [Hin|[= -> ->]]; [|simpl; lia|done].
        by eapply Hk.
      * unfold _applyMaxKeysToUser. rewrite Hmax. apply evict_oldest_length.
  - unfold delKey. destruct (map_get (store d) u) as [m|] eqn:Em; [|done]. simpl.
    assert (Hlen : length (map_set (store d) u (map_delete m key)) = length (store d)).
    { apply map_set_length_present. unfold map_has. by rewrite Em. }
    assert (Hel : forall u' m', (u', m') ∈ map_set (store d) u (map_delete m key) ->
                   forall max, limit_on (maxKeysPerUser d) = Some max ->
                   (length m' <= max)%nat).
    { intros u' m' [Hin|[-> ->]]%elem_of_map_set_inv max Hmax; [by eapply Hk|].
      etrans; [apply map_delete_length|]. eapply Hk; [done|].
      by apply map_get_Some_elem_of. }
    destruct (length (map_delete m key) =? 0)%nat; split.
    + intros max Hmax. simpl in *.
      etrans; [apply map_delete_length|]. rewrite Hlen. by apply Ho.
    + intros max Hmax u' m' Hin%elem_of_map_delete_inv. by eapply Hel.
    + intros max Hmax. simpl in *. rewrite Hlen. by apply Ho.
    + intros max Hmax u' m' Hin. by eapply Hel.
  - unfold delUser. simpl. split.
    + intros max Hmax. simpl in *. etrans; [apply map_delete_length|]. by apply Ho.
    + intros max Hmax u' m' Hin%elem_of_map_delete_inv. by eapply Hk.
Qed.

(** X17: the limits are kept.  From a store whose owners and keys are
    unique and which holds no more owners than [maxUsers] and no owner with
    more keys than [maxKeysPerUser] (the empty store of a fresh file is
    one), no sequence of calls leads to a store that exceeds either limit;
    [stats()] then reports at most [maxUsers] users. *)
Theorem limits_hold (d : t) (cs : list call) :
  store_ok d -> owners_within_limit d -> keys_within_limit d ->
  owners_within_limit (run cs d)
  /\ keys_within_limit (run cs d)
  /\ (forall max, limit_on (maxUsers d) = Some max -> ((stats (run cs d)).1 <= max)%nat).
Proof.
  revert d. induction cs as [|c cs IH]; intros d Hok Ho Hk.
  - split; [done|]. split; [done|]. intros max Hmax. by apply Ho.
  - simpl. destruct (apply_limits c d Hok Ho Hk) as [Ho' Hk'].
    destruct (IH (apply c d) (store_ok_apply c d Hok) Ho' Hk') as (H1 & H2 & H3).
    split; [done|]. split; [done|]. intros max Hmax. apply H3.
    by rewrite (proj1 (apply_config c d)).
Qed.

Lemma limits_hold_witness :
  let cs := [Set_ (UStr "a") "k" (JNum 1); Set_ (UStr "b") "k" (JNum 2);
             Get (UStr "a") "k"; Set_ (UStr "c") "k" (JNum 3)] in
  ((stats (run cs (empty (Some 2%nat) (Some 1%nat) true))).1 <= 2)%nat.
Proof.
  intros cs.
  assert (Hok : store_ok (empty (Some 2%nat) (Some 1%nat) true)) by apply store_ok_init.
  assert (Ho : owners_within_limit (empty (Some 2%nat) (Some 1%nat) true)).
  { intros max _. simpl. lia. }
  assert (Hk : keys_within_limit (empty (Some 2%nat) (Some 1%nat) true)).
  { intros max _ u m Hin. by apply elem_of_nil in Hin. }
  destruct (limits_hold _ cs Hok Ho Hk) as (_ & _ & H). by apply H.
Defined.

(** *** The snapshot file *)

Lemma enumerate_Permutation {V} (obj : list (string * V)) : enumerate obj ≡ₚ obj.
Proof. unfold enumerate. rewrite merge_sort_Permutation. apply filter_app_complement. Qed.

Lemma enumerate_elem {V} (obj : list (string * V)) x : x ∈ enumerate obj <-> x ∈ obj.
Proof. by rewrite enumerate_Permutation. Qed.

Lemma enumerate_NoDup {V} (obj : list (string * V)) :
  NoDup (map_keys obj) -> NoDup (map_keys (enumerate obj)).
Proof.
  intros Hnd. by rewrite (map_keys_Permutation _ _ (enumerate_Permutation obj)).
Qed.

Lemma assign_NoDup {V} (obj : list (string * V)) k v :
  NoDup (map_keys obj) -> NoDup (map_keys (assign obj k v)).
Proof. intros Hnd. unfold assign. case_decide; [done|by apply map_keys_NoDup_set]. Qed.

Lemma fold_assign_NoDup {K A B} (F : K -> string) (G : A -> B) (l : list (K * A)) :
  forall acc : list (string * B),
  NoDup (map_keys acc) ->
  NoDup (map_keys (fold_left (fun o '(k, v) => assign o (F k) (G v)) l acc)).
Proof.
  induction l as [|[k v] l IH]; intros acc Hnd; simpl; [done|].
  by apply IH, assign_NoDup.
Qed.

Lemma fold_assign_fmap {K A B} (F : K -> string) (G : A -> B) (l : list (K * A)) :
  forall acc : list (string * B),
  NoDup (map_keys acc ++ (F <$> map_keys l)) ->
  fold_left (fun o '(k, v) => assign o (F k) (G v)) l acc
  = acc ++ ((fun '(k, v) => (F k, G v)) <$> filter (fun kv => F kv.1 <> "__proto__") l).
Proof.
  induction l as [|[k v] l IH]; intros acc Hnd; csimpl.
  - by rewrite app_nil_r.
  - unfold map_keys in Hnd. csimpl in Hnd. unfold assign at 2.
    destruct (decide (F k = "__proto__")) as [Hp|Hp].
    + rewrite filter_cons_False by (simpl; by intros ?). apply IH.
      apply NoDup_app in Hnd as (H1 & H2 & H3). apply NoDup_cons in H3 as [_ H3].
      apply NoDup_app. split; [done|]. split; [|done].
      intros x Hx Hin. apply (H2 x Hx). by apply list_elem_of_further.
    + rewrite filter_cons_True by done. csimpl. rewrite map_set_absent.
      * rewrite IH; [by rewrite <- app_assoc|].
        unfold map_keys. rewrite fmap_app. csimpl. by rewrite <- app_assoc.
      * apply map_get_None. intros Hin.
        apply NoDup_app in Hnd as (_ & Hd & _). apply (Hd _ Hin), list_elem_of_here.
Qed.

Lemma keys_obj_elem (m : list (string * json)) k v :
  NoDup (map_keys m) ->
  (k, v) ∈ fold_left (fun obj '(k, v) => assign obj k v) m []
  <-> (k, v) ∈ m /\ k <> "__proto__".
Proof.
  intros Hnd.
  pose proof (fold_assign_fmap (fun k : string => k) (fun v : json => v) m []) as E.
  cbv beta in E. rewrite E by (simpl; by rewrite list_fmap_id).
  simpl. rewrite list_elem_of_fmap. split.
  - intros ([k' v'] & [= -> ->] & [Hp Hin]%list_elem_of_filter). done.
  - intros [Hin Hp]. exists (k, v). split; [done|]. by apply list_elem_of_filter.
Qed.

Lemma string_owners_elem d u m :
  string_owners d = true -> (u, m) ∈ store d -> exists s, u = UStr s.
Proof.
  unfold string_owners. rewrite forallb_forall. intros Hall Hin.
  assert (Hu : u ∈ owners d).
  { unfold owners, map_keys. apply list_elem_of_fmap. by exists (u, m). }
  apply list_elem_of_In, Hall in Hu. destruct u as [s|n]; [by exists s|done].
Qed.

Lemma prop_key_NoDup d :
  store_ok d -> string_owners d = true -> NoDup (prop_key <$> map_keys (store d)).
Proof.
  intros [Hnd _] Hs. apply NoDup_fmap_2_strong; [|done].
  intros x y [[x' mx] [-> Hx]]%list_elem_of_fmap [[y' my] [-> Hy]]%list_elem_of_fmap.
  simpl. destruct (string_owners_elem d _ _ Hs Hx) as [sx ->].
  destruct (string_owners_elem d _ _ Hs Hy) as [sy ->]. simpl. by intros ->.
Qed.

Lemma serialize_elem d s ko :
  store_ok d -> string_owners d = true ->
  (s, ko) ∈ _serializeToObject d
  <-> exists m, (UStr s, m) ∈ store d /\ s <> "__proto__"
                /\ ko = fold_left (fun obj '(k, v) => assign obj k v) m [].
Proof.
  intros Hok Hs. unfold _serializeToObject.
  rewrite (fold_assign_fmap prop_key
             (fun m => fold_left (fun obj '(k, v) => assign obj k v) m []) (store d) [])
    by by apply prop_key_NoDup.
  simpl. rewrite list_elem_of_fmap. split.
  - intros ([u m] & [= -> ->] & [Hp Hin]%list_elem_of_filter). simpl in Hp.
    destruct (string_owners_elem d _ _ Hs Hin) as [su ->]. by exists m.
  - intros (m & Hin & Hp & ->). exists (UStr s, m). split; [done|].
    by apply list_elem_of_filter.
Qed.

Lemma serialize_NoDup d : NoDup (map_keys (_serializeToObject d)).
Proof. apply fold_assign_NoDup, NoDup_nil_2. Qed.

Lemma reread_elem (obj : snapshot) s ko' :
  (s, ko') ∈ reread obj <-> exists ko, (s, ko) ∈ obj /\ ko' = enumerate ko.
Proof.
  unfold reread. rewrite enumerate_elem, list_elem_of_fmap. split.
  - intros ([u ko] & [= -> ->] & Hin). by exists ko.
  - intros (ko & Hin & ->). by exists (s, ko).
Qed.

Lemma reread_NoDup (obj : snapshot) :
  NoDup (map_keys obj) -> NoDup (map_keys (reread obj)).
Proof.
  intros Hnd. apply enumerate_NoDup.
  replace (map_keys ((fun '(u, keys) => (u, enumerate keys)) <$> obj))
    with (map_keys obj); [done|].
  unfold map_keys. induction obj as [|[u ko] obj IH]; csimpl; [done|].
  rewrite <- IH; [done|]. unfold map_keys in Hnd. csimpl in Hnd.
  by apply NoDup_cons in Hnd as [_ ?].
Qed.

Lemma init_store_fmap mu mk direct (content : snapshot) :
  NoDup (map_keys content) ->
  (forall s ko, (s, ko) ∈ content -> NoDup (map_keys ko)) ->
  store (initFromFile mu mk direct content) = (fun '(u, ko) => (UStr u, ko)) <$> content.
Proof.
  intros Hnd Hin. unfold initFromFile. simpl.
  rewrite (fold_set_fmap UStr
             (fun keysObj : list (string * json) =>
                fold_left (fun m '(k, v) => map_set m k v) keysObj []) content []).
  - simpl. apply list_fmap_ext. intros i [u ko] Hi. f_equal.
    apply (fold_map_set_app ko []). simpl. eapply Hin.
    by eapply list_elem_of_lookup_2.
  - simpl. apply NoDup_fmap_2_strong; [|done]. by intros x y _ _ [= ->].
Qed.

Lemma peek_elem d u key v :
  store_ok d ->
  peek u key d = Some v <-> exists m, (u, m) ∈ store d /\ (key, v) ∈ m.
Proof.
  intros [Hnd Hin]. unfold peek. split.
  - destruct (map_get (store d) u) as [m|] eqn:Em; [|done].
    intros Hv. exists m. split; by apply map_get_Some_elem_of.
  - intros (m & Hm & Hv). rewrite (elem_of_map_get _ _ _ Hnd Hm).
    apply elem_of_map_get; [|done]. by eapply Hin.
Qed.

Lemma reread_agrees d :
  store_ok d -> string_owners d = true -> agrees (reread (_serializeToObject d)) d.
Proof.
  intros Hok Hs u key Hu Hk. apply option_eq. intros v.
  rewrite !peek_elem by (done || apply store_ok_init).
  assert (Hinner : forall s ko, (s, ko) ∈ reread (_serializeToObject d) ->
                     NoDup (map_keys ko)).
  { intros s ko' (ko & (m & Hm & _ & ->)%serialize_elem & ->)%reread_elem; [|done..].
    apply enumerate_NoDup. apply (fold_assign_NoDup (fun k : string => k) (fun v : json => v)).
    apply NoDup_nil_2. }
  rewrite init_store_fmap by (try done; apply reread_NoDup, serialize_NoDup).
  destruct Hok as [Hnd Hin]. split.
  - intros (m' & ([s ko'] & [= <- <-] & Hre)%list_elem_of_fmap & Hv).
    apply reread_elem in Hre as (ko & Hser & ->).
    apply serialize_elem in Hser as (m & Hm & _ & ->); [|done..].
    exists m. split; [done|].
    apply enumerate_elem, keys_obj_elem in Hv as [Hv _]; [done|]. by eapply Hin.
  - intros (m & Hm & Hv).
    exists (enumerate (fold_left (fun obj '(k, v) => assign obj k v) m [])). split.
    + apply list_elem_of_fmap.
      exists (u, enumerate (fold_left (fun obj '(k, v) => assign obj k v) m [])).
      split; [done|]. apply reread_elem. eexists. split; [|done].
      apply serialize_elem; [done..|]. by exists m.
    + apply enumerate_elem, keys_obj_elem; [by eapply Hin|done].
Qed.

Lemma enumerate_no_index {V} (obj : list (string * V)) :
  (forall kv, kv ∈ obj -> array_index kv.1 = None) -> enumerate obj = obj.
Proof.
  intros Hno. unfold enumerate.
  assert (H1 : filter is_index obj = []).
  { induction obj as [|kv obj IH]; [done|].
    rewrite filter_cons_False.
    - apply IH. intros kv' Hin. by apply Hno, list_elem_of_further.
    - unfold is_index. rewrite (Hno kv) by apply list_elem_of_here. by intros [? ?]. }
  assert (H2 : filter (fun kv => ~ is_index kv) obj = obj).
  { induction obj as [|kv obj IH]; [done|].
    rewrite filter_cons_True.
    - f_equal. apply IH.
      + intros kv' Hin. by apply Hno, list_elem_of_further.
      + rewrite filter_cons_False in H1; [done|].
        unfold is_index. rewrite (Hno kv) by apply list_elem_of_here. by intros [? ?].
    - unfold is_index. rewrite (Hno kv) by apply list_elem_of_here. by intros [? ?]. }
  by rewrite H1, H2.
Qed.

Lemma serialize_keys d :
  store_ok d -> string_owners d = true ->
  UStr <$> map_keys (_serializeToObject d)
  = filter (fun x => x <> UStr "__proto__") (owners d).
Proof.
  intros Hok Hs. unfold _serializeToObject.
  rewrite (fold_assign_fmap prop_key
             (fun m => fold_left (fun obj '(k, v) => assign obj k v) m []) (store d) [])
    by by apply prop_key_NoDup.
  simpl. unfold owners, map_keys.
  assert (Hall : forall u m, (u, m) ∈ store d -> exists s, u = UStr s)
    by (intros u m; by apply string_owners_elem).
  clear Hok Hs. induction (store d) as [|[u m] st IH]; [done|].
  destruct (Hall u m (list_elem_of_here _ _)) as [s ->].
  assert (IH' := IH (fun u' m' H => Hall u' m' (list_elem_of_further _ _ _ H))).
  csimpl. destruct (decide (s = "__proto__")) as [->|Hp].
  - rewrite filter_cons_False by (simpl; by intros ?).
    rewrite filter_cons_False by by intros ?. done.
  - rewrite filter_cons_True by done. rewrite filter_cons_True by congruence.
    csimpl. by rewrite IH'.
Qed.

(** X18: what is written is what is read back.  For a well-formed store
    with string owner ids, a manager started on the file that
    [_flushToDisk] writes finds, under every owner and key other than
    [__proto__], exactly the value the store held, so [get] returns the
    same before and after a restart; when no owner id is an array index the
    owners also come back in the same recency order. *)
Theorem snapshot_round_trip (d : t) (mu mk : option nat) (direct : bool)
    (u key : string) :
  store_ok d -> string_owners d = true ->
  u <> "__proto__" -> key <> "__proto__" ->
  let d' := initFromFile mu mk direct (reread (_serializeToObject d)) in
  peek (UStr u) key d' = peek (UStr u) key d
  /\ (get (UStr u) key d').1 = (get (UStr u) key d).1
  /\ ((forall x, x ∈ owners d -> array_index (prop_key x) = None) ->
      owners d' = filter (fun x => x <> UStr "__proto__") (owners d)).
Proof.
  intros Hok Hs Hu Hk d'.
  assert (Hpeek : peek (UStr u) key d' = peek (UStr u) key d)
    by by apply (reread_agrees d Hok Hs).
  split; [done|]. split.
  - unfold get. unfold peek in Hpeek.
    destruct (map_get (store d') (UStr u)) as [m'|];
      destruct (map_get (store d) (UStr u)) as [m|]; simpl in *.
    + rewrite Hpeek. destruct (negb _); [done|]. by rewrite !deepClone_id; repeat case_match.
    + rewrite Hpeek. done.
    + rewrite <- Hpeek. done.
    + done.
  - intros Hno. unfold d', owners at 1.
    assert (Hinner : forall s ko, (s, ko) ∈ reread (_serializeToObject d) ->
                       NoDup (map_keys ko)).
    { intros s ko' (ko & (m & Hm & _ & ->)%serialize_elem & ->)%reread_elem; [|done..].
      apply enumerate_NoDup.
      apply (fold_assign_NoDup (fun k : string => k) (fun v : json => v)).
      apply NoDup_nil_2. }
    rewrite init_store_fmap by (try done; apply reread_NoDup, serialize_NoDup).
    unfold reread. rewrite enumerate_no_index.
    + rewrite <- serialize_keys by done. unfold map_keys.
      rewrite <- !list_fmap_compose. apply list_fmap_ext. by intros i [s ko] _.
    + intros [s ko'] ([s' ko] & [= -> ->] & Hin)%list_elem_of_fmap. simpl.
      apply serialize_elem in Hin as (m & Hm & _ & _); [|done..].
      apply (Hno (UStr s')). unfold owners, map_keys. apply list_elem_of_fmap.
      by exists (UStr s', m).
Qed.

Lemma snapshot_round_trip_witness :
  let d := set (UStr "b") "k" (JNum 1) (set (UStr "a") "j" (JStr "x") (empty None None true)) in
  peek (UStr "a") "j" (initFromFile None None true (reread (_serializeToObject d)))
  = Some (JStr "x")
  /\ owners (initFromFile None None true (reread (_serializeToObject d)))
     = [UStr "a"; UStr "b"].
Proof.
  intros d.
  assert (Hok : store_ok d) by apply store_ok_set, store_ok_set, store_ok_init.
  destruct (snapshot_round_trip d None None true "a" "j" Hok eq_refl) as (H1 & _ & H3);
    [done|done|].
  assert (Eo : owners d = [UStr "a"; UStr "b"]) by (vm_compute; reflexivity).
  split; [exact H1|]. rewrite H3; [by rewrite Eo|]. rewrite Eo.
  intros x [->|[->|[]%elem_of_nil]%elem_of_cons]%elem_of_cons; vm_compute; reflexivity.
Defined.

(** Owner ids that are array indices come back first, in numeric order:
    the recency order of such a store does not survive a restart. *)
Example restart_reorders_index_owners :
  let d := set (UNum 9) "k" (JNum 1) (set (UNum 10) "k" (JNum 2)
             (set (UStr "b") "k" (JNum 3) (empty (Some 2%nat) None true))) in
  owners d = [UStr "10"; UStr "9"]
  /\ owners (initFromFile (Some 2%nat) None true (reread (_serializeToObject d)))
     = [UStr "9"; UStr "10"].
Proof. intros d. split; vm_compute; reflexivity. Qed.

(** An owner called [__proto__] is never written to the file. *)
Example proto_owner_is_not_saved :
  let d := set (UStr "__proto__") "k" (JNum 1) (empty None None true) in
  peek (UStr "__proto__") "k" d = Some (JNum 1)
  /\ reread (_serializeToObject d) = [].
Proof. intros d. split; vm_compute; reflexivity. Qed.

(** *** Write-behind *)

Lemma delKey_peek_miss u key d u' key' :
  store_ok d -> (delKey u key d).1 = false ->
  peek u' key' (delKey u key d).2 = peek u' key' d.
Proof.
  intros [Hnd Hin]. unfold delKey, peek.
  destruct (map_get (store d) u) as [m|] eqn:Em; [|done]. simpl.
  intros Hmiss%map_has_false. rewrite map_delete_absent by done.
  rewrite (map_set_same (store d) u m Em).
  destruct (length m =? 0)%nat eqn:El; [|done]. simpl.
  apply Nat.eqb_eq, length_zero_iff_nil in El. subst m.
  destruct (decide (u = u')) as [<-|Hne].
  - by rewrite map_get_delete_eq, Em.
  - by rewrite map_get_delete_ne.
Qed.

Lemma delUser_miss u d : (delUser u d).1 = false -> store (delUser u d).2 = store d.
Proof.
  unfold delUser. simpl. intros Hmiss%map_has_false. by apply map_delete_absent.
Qed.

Lemma agrees_peek content d d' :
  (forall u key, peek u key d' = peek u key d) -> agrees content d -> agrees content d'.
Proof. intros Hp Ha u key Hu Hk. rewrite Hp. by apply Ha. Qed.

Lemma cleared_pending p :
  (pending p = [] \/ exists h, _writeTimer p = Some h /\ pending p = [h]) ->
  pending match _writeTimer p with
          | Some h => clearTimeout h p
          | None => p
          end = [].
Proof.
  intros [He|(h & Hw & Hp)].
  - destruct (_writeTimer p); simpl; by rewrite He.
  - rewrite Hw. simpl. rewrite Hp. by rewrite filter_cons_False, filter_nil by by intros ?.
Qed.

Lemma schedule_pending p :
  (pending p = [] \/ exists h, _writeTimer p = Some h /\ pending p = [h]) ->
  pending (_scheduleWrite p) = [next_timeout p].
Proof.
  intros Hs. unfold _scheduleWrite. simpl. rewrite (cleared_pending p Hs).
  by destruct (_writeTimer p).
Qed.

Lemma schedule_fields p :
  cache (_scheduleWrite p) = cache p
  /\ disk (_scheduleWrite p) = disk p
  /\ flushes (_scheduleWrite p) = flushes p
  /\ atomicWrite (_scheduleWrite p) = atomicWrite p
  /\ _dirty (_scheduleWrite p) = true
  /\ _writeTimer (_scheduleWrite p) = Some (next_timeout p).
Proof. unfold _scheduleWrite. by destruct (_writeTimer p). Qed.

Lemma consistent_schedule p d :
  consistent p -> store_ok d -> string_owners d = true ->
  consistent (_scheduleWrite (with_cache d p)).
Proof.
  intros (_ & _ & Hshape & _ & _) Hok Hs.
  pose proof (schedule_fields (with_cache d p)) as (Hc & _ & _ & _ & Hd & Hw).
  pose proof (schedule_pending (with_cache d p) Hshape) as Hp.
  unfold consistent. rewrite Hc, Hd, Hw, Hp. simpl.
  split; [done|]. split; [done|]. split; [right; by eexists|]. split; done.
Qed.

Lemma consistent_with_cache p d :
  consistent p -> store_ok d -> string_owners d = true ->
  (forall u key, peek u key d = peek u key (cache p)) ->
  consistent (with_cache d p).
Proof.
  intros (_ & _ & Hshape & Hpd & Hclean) Hok Hs Hpeek.
  split; [done|]. split; [done|]. split; [done|]. split; [done|].
  simpl. intros Hd. destruct (Hclean Hd) as (c & Hc & Ha).
  exists c. split; [done|]. by eapply agrees_peek.
Qed.

Lemma consistent_call c p : consistent p -> consistent (call_on c p).
Proof.
  intros Hc. pose proof Hc as (Hok & Hs & _).
  destruct c as [u key|u|u key v|u key|u]; unfold call_on; cbv zeta.
  - apply consistent_with_cache; [done|by apply store_ok_get| |].
    + by apply (apply_string_owners (Get u key)).
    + intros u' key'. rewrite get_store. apply touch_peek.
  - apply consistent_with_cache; [done|by apply store_ok_getAll| |].
    + by apply (apply_string_owners (GetAll u)).
    + intros u' key'. rewrite getAll_store. apply touch_peek.
  - apply consistent_schedule; [done|by apply store_ok_set|by apply set_string_owners].
  - destruct (delKey u key (cache p)).1 eqn:Ee.
    + apply consistent_schedule; [done|by apply store_ok_delKey|].
      by apply (apply_string_owners (DelKey u key)).
    + apply consistent_with_cache; [done|by apply store_ok_delKey| |].
      * by apply (apply_string_owners (DelKey u key)).
      * intros u' key'. by apply delKey_peek_miss.
  - destruct (delUser u (cache p)).1 eqn:Ee.
    + apply consistent_schedule; [done|by apply store_ok_delUser|].
      by apply (apply_string_owners (DelUser u)).
    + apply consistent_with_cache; [done|by apply store_ok_delUser| |].
      * by apply (apply_string_owners (DelUser u)).
      * intros u' key'. unfold peek. by rewrite delUser_miss.
Qed.

Lemma consistent_flush ok p :
  consistent p -> pending p = [] -> consistent (_flushToDisk ok p).
Proof.
  intros Hc Hp. pose proof Hc as (Hok & Hs & Hshape & Hpd & Hclean).
  unfold _flushToDisk.
  destruct (_dirty p) eqn:Ed; simpl; [|done].
  destruct ok; simpl.
  - split; [done|]. split; [done|]. split; [by left|]. split; [by rewrite Hp|].
    intros _. eexists. split; [done|]. by apply reread_agrees.
  - split; [done|]. split; [done|]. split; [by left|]. split; [by rewrite Hp|].
    done.
Qed.

Lemma consistent_clear p :
  consistent p ->
  consistent match _writeTimer p with
             | Some h => clearTimeout h p
             | None => p
             end.
Proof.
  intros Hc. pose proof Hc as (Hok & Hs & Hshape & Hpd & Hclean).
  pose proof (cleared_pending p Hshape) as Hp.
  destruct (_writeTimer p) as [h|] eqn:Ew; [|done].
  split; [done|]. split; [done|]. split; [by left|]. split; [by rewrite Hp|done].
Qed.

Lemma consistent_syncFlush ok p : consistent p -> consistent (syncFlush ok p).
Proof.
  intros Hc. pose proof Hc as (Hok & Hs & Hshape & Hpd & Hclean).
  pose proof (cleared_pending p Hshape) as Hp.
  unfold syncFlush. apply consistent_flush.
  - destruct (_writeTimer p) as [h|] eqn:Ew; [|done]. simpl in *.
    split; [done|]. split; [done|]. split; [by left|]. split; [by rewrite Hp|done].
  - by destruct (_writeTimer p).
Qed.

Lemma consistent_handle e p : consistent p -> consistent (handle e p).
Proof.
  intros Hc. destruct e as [c|ok|ok|h ok]; simpl.
  - by apply consistent_call.
  - by apply consistent_syncFlush.
  - unfold close. by apply consistent_syncFlush, consistent_clear.
  - unfold timeout_fires. case_decide as Hin; [|done].
    pose proof Hc as (Hok & Hs & Hshape & Hpd & Hclean).
    assert (Hp : pending (clearTimeout h p) = []).
    { simpl. destruct Hshape as [He|(h' & _ & He)]; rewrite He in *.
      - done.
      - apply list_elem_of_singleton in Hin as ->.
        by rewrite filter_cons_False, filter_nil by by intros ?. }
    apply consistent_flush; [|done].
    split; [done|]. split; [done|]. split; [by left|]. split; [by rewrite Hp|done].
Qed.

Lemma consistent_handle_all es : forall p, consistent p -> consistent (handle_all es p).
Proof.
  induction es as [|e es IH]; intros p Hc; [done|].
  simpl. by apply IH, consistent_handle.
Qed.

Lemma consistent_construct mu mk direct atomic content p :
  construct mu mk direct atomic (Intact content) = Some p -> consistent p.
Proof.
  intros [= <-]. split; [apply store_ok_init|]. split; [apply init_string_owners|].
  split; [by left|]. split; [done|]. intros _. exists content. split; [done|].
  by intros u key _ _.
Qed.

Lemma flush_cache ok p : cache (_flushToDisk ok p) = cache p.
Proof. unfold _flushToDisk. destruct (_dirty p); [|done]. by destruct ok. Qed.

Lemma syncFlush_cache ok p : cache (syncFlush ok p) = cache p.
Proof. unfold syncFlush. rewrite flush_cache. by destruct (_writeTimer p). Qed.

Lemma flush_true_clean p : _dirty (_flushToDisk true p) = false.
Proof. unfold _flushToDisk. by destruct (_dirty p) eqn:E. Qed.

(** X19: a clean manager is a saved one.  After any sequence of calls,
    timeouts and flushes (failed writes included) on a manager built over a
    readable file, whenever nothing is marked unsaved the file is intact and
    a restart from it finds, under every owner and key other than
    [__proto__], what memory holds; and a [syncFlush] or [close] whose write
    succeeds always ends in that state, with no timeout left pending and
    the store itself untouched. *)
Theorem clean_manager_is_saved (mu mk : option nat) (direct atomic : bool)
    (content : snapshot) (es : list event) :
  exists p0,
    construct mu mk direct atomic (Intact content) = Some p0
    /\ let p := handle_all es p0 in
       (_dirty p = false ->
        exists c, disk p = Intact c /\ agrees c (cache p))
       /\ (forall q, q = syncFlush true p \/ q = close true p ->
             _dirty q = false /\ pending q = [] /\ cache q = cache p
             /\ exists c, disk q = Intact c /\ agrees c (cache q)).
Proof.
  eexists. split; [done|]. intros p.
  assert (Hc : consistent p).
  { apply consistent_handle_all. by eapply consistent_construct. }
  split; [apply Hc|]. intros q Hq.
  assert (Hcq : consistent q).
  { destruct Hq as [-> | ->].
    - by apply (consistent_handle (SyncFlush true)).
    - by apply (consistent_handle (Close true)). }
  assert (Hd : _dirty q = false).
  { destruct Hq as [-> | ->]; unfold close, syncFlush; apply flush_true_clean. }
  split; [done|]. split; [|split].
  - destruct Hcq as (_ & _ & _ & Hpd & _).
    destruct (pending q); [done|]. by rewrite Hpd in Hd.
  - destruct Hq as [-> | ->]; unfold close; rewrite !syncFlush_cache;
      [|destruct (_writeTimer p)]; done.
  - by apply Hcq.
Qed.

Lemma handle_all_snoc es e p : handle_all (es ++ [e]) p = handle e (handle_all es p).
Proof. unfold handle_all. by rewrite fold_left_app. Qed.

(** X20: at most one write is scheduled, and none is forgotten.  After
    any sequence of events on a manager built over a readable file at most
    one timeout is pending and it is the one [_writeTimer] names; a pending
    timeout means unsaved changes; and as long as no write has failed,
    unsaved changes always have a timeout pending. *)
Theorem one_pending_write (mu mk : option nat) (direct atomic : bool)
    (content : snapshot) (es : list event) :
  exists p0,
    construct mu mk direct atomic (Intact content) = Some p0
    /\ let p := handle_all es p0 in
       (length (pending p) <= 1)%nat
       /\ (forall h, h ∈ pending p -> _writeTimer p = Some h /\ _dirty p = true)
       /\ (forallb event_ok es = true -> _dirty p = true -> pending p <> []).
Proof.
  eexists. split; [done|]. intros p.
  assert (Hc : consistent p).
  { apply consistent_handle_all. by eapply consistent_construct. }
  destruct Hc as (_ & _ & Hshape & Hpd & _).
  split; [|split].
  - destruct Hshape as [->|(h & _ & ->)]; simpl; lia.
  - intros h Hin. destruct Hshape as [He|(h' & Hw & He)]; rewrite He in Hin.
    + by apply elem_of_nil in Hin.
    + apply list_elem_of_singleton in Hin as ->. split; [done|].
      apply Hpd. by rewrite He.
  - clear Hshape Hpd. subst p.
    induction es as [|e es IH] using rev_ind; [done|].
    rewrite forallb_app. intros [Hes He]%andb_true_iff.
    simpl in He. rewrite andb_true_r in He. rewrite handle_all_snoc.
    specialize (IH Hes).
    match goal with |- context [handle e ?x] => set (p := x) in * end.
    assert (Hc : consistent p).
    { apply consistent_handle_all. by eapply consistent_construct. }
    pose proof Hc as (_ & _ & Hshape & _).
    assert (Hsched : forall d, pending (_scheduleWrite (with_cache d p)) <> []).
    { intros d. by rewrite (schedule_pending (with_cache d p) Hshape). }
    destruct e as [c|ok|ok|h ok]; simpl in He; subst; unfold handle.
    + destruct c as [u key|u|u key v|u key|u]; unfold call_on; cbv zeta; try done.
      * by destruct (delKey u key (cache p)).1.
      * by destruct (delUser u (cache p)).1.
    + unfold syncFlush. by rewrite flush_true_clean.
    + unfold close, syncFlush. by rewrite flush_true_clean.
    + unfold timeout_fires. case_decide; [by rewrite flush_true_clean|done].
Qed.

(** A failed write is not retried: the changes stay unsaved with no
    timeout pending, until the next change or flush. *)
Example failed_write_is_not_retried :
  let p := handle_all [Call (Set_ (UStr "a") "k" (JNum 1)); TimeoutFires 0 false]
             {| cache := empty None None true; atomicWrite := true; _dirty := false;
                _writeTimer := None; pending := []; next_timeout := O;
                disk := Intact []; flushes := O |} in
  _dirty p = true /\ pending p = [] /\ disk p = Intact [].
Proof. intros p. repeat split; vm_compute; reflexivity. Qed.

Lemma call_on_facts c p :
  (pending p = [] \/ exists h, _writeTimer p = Some h /\ pending p = [h]) ->
  cache (call_on c p) = apply c (cache p)
  /\ flushes (call_on c p) = flushes p
  /\ disk (call_on c p) = disk p
  /\ (mutates c (cache p) = true ->
        pending (call_on c p) = [next_timeout p] /\ _dirty (call_on c p) = true)
  /\ (mutates c (cache p) = false ->
        pending (call_on c p) = pending p /\ _dirty (call_on c p) = _dirty p).
Proof.
  intros Hshape.
  assert (Hs : forall d,
             cache (_scheduleWrite (with_cache d p)) = d
             /\ flushes (_scheduleWrite (with_cache d p)) = flushes p
             /\ disk (_scheduleWrite (with_cache d p)) = disk p
             /\ pending (_scheduleWrite (with_cache d p)) = [next_timeout p]
             /\ _dirty (_scheduleWrite (with_cache d p)) = true).
  { intros d. pose proof (schedule_fields (with_cache d p)) as (H1 & H2 & H3 & _ & H5 & _).
    pose proof (schedule_pending (with_cache d p) Hshape) as H6. done. }
  destruct c as [u key|u|u key v|u key|u]; unfold call_on, mutates, apply; cbv zeta.
  - done.
  - done.
  - destruct (Hs (set u key v (cache p))) as (H1 & H2 & H3 & H4 & H5). done.
  - destruct (delKey u key (cache p)).1 eqn:Ee; [|done].
    destruct (Hs (delKey u key (cache p)).2) as (H1 & H2 & H3 & H4 & H5). done.
  - destruct (delUser u (cache p)).1 eqn:Ee; [|done].
    destruct (Hs (delUser u (cache p)).2) as (H1 & H2 & H3 & H4 & H5). done.
Qed.

Lemma burst_facts cs : forall p,
  consistent p ->
  cache (handle_all (Call <$> cs) p) = run cs (cache p)
  /\ flushes (handle_all (Call <$> cs) p) = flushes p
  /\ disk (handle_all (Call <$> cs) p) = disk p
  /\ (mutated cs (cache p) = true ->
        (exists h, pending (handle_all (Call <$> cs) p) = [h])
        /\ _dirty (handle_all (Call <$> cs) p) = true)
  /\ (mutated cs (cache p) = false ->
        pending (handle_all (Call <$> cs) p) = pending p
        /\ _dirty (handle_all (Call <$> cs) p) = _dirty p).
Proof.
  induction cs as [|c cs IH]; intros p Hc; [done|].
  pose proof Hc as (_ & _ & Hshape & _).
  destruct (call_on_facts c p Hshape) as (H1 & H2 & H3 & H4 & H5).
  destruct (IH (call_on c p) (consistent_call c p Hc)) as (I1 & I2 & I3 & I4 & I5).
  csimpl. rewrite I1, I2, I3, H1, H2, H3. split; [done|]. split; [done|]. split; [done|].
  rewrite H1 in I4, I5. split.
  - intros [Hm|Hm]%orb_true_iff.
    + destruct (mutated cs (apply c (cache p))) eqn:Em.
      * by apply I4.
      * destruct (I5 eq_refl) as [-> ->]. destruct (H4 Hm) as [-> ->].
        split; [by eexists|done].
    + by apply I4.
  - intros [Hm Hm']%orb_false_iff.
    destruct (I5 Hm') as [-> ->]. by apply H5.
Qed.

(** X21: a burst of calls costs one write.  From a consistent manager, any
    number of calls by themselves write nothing to the file; if one of them
    changed the store, exactly one timeout is pending afterwards, and when
    it fires (and the write succeeds) the file is written once, with the
    store as the whole burst left it.  A burst of reads and of deletions
    that find nothing schedules nothing. *)
Theorem burst_is_one_write (p : manager) (cs : list call) :
  consistent p ->
  let p' := handle_all (Call <$> cs) p in
  flushes p' = flushes p /\ disk p' = disk p /\ cache p' = run cs (cache p)
  /\ (mutated cs (cache p) = false -> pending p' = pending p /\ _dirty p' = _dirty p)
  /\ (mutated cs (cache p) = true ->
      exists h, pending p' = [h]
        /\ flushes (timeout_fires h true p') = S (flushes p)
        /\ disk (timeout_fires h true p')
           = Intact (reread (_serializeToObject (run cs (cache p))))
        /\ pending (timeout_fires h true p') = []
        /\ _dirty (timeout_fires h true p') = false).
Proof.
  intros Hc p'. destruct (burst_facts cs p Hc) as (H1 & H2 & H3 & H4 & H5).
  fold p' in H1, H2, H3, H4, H5.
  split; [done|]. split; [done|]. split; [done|]. split; [done|].
  intros Hm. destruct (H4 Hm) as [[h Hp] Hd]. exists h. split; [done|].
  unfold timeout_fires. rewrite Hp. rewrite decide_True by apply list_elem_of_here.
  unfold _flushToDisk. simpl. rewrite Hd, Hp. simpl.
  rewrite filter_cons_False, filter_nil by by intros ?.
  by rewrite H1, H2.
Qed.

Lemma burst_is_one_write_witness :
  let p := {| cache := empty None None true; atomicWrite := true; _dirty := false;
              _writeTimer := None; pending := []; next_timeout := O;
              disk := Intact []; flushes := O |} in
  let cs := [Set_ (UStr "a") "k" (JNum 1); Get (UStr "a") "k";
             Set_ (UStr "a") "k" (JNum 2); DelKey (UStr "b") "k"] in
  flushes (handle_all (Call <$> cs) p) = O
  /\ exists h, pending (handle_all (Call <$> cs) p) = [h]
       /\ flushes (timeout_fires h true (handle_all (Call <$> cs) p)) = 1%nat
       /\ disk (timeout_fires h true (handle_all (Call <$> cs) p))
          = Intact [("a", [("k", JNum 2)])].
Proof.
  intros p cs.
  assert (Hc : consistent p) by by apply (consistent_construct None None true true []).
  destruct (burst_is_one_write p cs Hc) as (H1 & _ & _ & _ & H5).
  split; [exact H1|].
  destruct (H5 eq_refl) as (h & Hp & Hf & Hd & _).
  exists h. split; [exact Hp|]. split; [exact Hf|]. rewrite Hd.
  vm_compute. reflexivity.
Defined.

End DBManagerFacts.

(** ** The semaphore *)

Module SemaphoreFacts.
Import Semaphore.

(** [release()] wakes the caller at the head of the queue and nobody
    else. *)
Lemma release_wakes_head s :
  (release s).1 = head (queue s) /\ queue (release s).2 = tail (queue s).
Proof. unfold release. by destruct (queue s). Qed.

(** A suspended caller joins the queue at its end. *)
Lemma acquire_suspends_at_end w s :
  limit s <= active s -> acquire w s = (Suspended, {| limit := limit s; active := active s; queue := queue s ++ [w] |}).
Proof. intros Hfull. unfold acquire. by rewrite (proj2 (Z.ltb_ge _ _) Hfull). Qed.

Lemma step_fifo e x :
  suspended_log x = woken_log x ++ queue (sem x) ->
  suspended_log (step e x) = woken_log (step e x) ++ queue (sem (step e x)).
Proof.
  intros Hinv. destruct e as [w|w|]; simpl.
  - unfold acquire. destruct (active (sem x) <? limit (sem x)); simpl; [done|].
    by rewrite Hinv, app_assoc.
  - unfold release. destruct (queue (sem x)) as [|w' q] eqn:Eq; simpl.
    + by rewrite Hinv, ?Eq.
    + rewrite Hinv, ?Eq. by rewrite <- ?app_assoc.
  - destruct (woken x); simpl; done.
Qed.

(** Waiters are woken in the order in which they were suspended: at every
    point of every run, the callers suspended so far are those woken so
    far followed by the queue. *)
Lemma wakeups_fifo es x :
  suspended_log x = woken_log x ++ queue (sem x) ->
  suspended_log (run es x) = woken_log (run es x) ++ queue (sem (run es x)).
Proof.
  revert x. induction es as [|e es IH]; intros x Hinv; [done|].
  simpl. apply IH. by apply step_fifo.
Qed.

Lemma wakeups_fifo_init es lim :
  suspended_log (run es (init lim)) =
  woken_log (run es (init lim)) ++ queue (sem (run es (init lim))).
Proof. by apply wakeups_fifo. Qed.

Lemma step_bound e x :
  in_order e x = true ->
  0 <= active (sem x) ->
  active (sem x) + Z.of_nat (length (woken x)) <= limit (sem x) ->
  0 <= active (sem (step e x))
  /\ active (sem (step e x)) + Z.of_nat (length (woken (step e x)))
     <= limit (sem (step e x)).
Proof.
  intros Hord H0 Hb. destruct e as [w|w|]; simpl in *.
  - destruct (woken x) eqn:Ew; [|done]. unfold acquire.
    destruct (Z.ltb_spec (active (sem x)) (limit (sem x))); simpl; rewrite ?Ew; simpl in *; lia.
  - apply Z.leb_le in Hord. unfold release.
    destruct (queue (sem x)); simpl; rewrite ?length_app; simpl; lia.
  - destruct (woken x) eqn:Ew; simpl; [rewrite Ew; simpl; lia|].
    simpl in Hb. lia.
Qed.

(** Under the discipline the counter never exceeds the limit. *)
Lemma disciplined_bound es x :
  disciplined es x = true ->
  0 <= active (sem x) ->
  active (sem x) + Z.of_nat (length (woken x)) <= limit (sem x) ->
  active (sem (run es x)) <= limit (sem (run es x)).
Proof.
  revert x. induction es as [|e es IH]; intros x Hd H0 Hb; simpl in *.
  - lia.
  - apply andb_true_iff in Hd as [He Hd].
    destruct (step_bound e x He H0 Hb) as [H0' Hb'].
    by apply IH.
Qed.

(** C5 fails on the code: with limit 1, caller 1 holds the slot and caller
    2 waits; caller 1 releases, which resets the counter and wakes caller
    2, whose continuation has not run yet when caller 3 calls [acquire()]
    and is admitted at once; when caller 2 resumes the counter is 2 and
    callers 3 and 2 both hold the single slot.  Caller 2 was the head of
    the queue, so the wake-up order itself is first in, first out. *)
Theorem semaphore_overshoot :
  let x := run [Acquire 1; Acquire 2; Release 1; Acquire 3; Resume]%nat (init 1) in
  limit (sem x) = 1
  /\ active (sem x) = 2
  /\ holders x = [3; 2]%nat
  /\ woken_log x = [2]%nat
  /\ ~ (Z.of_nat (length (holders x)) <= limit (sem x)).
Proof. vm_compute. repeat split; try reflexivity. intros H. by apply H. Qed.

(** *** Every run of the semaphore *)

Lemma step_counter e x :
  0 <= active (sem x) ->
  0 <= active (sem (step e x)) /\ limit (sem (step e x)) = limit (sem x).
Proof.
  intros H0. destruct e as [w|w|]; simpl.
  - unfold acquire. destruct (active (sem x) <? limit (sem x)); simpl; lia.
  - unfold release. destruct (queue (sem x)); simpl; lia.
  - destruct (woken x); simpl; lia.
Qed.

Lemma run_counter es : forall x,
  0 <= active (sem x) ->
  0 <= active (sem (run es x)) /\ limit (sem (run es x)) = limit (sem x).
Proof.
  induction es as [|e es IH]; intros x H0; [done|]. simpl.
  destruct (step_counter e x H0) as [H1 H2].
  destruct (IH (step e x) H1) as [H3 H4]. split; [done|congruence].
Qed.

(** X22: the semaphore wakes its waiters first in, first out.  At every
    point of every run of a semaphore (whatever its clients do), the
    callers suspended so far are exactly the callers woken so far, in the
    same order, followed by the callers still queued; the counter is never
    negative and the limit never changes. *)
Theorem waiters_wake_in_order (es : list event) (lim : Z) :
  suspended_log (run es (init lim))
  = woken_log (run es (init lim)) ++ queue (sem (run es (init lim)))
  /\ 0 <= active (sem (run es (init lim)))
  /\ limit (sem (run es (init lim))) = lim.
Proof.
  split; [by apply wakeups_fifo|]. by apply (run_counter es (init lim)).
Qed.

Lemma disciplined_run_bound es : forall x,
  disciplined es x = true ->
  0 <= active (sem x) ->
  active (sem x) + Z.of_nat (length (woken x)) <= limit (sem x) ->
  active (sem (run es x)) + Z.of_nat (length (woken (run es x))) <= limit (sem (run es x)).
Proof.
  induction es as [|e es IH]; intros x Hd H0 Hb; simpl in *; [done|].
  apply andb_true_iff in Hd as [He Hd].
  destruct (step_bound e x He H0 Hb) as [H0' Hb'].
  by apply IH.
Qed.

(** X23: under the hand-off discipline the limit is a bound.  When every
    [release()] gives back a counted slot and nobody calls [acquire()]
    between a [release()] that woke a waiter and the run of that waiter's
    continuation, then at every point of the run the counter plus the
    waiters already woken but not yet resumed stays within the limit. *)
Theorem limit_holds_under_discipline (es : list event) (lim : Z) :
  0 <= lim ->
  disciplined es (init lim) = true ->
  let x := run es (init lim) in
  0 <= active (sem x)
  /\ active (sem x) + Z.of_nat (length (woken x)) <= lim.
Proof.
  intros Hlim Hd x. split; [by apply (run_counter es (init lim))|].
  pose proof (disciplined_run_bound es (init lim) Hd) as Hb.
  destruct (run_counter es (init lim)) as [_ Hl]; [done|].
  fold x in Hb, Hl. rewrite Hl in Hb. simpl in Hb. apply Hb; simpl; lia.
Qed.

Lemma limit_holds_under_discipline_witness :
  let x := run [Acquire 1; Acquire 2; Release 1; Resume; Acquire 3]%nat (init 1) in
  0 <= active (sem x) /\ active (sem x) + Z.of_nat (length (woken x)) <= 1.
Proof.
  apply (limit_holds_under_discipline
           [Acquire 1; Acquire 2; Release 1; Resume; Acquire 3]%nat 1);
    [lia|reflexivity].
Defined.

End SemaphoreFacts.

(** ** The session manager *)

Module SessionManagerFacts.
Import SessionManager.

Lemma get_entry_Some sid st l e :
  get_entry sid st = Some (l, e) <->
  map_get (sessions st) sid = Some l /\ entries st !! l = Some e.
Proof.
  unfold get_entry. destruct (map_get (sessions st) sid) as [l'|].
  - destruct (entries st !! l') as [e'|] eqn:E.
    + split; [intros [= <- <-]; done|]. intros [[= ->] He]. by rewrite E in He; injection He as ->.
    + split; [done|]. intros [[= ->] He]. by rewrite E in He.
  - split; [done|]. by intros [? _].
Qed.

Lemma register_present sid st :
  is_Some (map_get (sessions st) sid) -> register sid st = st.
Proof. intros [l Hl]. unfold register, map_has. by rewrite Hl. Qed.

(** The running check of [start]: when the entry of the id holds a
    socket, [start(id)] returns that socket and changes nothing: no slot
    is taken, the factory is not called and no socket is created, however
    often and by whomever it is called. The check reads [entry.sock] only,
    so it says nothing about a start that is still on its way (see
    [racing_starts_open_two_connections]). *)
Lemma start_while_running (st : t) (who : caller) (sid : string)
    (l : loc) (e : entry) (c : conn) (n : nat) :
  get_entry sid st = Some (l, e) ->
  sock e = Some c ->
  start who sid st = (Done (Returned c), st)
  /\ start_repeat n who sid st = (replicate n (Done (Returned c)), st)
  /\ factory_calls (start_repeat n who sid st).2 = factory_calls st
  /\ sockets (start_repeat n who sid st).2 = sockets st
  /\ get_entry sid (start_repeat n who sid st).2 = Some (l, e).
Proof.
  intros Hget Hsock.
  assert (Hstart : start who sid st = (Done (Returned c), st)).
  { unfold start. rewrite register_present.
    - by rewrite Hget, Hsock.
    - apply get_entry_Some in Hget as [-> _]. eauto. }
  assert (Hrep : start_repeat n who sid st = (replicate n (Done (Returned c)), st)).
  { induction n as [|n IH]; simpl; [done|]. by rewrite Hstart, IH. }
  rewrite Hrep. done.
Qed.

Lemma start_while_running_witness :
  let st := run [CallRegister "s"; CallStart "s"; RunMicrotask;
                 FactoryResolves 0; DelayElapsed 0] (new no_options) in
  start External "s" st = (Done (Returned 0%nat), st)
  /\ factory_calls (start_repeat 3 External "s" st).2 = ["s"].
Proof.
  intros st.
  assert (Hget : get_entry "s" st
                 = Some (0%nat, {| sock := Some 0%nat; backoffMs := 1000;
                                   restarting := false; status := connected |})).
  { reflexivity. }
  destruct (start_while_running st External "s" _ _ 0%nat 3 Hget eq_refl)
    as (Hstart & _ & Hcalls & _).
  split; [exact Hstart|exact Hcalls].
Defined.

(** C2 fails on the code: [start] is not idempotent when calls race. The
    running check
    ([if (entry.sock) return entry.sock]) does not cover a start that is
    on its way: two calls [start("s")] made before the first one has its
    socket both pass the check and both call the factory. Once the first
    factory call resolves the session is running on connection 0 and a
    further [start("s")] returns connection 0; once the second resolves
    the entry holds connection 1, a further [start("s")] returns
    connection 1, and both connections are open for the one id; the two
    racing calls resolve to different connections. With [concurrency: 1]
    the second call waits for the slot while the first connects, and
    calls the factory after the release although the session is running
    by then. *)
Theorem racing_starts_open_two_connections :
  let st0 := run [CallRegister "s"; CallStart "s"; CallStart "s";
                  RunMicrotask; RunMicrotask] (new no_options) in
  let st1 := run [FactoryResolves 0] st0 in
  let st2 := run [FactoryResolves 1] st1 in
  let st3 := run [DelayElapsed 0; DelayElapsed 1] st2 in
  let one := {| opt_concurrency := Some 1%nat; opt_startDelayMs := None;
                opt_defaultBackoff := None; opt_maxBackoff := None |} in
  let sq0 := run [CallRegister "s"; CallStart "s"; CallStart "s";
                  RunMicrotask; FactoryResolves 0] (new one) in
  let sq1 := run [DelayElapsed 0; RunMicrotask] sq0 in
  let sq2 := run [FactoryResolves 1; DelayElapsed 1] sq1 in
  (factory_calls st0 = ["s"; "s"]
   /\ isRunning "s" st1 = true
   /\ (start External "s" st1).1 = Done (Returned 0%nat)
   /\ isRunning "s" st2 = true
   /\ (start External "s" st2).1 = Done (Returned 1%nat)
   /\ sockets st2 = [(0%nat, "s"); (1%nat, "s")]
   /\ phase_of 0 st3 = Some (Settled (Returned 0%nat))
   /\ phase_of 1 st3 = Some (Settled (Returned 1%nat)))
  /\ (isRunning "s" sq0 = true
      /\ factory_calls sq0 = ["s"]
      /\ factory_calls sq1 = ["s"; "s"]
      /\ sockets sq2 = [(0%nat, "s"); (1%nat, "s")]
      /\ phase_of 0 sq2 = Some (Settled (Returned 0%nat))
      /\ phase_of 1 sq2 = Some (Settled (Returned 1%nat))).
Proof. split; repeat split; reflexivity. Qed.


Lemma register_get_entry sid st :
  registry_ok st ->
  exists l e, get_entry sid (register sid st) = Some (l, e)
              /\ (isRunning sid st = false -> sock e = None).
Proof.
  intros Hok. unfold register, map_has, isRunning, get_entry.
  destruct (map_get (sessions st) sid) as [l|] eqn:Hs.
  - rewrite Hs. destruct (Hok _ _ Hs) as [e He]. rewrite He.
    exists l, e. split; [done|]. by destruct (sock e).
  - simpl. rewrite map_get_set_eq, lookup_insert_eq. eauto.
Qed.

Lemma register_other_fields sid st :
  semaphore (register sid st) = semaphore st
  /\ microtasks (register sid st) = microtasks st
  /\ timers (register sid st) = timers st
  /\ cfg (register sid st) = cfg st.
Proof. unfold register. by destruct (map_has (sessions st) sid). Qed.

Lemma start_failing_registered st sid l e :
  get_entry sid st = Some (l, e) -> sock e = None -> slot_free st ->
  let k := next_tid st in
  let st' := run [CallStart sid; RunMicrotask; FactoryRejects k; DelayElapsed k] st in
  (start External sid st).1 = Pending k
  /\ phase_of k st' = Some (Settled (Threw FactoryError))
  /\ semaphore st' = semaphore st
  /\ get_entry sid st'
     = Some (l, {| sock := None; backoffMs := backoffMs e;
                   restarting := restarting e; status := starting |}).
Proof.
  intros Hget Hsock (Hm & Hq & Ha0 & Ha).
  assert (Hreg : register sid st = st).
  { apply register_present. apply get_entry_Some in Hget as [-> _]. eauto. }
  apply get_entry_Some in Hget as [Hs He].
  destruct st as [c E nl S [L a q] T k M TM F X R]. simpl in *. subst M q.
  unfold start. rewrite Hreg. unfold get_entry. simpl. rewrite Hs, He, Hsock.
  unfold Semaphore.acquire. simpl.
  rewrite (proj2 (Z.ltb_lt _ _) Ha). simpl.
  unfold run_microtask. simpl. unfold start_acquired. simpl.
  rewrite lookup_insert_eq. simpl.
  unfold factory_rejects. simpl. rewrite lookup_alter_eq, lookup_insert_eq. simpl.
  unfold delay_elapsed. simpl. rewrite !lookup_alter_eq, lookup_insert_eq. simpl.
  unfold phase_of, get_entry. simpl.
  rewrite !lookup_alter_eq, lookup_insert_eq, Hs. simpl.
  rewrite lookup_alter_eq, He. simpl. rewrite Hsock.
  replace (0 `max` (a + 1 - 1)) with a by lia. done.
Qed.

Lemma register_idem sid st : register sid (register sid st) = register sid st.
Proof.
  apply register_present. unfold register, map_has.
  destruct (map_get (sessions st) sid) as [l|] eqn:Hs.
  - rewrite Hs. eauto.
  - simpl. rewrite map_get_set_eq. eauto.
Qed.

Lemma start_register who sid st :
  start who sid st = start who sid (register sid st).
Proof. unfold start. by rewrite register_idem. Qed.

Lemma map_get_elem_of {K V} `{EqDecision K} (m : list (K * V)) k v :
  map_get m k = Some v -> (k, v) ∈ m.
Proof.
  induction m as [|[k0 v0] m IH]; simpl; [done|].
  case_decide; subst.
  - intros [= ->]. apply list_elem_of_here.
  - intros ?. apply list_elem_of_further. by apply IH.
Qed.

Lemma list_sessions_entry sid st l e :
  get_entry sid st = Some (l, e) ->
  (sid, status e, backoffMs e) ∈ list_sessions st.
Proof.
  intros [Hs He]%get_entry_Some. unfold list_sessions.
  apply list_elem_of_omap. exists (sid, l). split.
  - by apply map_get_elem_of.
  - by rewrite He.
Qed.

(** C9: when the factory call inside [start(id)] throws, the error reaches
    the caller of [start] and the slot taken is released, while the entry
    keeps status ['starting'] and no socket: [list()] reports ['starting']
    and [isRunning(id)] is false. *)
Theorem start_factory_failure (st : t) (sid : string) :
  registry_ok st ->
  slot_free st ->
  isRunning sid st = false ->
  (start External sid st).1 = Pending (next_tid (register sid st))
  /\ phase_of (next_tid (register sid st)) (start_failing sid st)
     = Some (Settled (Threw FactoryError))
  /\ semaphore (start_failing sid st) = semaphore st
  /\ (exists l e, get_entry sid (start_failing sid st) = Some (l, e)
                  /\ status e = starting /\ sock e = None)
  /\ isRunning sid (start_failing sid st) = false
  /\ (exists b, (sid, starting, b) ∈ list_sessions (start_failing sid st)).
Proof.
  intros Hok Hfree Hnot.
  destruct (register_get_entry sid st Hok) as (l & e & Hget & Hsock).
  specialize (Hsock Hnot).
  destruct (register_other_fields sid st) as (Hsem & Hmt & _ & _).
  assert (Hfree1 : slot_free (register sid st)).
  { unfold slot_free in *. by rewrite Hsem, Hmt. }
  destruct (start_failing_registered _ _ _ _ Hget Hsock Hfree1)
    as (Hp & Hphase & Hs & Hentry).
  assert (Hrun : start_failing sid st
                 = run [CallStart sid; RunMicrotask;
                        FactoryRejects (next_tid (register sid st));
                        DelayElapsed (next_tid (register sid st))]
                       (register sid st)).
  { unfold start_failing, run. simpl. by rewrite start_register. }
  rewrite Hrun, start_register.
  split; [done|]. split; [done|]. split; [by rewrite Hs|].
  split; [eauto|]. split.
  - unfold isRunning. by rewrite Hentry.
  - eexists. apply (list_sessions_entry _ _ _ _ Hentry).
Qed.

Lemma start_factory_failure_witness :
  let st := register "s" (new no_options) in
  list_sessions (start_failing "s" st) = [("s", starting, 1000)]
  /\ isRunning "s" (start_failing "s" st) = false
  /\ semaphore (start_failing "s" st) = semaphore st.
Proof.
  intros st.
  assert (Hok : registry_ok st).
  { intros sid l. unfold st. simpl. case_decide; [|done].
    intros [= <-]. by eexists. }
  assert (Hfree : slot_free st).
  { unfold slot_free, st. simpl. repeat split; lia. }
  destruct (start_factory_failure st "s" Hok Hfree eq_refl)
    as (_ & _ & Hsem & _ & Hrun & _).
  split; [reflexivity|]. split; [exact Hrun|exact Hsem].
Defined.

(** *** Reconnect backoff *)

Lemma failed_round_spec sid b st :
  idle sid b st -> b <> 0 ->
  reconnect_log (failed_round sid st) = reconnect_log st ++ [(sid, b)]
  /\ idle sid (Z.min (b * 2) (maxBackoff (cfg st))) (failed_round sid st)
  /\ cfg (failed_round sid st) = cfg st.
Proof.
  intros ((l & e & Hget & Hr & Hb) & Ht & Hm & Hq & Ha0 & Ha) Hb0.
  apply get_entry_Some in Hget as [Hs He].
  destruct st as [c E nl S [L a q] T k M TM F X R]. simpl in *. subst M q TM.
  unfold failed_round, _handleConnectionUpdate, get_entry. simpl.
  rewrite Hs, He. simpl. rewrite Hr. simpl.
  unfold timer_fires. simpl.
  unfold start, register, map_has, get_entry. simpl. rewrite Hs. simpl.
  rewrite Hs, !lookup_alter_eq, He. simpl.
  unfold Semaphore.acquire. simpl. rewrite (proj2 (Z.ltb_lt _ _) Ha). simpl.
  unfold run_microtask. simpl. unfold start_acquired. simpl.
  rewrite lookup_insert_eq. simpl.
  unfold factory_rejects. simpl. rewrite lookup_alter_eq, lookup_insert_eq. simpl.
  unfold delay_elapsed. simpl. rewrite !lookup_alter_eq, lookup_insert_eq. simpl.
  unfold idle, slot_free, get_entry. simpl. rewrite Hs.
  rewrite !lookup_alter_eq, He. simpl.
  unfold or_default. rewrite (proj2 (Z.eqb_neq _ _)) by (by rewrite Hb).
  rewrite Hb. split; [done|]. split; [|done].
  split; [eauto 10|]. split; [done|]. split; [done|]. split; [done|]. lia.
Qed.

Lemma backoff_double b cap i :
  0 < b -> 0 < cap -> 0 <= i ->
  Z.min (Z.min (b * 2) cap * 2 ^ i) cap = Z.min (b * 2 ^ (i + 1)) cap.
Proof.
  intros Hb Hc Hi. rewrite Z.pow_add_r by lia. change (2 ^ 1) with 2.
  assert (1 <= 2 ^ i) by (apply (Z.pow_le_mono_r 2 0 i); lia).
  destruct (Z.le_gt_cases (b * 2) cap).
  - rewrite (Z.min_l (b * 2) cap) by done. f_equal. lia.
  - rewrite (Z.min_r (b * 2) cap) by lia.
    rewrite !Z.min_r by nia. done.
Qed.

Lemma failed_rounds_spec sid n : forall st b,
  idle sid b st -> 0 < b <= maxBackoff (cfg st) ->
  reconnect_log (failed_rounds n sid st)
  = reconnect_log st
    ++ ((fun i => (sid, Z.min (b * 2 ^ Z.of_nat i) (maxBackoff (cfg st)))) <$> seq 0 n)
  /\ idle sid (Z.min (b * 2 ^ Z.of_nat n) (maxBackoff (cfg st))) (failed_rounds n sid st)
  /\ cfg (failed_rounds n sid st) = cfg st.
Proof.
  induction n as [|n IH]; intros st b Hidle Hb.
  - cbn [failed_rounds seq fmap list_fmap]. change (2 ^ Z.of_nat 0) with 1.
    rewrite app_nil_r, Z.mul_1_r, Z.min_l by lia. done.
  - destruct (failed_round_spec sid b st Hidle) as (Hlog & Hidle' & Hcfg); [lia|].
    cbn [failed_rounds].
    destruct (IH (failed_round sid st) _ Hidle') as (Hlog2 & Hidle2 & Hcfg2).
    { rewrite Hcfg. lia. }
    rewrite Hcfg in *. rewrite Hlog2, Hcfg2, Hlog. split; [|split; [|done]].
    + rewrite <- app_assoc. f_equal. cbn [seq fmap list_fmap app].
      change (2 ^ Z.of_nat 0) with 1.
      rewrite Z.mul_1_r, (Z.min_l b) by lia. f_equal.
      rewrite <- fmap_S_seq, <- list_fmap_compose.
      apply list_fmap_ext. intros _ i _. simpl. f_equal.
      rewrite backoff_double by lia. f_equal. f_equal. f_equal. lia.
    + rewrite backoff_double in Hidle2 by lia.
      replace (Z.of_nat (S n)) with (Z.of_nat n + 1) by lia. done.
Qed.

Lemma open_resets_backoff sid st l e :
  get_entry sid st = Some (l, e) ->
  get_entry sid (_handleConnectionUpdate sid open_update st)
  = Some (l, {| sock := sock e; backoffMs := defaultBackoff (cfg st);
                restarting := false; status := connected |}).
Proof.
  intros Hget. unfold _handleConnectionUpdate. rewrite Hget. simpl.
  apply get_entry_Some in Hget as [Hs He].
  apply get_entry_Some. simpl. split; [apply map_get_set_eq|].
  by rewrite lookup_alter_eq, He.
Qed.

(** A socket returned by the factory resets the stored backoff as well. *)
Lemma start_success_resets_backoff k st tk e :
  tasks st !! k = Some tk -> t_phase tk = AwaitFactory ->
  entries st !! t_entry tk = Some e ->
  entries (factory_resolves k st) !! t_entry tk
  = Some {| sock := Some (length (sockets st));
            backoffMs := defaultBackoff (cfg st);
            restarting := false; status := connected |}.
Proof.
  intros Hk Hp He. unfold factory_resolves. rewrite Hk, Hp. simpl.
  by rewrite lookup_alter_eq, He.
Qed.

(** C4, as amended: starting from the base backoff, when every reconnect
    attempt fails, the delay scheduled at the [n]-th consecutive transient
    close is [min(base * 2^(n-1), cap)] (the first delay is the base
    itself), and the backoff stored once that reconnect has fired is
    [min(base * 2^n, cap)]; an ['open'] event resets the stored backoff to
    the base. *)
Theorem reconnect_backoff (st : t) (sid : string) (n : nat) :
  idle sid (defaultBackoff (cfg st)) st ->
  0 < defaultBackoff (cfg st) <= maxBackoff (cfg st) ->
  (1 <= n)%nat ->
  reconnect_log (failed_rounds n sid st)
  = reconnect_log st
    ++ ((fun i => (sid, Z.min (defaultBackoff (cfg st) * 2 ^ Z.of_nat i)
                          (maxBackoff (cfg st)))) <$> seq 0 n)
  /\ last (reconnect_log (failed_rounds n sid st))
     = Some (sid, Z.min (defaultBackoff (cfg st) * 2 ^ (Z.of_nat n - 1))
                        (maxBackoff (cfg st)))
  /\ idle sid (Z.min (defaultBackoff (cfg st) * 2 ^ Z.of_nat n) (maxBackoff (cfg st)))
       (failed_rounds n sid st)
  /\ (exists l e,
        get_entry sid
          (_handleConnectionUpdate sid open_update (failed_rounds n sid st))
        = Some (l, e)
        /\ backoffMs e = defaultBackoff (cfg st)).
Proof.
  intros Hidle Hb Hn.
  destruct (failed_rounds_spec sid n st _ Hidle Hb) as (Hlog & Hidle' & Hcfg).
  split; [done|]. split; [|split; [done|]].
  - rewrite Hlog. destruct n as [|n]; [lia|].
    rewrite seq_S, fmap_app, app_assoc. cbn [fmap list_fmap].
    rewrite last_snoc.
    replace (Z.of_nat (S n) - 1) with (Z.of_nat (0 + n)) by lia. done.
  - destruct Hidle' as ((l & e & Hget & _) & _).
    eexists _, _. split; [by apply open_resets_backoff|]. simpl. by rewrite Hcfg.
Qed.

Lemma reconnect_backoff_witness :
  let st := run [CallRegister "s"; CallStart "s"; RunMicrotask;
                 FactoryResolves 0; DelayElapsed 0] (new no_options) in
  reconnect_log (failed_rounds 3 "s" st) = [("s", 1000); ("s", 2000); ("s", 4000)]
  /\ last (reconnect_log (failed_rounds 3 "s" st))
     = Some ("s", Z.min (1000 * 2 ^ 2) 60000).
Proof.
  intros st.
  assert (Hidle : idle "s" (defaultBackoff (cfg st)) st).
  { split; [|split; [reflexivity|]].
    - exists 0%nat, {| sock := Some 0%nat; backoffMs := 1000;
                       restarting := false; status := connected |}.
      split; [reflexivity|]. split; reflexivity.
    - split; [reflexivity|]. split; [reflexivity|].
      split; [by vm_compute|reflexivity]. }
  assert (Hb : 0 < defaultBackoff (cfg st) <= maxBackoff (cfg st)).
  { split; [reflexivity|by vm_compute]. }
  assert (Hn : (1 <= 3)%nat) by lia.
  destruct (reconnect_backoff st "s" 3 Hidle Hb Hn) as (Hlog & Hlast & _).
  split; [exact Hlog|exact Hlast].
Defined.

(** C4 as stated fails: the delay scheduled at the first transient close
    after a successful connection is the base (1000 ms with the default
    options), not [min(base * 2^1, cap)] (2000 ms), and the delay at the
    second consecutive one is 2000 ms, not 4000 ms. *)
Lemma first_reconnect_delay_is_base :
  let st := run [CallRegister "s"; CallStart "s"; RunMicrotask;
                 FactoryResolves 0; DelayElapsed 0;
                 ConnectionUpdate "s" open_update] (new no_options) in
  reconnect_log (failed_rounds 1 "s" st) = [("s", 1000)]
  /\ Z.min (defaultBackoff (cfg st) * 2 ^ 1) (maxBackoff (cfg st)) = 2000
  /\ reconnect_log (failed_rounds 2 "s" st) = [("s", 1000); ("s", 2000)]
  /\ Z.min (defaultBackoff (cfg st) * 2 ^ 2) (maxBackoff (cfg st)) = 4000.
Proof. repeat split; reflexivity. Qed.

(** When the reconnect attempts get a socket, [start] resets the stored
    backoff each time and every delay is the base. *)
Example reconnects_that_succeed_keep_base_delay :
  let st := run [CallRegister "s"; CallStart "s"; RunMicrotask;
                 FactoryResolves 0; DelayElapsed 0;
                 ConnectionUpdate "s" transient_close; TimerFires 0;
                 RunMicrotask; FactoryResolves 1; DelayElapsed 1;
                 ConnectionUpdate "s" transient_close; TimerFires 0;
                 RunMicrotask; FactoryResolves 2; DelayElapsed 2;
                 ConnectionUpdate "s" transient_close] (new no_options) in
  reconnect_log st = [("s", 1000); ("s", 1000); ("s", 1000)].
Proof. reflexivity. Qed.

(** *** Logout with a reconnect pending *)

(** C6 fails on the code: session "s" is running, a transient close
    schedules a reconnect, and [logout("s")] removes the entry while the
    timer is pending.  When the timer fires, [start("s")] registers the id
    again with a new entry and calls the factory, and the session ends up
    running on a second socket. *)
Theorem logout_then_timer_revives :
  let st1 := run [CallRegister "s"; CallStart "s"; RunMicrotask;
                  FactoryResolves 0; DelayElapsed 0;
                  ConnectionUpdate "s" transient_close] (new no_options) in
  let st2 := (logout "s" st1).2 in
  let st3 := timer_fires 0 st2 in
  let st4 := run [RunMicrotask; FactoryResolves 1; DelayElapsed 1] st3 in
  timers st1 = [{| tm_sid := "s"; tm_entry := 0%nat; tm_delay := 1000 |}]
  /\ (logout "s" st1).1 = true
  /\ sessions st2 = []
  /\ sessions st3 = [("s", 1%nat)]
  /\ phase_of 1 st3 = Some AwaitAcquire
  /\ factory_calls st2 = ["s"]
  /\ factory_calls st4 = ["s"; "s"]
  /\ sockets st4 = [(0%nat, "s"); (1%nat, "s")]
  /\ isRunning "s" st4 = true.
Proof. repeat split; reflexivity. Qed.

(** *** [startAll] *)

Lemma launch_all_length keys : forall ps st,
  length (fold_left (fun '(ps, s) sid =>
                       let '(p, s') := start StartAllTask sid s in (ps ++ [p], s'))
                    keys (ps, st)).1
  = (length ps + length keys)%nat.
Proof.
  induction keys as [|sid keys IH]; intros ps st; simpl; [lia|].
  destruct (start StartAllTask sid st) as [p s']. rewrite IH, length_app. simpl. lia.
Qed.

(** With at least one registered id, the promise of [startAll()] is
    rejected with a TypeError at the first chunk. *)
Lemma startAll_rejects st :
  sessions st <> [] -> concurrency (cfg st) <> O ->
  (startAll st).1 = AllRejected NotAFunction.
Proof.
  intros Hne Hc. unfold startAll.
  pose proof (launch_all_length (map_keys (sessions st)) [] st) as Hlen.
  unfold launch_all.
  destruct (fold_left _ _ _) as [tasks st1]. simpl in Hlen.
  rewrite map_keys_length in Hlen.
  destruct tasks as [|p tasks].
  { destruct (sessions st); [done|simpl in Hlen; lia]. }
  cbn [fst startAll_loop length]. 
  destruct (concurrency (cfg st)) as [|c]; [done|].
  reflexivity.
Qed.

(** C3 fails on the code: with concurrency 2 and ids a, b, c registered,
    [startAll()] calls [start] on all three ids at once while building
    [tasks] (a and b take the two slots and c waits in the semaphore
    queue), and its promise is rejected with a TypeError at the first
    chunk instead of waiting for any batch.  The starts run on: as soon as
    the start of a has released its slot, c gets to its factory call while
    b, of the first batch, has not settled. *)
Theorem startAll_starts_everything_at_once :
  let st0 := run [CallRegister "a"; CallRegister "b"; CallRegister "c"]
               (new {| opt_concurrency := Some 2%nat; opt_startDelayMs := None;
                       opt_defaultBackoff := None; opt_maxBackoff := None |}) in
  let st1 := (startAll st0).2 in
  let st2 := run [RunMicrotask; RunMicrotask; FactoryResolves 0;
                  DelayElapsed 0; RunMicrotask] st1 in
  (startAll st0).1 = AllRejected NotAFunction
  /\ (phase_of 0 st1, phase_of 1 st1, phase_of 2 st1)
     = (Some AwaitAcquire, Some AwaitAcquire, Some AwaitAcquire)
  /\ Semaphore.queue (semaphore st1) = [2%nat]
  /\ phase_of 0 st2 = Some (Settled (Returned 0%nat))
  /\ phase_of 1 st2 = Some AwaitFactory
  /\ phase_of 2 st2 = Some AwaitFactory
  /\ factory_calls st2 = ["a"; "b"; "c"].
Proof. repeat split; reflexivity. Qed.

(** *** Well-formed states *)

Lemma wf_new opts : wf (new opts).
Proof.
  assert (Hno : forall sid l, ~ holds (new opts) sid l).
  { intros sid l [H|[(k & tk & H & _)|(tm & H & _)]]; simpl in H.
    - done.
    - by rewrite lookup_empty in H.
    - by apply elem_of_nil in H. }
  unfold wf. split; [apply NoDup_nil_2|]. split; [|split].
  - intros l. simpl. rewrite lookup_empty. split; [intros [? ?]; done|lia].
  - intros sid l H. by apply Hno in H.
  - intros sid1 sid2 l H. by apply Hno in H.
Qed.

(** A step that allocates nothing and adds no reference keeps the state
    well formed. *)
Lemma wf_mono st st' :
  wf st ->
  NoDup (map_keys (sessions st')) ->
  next_loc st' = next_loc st ->
  (forall l, is_Some (entries st' !! l) <-> is_Some (entries st !! l)) ->
  (forall sid l, holds st' sid l -> holds st sid l) ->
  wf st'.
Proof.
  intros (Hnd & Hdom & Halloc & Hown) Hnd' Hn He Hsub.
  unfold wf. rewrite Hn. split; [done|]. split; [intros l; by rewrite He|]. split.
  - intros sid l H%Hsub. by eapply Halloc.
  - intros sid1 sid2 l H1%Hsub H2%Hsub. by eapply Hown.
Qed.

Lemma holds_registry st sid l : map_get (sessions st) sid = Some l -> holds st sid l.
Proof. by left. Qed.

Lemma holds_task st k tk :
  tasks st !! k = Some tk -> holds st (t_sid tk) (t_entry tk).
Proof. intros Hk. right; left. exists k, tk. eauto. Qed.

Lemma holds_timer st tm : tm ∈ timers st -> holds st (tm_sid tm) (tm_entry tm).
Proof. intros Hin. right; right. exists tm. eauto. Qed.

Lemma wf_update_entry l f st : wf st -> wf (update_entry l f st).
Proof.
  intros Hwf. apply (wf_mono st); try done; [apply Hwf|].
  intros l'. simpl. by rewrite lookup_alter_is_Some.
Qed.

Lemma holds_set_phase k p st sid l :
  holds (set_phase k p st) sid l -> holds st sid l.
Proof.
  intros [H|[(k' & tk' & Hk' & Hsid & Hl)|H]]; [by left| |by right; right].
  right; left. simpl in Hk'. destruct (decide (k = k')) as [->|Hne].
  - rewrite lookup_alter_eq in Hk'.
    destruct (tasks st !! k') as [tk0|] eqn:E; [|done].
    simpl in Hk'. injection Hk' as <-. exists k', tk0. eauto.
  - rewrite lookup_alter_ne in Hk' by done. exists k', tk'. eauto.
Qed.

Lemma wf_set_phase k p st : wf st -> wf (set_phase k p st).
Proof.
  intros Hwf. apply (wf_mono st); try done; [apply Hwf|apply holds_set_phase].
Qed.

Lemma wf_set_semaphore s st : wf st -> wf (set_semaphore s st).
Proof. intros Hwf. apply (wf_mono st); try done. apply Hwf. Qed.

Lemma wf_set_microtasks f st : wf st -> wf (set_microtasks f st).
Proof. intros Hwf. apply (wf_mono st); try done. apply Hwf. Qed.

Lemma wf_set_sessions_delete sid st :
  wf st -> wf (set_sessions (fun m => map_delete m sid) st).
Proof.
  intros Hwf. pose proof Hwf as (Hnd & _).
  apply (wf_mono st); try done; [by apply map_keys_NoDup_delete|].
  intros sid' l [H|H]; [|by right]. simpl in H.
  apply map_get_delete_Some in H as [_ H]; [by left|done].
Qed.

(** Writing an entry back under the id it is held for. *)
Lemma wf_set_sessions_set sid l st :
  wf st -> holds st sid l -> wf (set_sessions (fun m => map_set m sid l) st).
Proof.
  intros Hwf Hheld. pose proof Hwf as (Hnd & _).
  apply (wf_mono st); try done; [by apply map_keys_NoDup_set|].
  intros sid' l' [H|H]; [|by right]. simpl in H.
  apply map_get_set_Some in H as [[<- <-]|[_ H]]; [done|by left].
Qed.

Lemma wf_register sid st : wf st -> wf (register sid st).
Proof.
  intros Hwf. unfold register. destruct (map_has (sessions st) sid) eqn:Eh; [done|].
  destruct Hwf as (Hnd & Hdom & Halloc & Hown).
  assert (Hsub : forall sid' l,
             holds {| cfg := cfg st;
                      entries := <[next_loc st := fresh_entry st]> (entries st);
                      next_loc := S (next_loc st);
                      sessions := map_set (sessions st) sid (next_loc st);
                      semaphore := semaphore st; tasks := tasks st;
                      next_tid := next_tid st; microtasks := microtasks st;
                      timers := timers st; factory_calls := factory_calls st;
                      sockets := sockets st; reconnect_log := reconnect_log st |}
                   sid' l ->
             (sid' = sid /\ l = next_loc st) \/ holds st sid' l).
  { intros sid' l [H|H]; [|by right; right]. simpl in H.
    apply map_get_set_Some in H as [[<- <-]|[_ H]]; [by left|by right; left]. }
  unfold wf. split; [by apply map_keys_NoDup_set|]. split; [|split].
  - intros l. simpl. rewrite lookup_insert_is_Some, Hdom. split.
    + intros [<-|[_ ?]]; lia.
    + intros Hlt. destruct (decide (next_loc st = l)); [by left|].
      right. split; [done|lia].
  - intros sid' l H. apply Hsub in H as [[_ ->]|H]; simpl; [lia|].
    apply Halloc in H. lia.
  - intros sid1 sid2 l H1 H2.
    apply Hsub in H1 as [[-> ->]|H1]; apply Hsub in H2 as [[-> E]|H2]; try done.
    + apply Halloc in H2. lia.
    + subst l. apply Halloc in H1. lia.
    + by eapply Hown.
Qed.

Lemma get_entry_holds sid st l e :
  get_entry sid st = Some (l, e) -> holds st sid l.
Proof. intros [Hs _]%get_entry_Some. by left. Qed.

(** [start] keeps the state well formed when its caller, if it is a
    reconnect timer, holds its entry for the same id. *)
Lemma wf_start who sid st :
  wf st ->
  (forall l, who = ReconnectTimer l -> holds st sid l) ->
  wf (start who sid st).2.
Proof.
  intros Hwf0 Hwho. pose proof (wf_register sid st Hwf0) as Hwf. unfold start.
  destruct (get_entry sid (register sid st)) as [[l e]|] eqn:Hget; [|done].
  destruct (sock e); [done|].
  destruct (Semaphore.acquire _ _) as [a s]. simpl.
  assert (Hreg : forall sid' l', holds st sid' l' -> holds (register sid st) sid' l').
  { intros sid' l' [H|H]; [|right; revert H; unfold register;
                             by destruct (map_has (sessions st) sid)].
    left. unfold register. destruct (map_has (sessions st) sid) eqn:Eh; [done|].
    simpl. apply map_has_false in Eh.
    rewrite map_get_set_ne; [done|]. intros ->. congruence. }
  apply (wf_mono (register sid st)); try done; [apply Hwf|].
  intros sid' l' [H|[(k & tk & Hk & Hsid & Hl)|H]]; [by left| |by right; right].
  simpl in Hk. apply lookup_insert_Some in Hk as [[_ <-]|[_ Hk]].
  - simpl in *. subst sid'. destruct Hl as [ <- | -> ].
    + by eapply get_entry_holds.
    + by apply Hreg, Hwho.
  - right; left. exists k, tk. eauto.
Qed.

Lemma wf_start_acquired k b st : wf st -> wf (start_acquired k b st).
Proof.
  intros Hwf. unfold start_acquired.
  destruct (tasks st !! k) as [tk|]; [|done].
  destruct (t_phase tk); try done.
  match goal with |- wf {| cfg := _; entries := entries ?x; next_loc := _;
                           sessions := _; semaphore := _; tasks := _;
                           next_tid := _; microtasks := _; timers := _;
                           factory_calls := _; sockets := _;
                           reconnect_log := _ |} =>
    assert (Hx : wf x)
  end.
  { apply wf_set_phase, wf_update_entry. destruct b; [by apply wf_set_semaphore|done]. }
  apply (wf_mono _ _ Hx); try done. apply Hx.
Qed.

Lemma wf_run_microtask st : wf st -> wf (run_microtask st).
Proof.
  intros Hwf. unfold run_microtask. destruct (microtasks st) as [|[k b] rest]; [done|].
  by apply wf_start_acquired, wf_set_microtasks.
Qed.

Lemma wf_factory_resolves k st : wf st -> wf (factory_resolves k st).
Proof.
  intros Hwf. unfold factory_resolves.
  destruct (tasks st !! k) as [tk|] eqn:Hk; [|done].
  destruct (t_phase tk); try done.
  match goal with |- wf {| cfg := _; entries := entries ?x; next_loc := _;
                           sessions := _; semaphore := _; tasks := _;
                           next_tid := _; microtasks := _; timers := _;
                           factory_calls := _; sockets := _;
                           reconnect_log := _ |} =>
    assert (Hx : wf x)
  end.
  { apply wf_set_phase, wf_set_sessions_set; [by apply wf_update_entry|].
    by apply (holds_task (update_entry _ _ st) k). }
  apply (wf_mono _ _ Hx); try done. apply Hx.
Qed.

Lemma wf_factory_rejects k st : wf st -> wf (factory_rejects k st).
Proof.
  intros Hwf. unfold factory_rejects.
  destruct (tasks st !! k) as [tk|]; [|done].
  destruct (t_phase tk); try done. by apply wf_set_phase.
Qed.

Lemma wf_settle_caller who r st : wf st -> wf (settle_caller who r st).
Proof.
  intros Hwf. unfold settle_caller. destruct who; try done.
  destruct r; [done|]. by apply wf_update_entry.
Qed.

Lemma wf_delay_elapsed k st : wf st -> wf (delay_elapsed k st).
Proof.
  intros Hwf. unfold delay_elapsed.
  destruct (tasks st !! k) as [tk|]; [|done].
  destruct (t_phase tk); try done.
  destruct (Semaphore.release _) as [w s].
  by apply wf_settle_caller, wf_set_phase, wf_set_microtasks, wf_set_semaphore.
Qed.

(** [this.sessions.set(sessionId, entry)] with the entry just read from
    the registry under [sessionId]. *)
Lemma wf_write_back sid l e f st :
  wf st -> get_entry sid st = Some (l, e) ->
  wf (set_sessions (fun m => map_set m sid l) (update_entry l f st)).
Proof.
  intros Hwf Hget. apply wf_set_sessions_set; [by apply wf_update_entry|].
  apply get_entry_holds in Hget. by destruct Hget as [H|H]; [left|right].
Qed.

Lemma wf_stop sid st : wf st -> wf (stop sid st).2.
Proof.
  intros Hwf. unfold stop.
  destruct (get_entry sid st) as [[l e]|] eqn:Hget; [|done].
  destruct (sock e); [|done]. simpl.
  by eapply wf_write_back.
Qed.

Lemma wf_logout sid st : wf st -> wf (logout sid st).2.
Proof.
  intros Hwf. unfold logout. destruct (get_entry sid st); [|done].
  by apply wf_set_sessions_delete.
Qed.

Lemma wf_unregister sid st : wf st -> wf (unregister sid st).
Proof. apply wf_set_sessions_delete. Qed.

Lemma wf_handleConnectionUpdate sid u st :
  wf st -> wf (_handleConnectionUpdate sid u st).
Proof.
  intros Hwf. unfold _handleConnectionUpdate.
  destruct (get_entry sid st) as [[l e]|] eqn:Hget; [|done].
  destruct (connection u) as [[| |]|]; try done.
  - by eapply wf_write_back.
  - destruct (CloseReason.isLoggedOut _); [by apply wf_set_sessions_delete|].
    destruct (restarting e); [done|].
    match goal with |- wf {| cfg := _; entries := entries ?x; next_loc := _;
                             sessions := _; semaphore := _; tasks := _;
                             next_tid := _; microtasks := _; timers := _;
                             factory_calls := _; sockets := _;
                             reconnect_log := _ |} =>
      assert (Hx : wf x) by (by apply wf_update_entry)
    end.
    apply (wf_mono _ _ Hx); try done; [apply Hx|].
    intros sid' l' [H|[H|(tm & Hin & Hsid & Hl)]]; [by left|by right; left|].
    simpl in Hin. apply elem_of_app in Hin as [Hin| ->%list_elem_of_singleton].
    + right; right. exists tm. eauto.
    + simpl in *. subst. apply get_entry_holds in Hget.
      by destruct Hget as [H|H]; [left|right].
Qed.

Lemma wf_set_timers_delete i st : wf st -> wf (set_timers (delete i) st).
Proof.
  intros Hwf. apply (wf_mono st); try done; [apply Hwf|].
  intros sid l [H|[H|(tm & Hin & Hsid & Hl)]]; [by left|by right; left|].
  simpl in Hin. right; right. exists tm.
  split; [by eapply list_elem_of_delete_inv|done].
Qed.

(** [start] does not look at the pending timers. *)
Lemma start_set_timers f who sid st :
  start who sid (set_timers f st)
  = ((start who sid st).1, set_timers f (start who sid st).2).
Proof.
  unfold start.
  assert (Hreg : register sid (set_timers f st) = set_timers f (register sid st)).
  { unfold register. simpl. by destruct (map_has (sessions st) sid). }
  rewrite Hreg. unfold get_entry. simpl.
  destruct (map_get (sessions (register sid st)) sid) as [l|]; [|done].
  destruct (entries (register sid st) !! l) as [e|]; [|done].
  destruct (sock e); [done|].
  by destruct (Semaphore.acquire _ _).
Qed.

Lemma timer_fires_unfold i st tm :
  timers st !! i = Some tm ->
  timer_fires i st
  = set_timers (delete i)
      (let st2 := update_entry (tm_entry tm)
                    (fun e => {| sock := sock e;
                                 backoffMs :=
                                   Z.min (or_default (backoffMs e)
                                            (defaultBackoff (cfg st)) * 2)
                                         (maxBackoff (cfg st));
                                 restarting := false; status := status e |})
                    st in
       match (start (ReconnectTimer (tm_entry tm)) (tm_sid tm) st2).1 with
       | Done r => settle_caller (ReconnectTimer (tm_entry tm)) r
                     (start (ReconnectTimer (tm_entry tm)) (tm_sid tm) st2).2
       | Pending _ => (start (ReconnectTimer (tm_entry tm)) (tm_sid tm) st2).2
       end).
Proof.
  intros Hi. unfold timer_fires. rewrite Hi.
  change (update_entry (tm_entry tm) ?g (set_timers (delete i) st))
    with (set_timers (delete i) (update_entry (tm_entry tm) g st)).
  rewrite start_set_timers. cbv zeta.
  destruct (start _ _ _) as [[r|k] st3]; simpl; [|done].
  unfold settle_caller. by destruct r.
Qed.

Lemma wf_timer_fires i st : wf st -> wf (timer_fires i st).
Proof.
  intros Hwf. destruct (timers st !! i) as [tm|] eqn:Hi.
  - rewrite (timer_fires_unfold _ _ _ Hi). apply wf_set_timers_delete. cbv zeta.
    match goal with |- context [start ?w ?s ?x] =>
      assert (Hst : wf (start w s x).2)
    end.
    { apply wf_start; [by apply wf_update_entry|].
      intros l [= <-]. right; right. exists tm. simpl.
      split; [by eapply list_elem_of_lookup_2|done]. }
    destruct (start _ _ _).1; [by apply wf_settle_caller|done].
  - unfold timer_fires. by rewrite Hi.
Qed.

Lemma wf_launch_all keys : forall ps st,
  wf st ->
  wf (fold_left (fun '(ps, s) sid =>
                   let '(p, s') := start StartAllTask sid s in (ps ++ [p], s'))
                keys (ps, st)).2.
Proof.
  induction keys as [|sid keys IH]; intros ps st Hwf; simpl; [done|].
  assert (Hst : wf (start StartAllTask sid st).2) by (by apply wf_start).
  destruct (start StartAllTask sid st) as [p s']. by apply IH.
Qed.

Lemma wf_startAll st : wf st -> wf (startAll st).2.
Proof.
  intros Hwf. unfold startAll, launch_all.
  pose proof (wf_launch_all (map_keys (sessions st)) [] st Hwf) as H.
  by destruct (fold_left _ _ _).
Qed.

Lemma wf_step j st : wf st -> wf (step j st).
Proof.
  intros Hwf. destruct j; simpl.
  - by apply wf_register.
  - by apply wf_start.
  - by apply wf_startAll.
  - by apply wf_stop.
  - by apply wf_logout.
  - by apply wf_run_microtask.
  - by apply wf_factory_resolves.
  - by apply wf_factory_rejects.
  - by apply wf_delay_elapsed.
  - by apply wf_handleConnectionUpdate.
  - by apply wf_timer_fires.
Qed.

Lemma wf_run js : forall st, wf st -> wf (run js st).
Proof.
  induction js as [|j js IH]; intros st Hwf; [done|].
  simpl. by apply IH, wf_step.
Qed.

Lemma wf_loadMeta ids : forall st, wf st -> wf (_loadMeta ids st).
Proof.
  unfold _loadMeta. induction ids as [|id ids IH]; intros st Hwf; [done|].
  simpl. by apply IH, wf_register.
Qed.

Lemma wf_run_ops os : forall st, wf st -> wf (run_ops os st).
Proof.
  induction os as [|o os IH]; intros st Hwf; [done|].
  simpl. apply IH. destruct o; simpl.
  - by apply wf_step.
  - by apply wf_loadMeta.
  - by apply wf_unregister.
Qed.

Lemma wf_registry_ok st : wf st -> registry_ok st.
Proof.
  intros (_ & Hdom & Halloc & _) sid l Hget. apply Hdom.
  eapply Halloc. by left.
Qed.

(** X1: every state the manager reaches from its constructor, by any
    sequence of calls, continuations, connection events, timers and
    metadata loads, is well formed: registered ids are unique, every
    registered id has an entry object, and an entry object is only ever
    held (by the registry, an activation of [start] or a reconnect timer)
    for one session id. *)
Theorem reachable_wf (opts : options) (os : list op) :
  wf (run_ops os (new opts))
  /\ NoDup (_persistMeta (run_ops os (new opts)))
  /\ registry_ok (run_ops os (new opts)).
Proof.
  assert (Hwf : wf (run_ops os (new opts))) by apply wf_run_ops, wf_new.
  split; [done|]. split; [apply Hwf|by apply wf_registry_ok].
Qed.

(** *** Introspection *)

Lemma list_sessions_ids_aux (E : gmap loc entry) (ss : list (string * loc)) :
  (forall sid l, (sid, l) ∈ ss -> is_Some (E !! l)) ->
  (omap (fun '(sid, l) =>
           match E !! l with
           | Some e => Some (sid, status e, backoffMs e)
           | None => None
           end) ss).*1.*1 = ss.*1.
Proof.
  induction ss as [|[sid l] ss IH]; intros Hall; [done|].
  csimpl. destruct (Hall sid l) as [e He]; [apply list_elem_of_here|].
  rewrite He. csimpl. f_equal. apply IH.
  intros sid' l' Hin. apply (Hall sid' l'). by apply list_elem_of_further.
Qed.

(** X2: [list()] has exactly one row per registered id, in registration
    order, and the row of an id shows the status and backoff of the entry
    registered under it. *)
Theorem list_rows (st : t) :
  wf st ->
  (list_sessions st).*1.*1 = _persistMeta st
  /\ length (list_sessions st) = length (sessions st)
  /\ (forall sid s b,
        (sid, s, b) ∈ list_sessions st <->
        exists l e, get_entry sid st = Some (l, e)
                    /\ status e = s /\ backoffMs e = b).
Proof.
  intros Hwf. pose proof Hwf as (Hnd & _).
  assert (Hids : (list_sessions st).*1.*1 = _persistMeta st).
  { unfold list_sessions, _persistMeta, map_keys. apply list_sessions_ids_aux.
    intros sid l Hin. eapply wf_registry_ok; [done|]. by apply elem_of_map_get. }
  split; [done|]. split.
  - rewrite <- (length_fmap fst (list_sessions st)).
    rewrite <- (length_fmap fst ((list_sessions st).*1)), Hids.
    apply map_keys_length.
  - intros sid s b. split.
    + unfold list_sessions. intros [[sid' l] [Hin Hrow]]%list_elem_of_omap.
      destruct (entries st !! l) as [e|] eqn:He; [|done].
      injection Hrow as -> <- <-. exists l, e. split; [|done].
      apply get_entry_Some. split; [by apply elem_of_map_get|done].
    + intros (l & e & Hget & <- & <-). by eapply list_sessions_entry.
Qed.

Lemma list_rows_witness :
  let st := run [CallRegister "a"; CallStart "b"; RunMicrotask; CallRegister "c"]
              (new no_options) in
  list_sessions st
  = [("a", stopped, 1000); ("b", starting, 1000); ("c", stopped, 1000)]
  /\ (list_sessions st).*1.*1 = _persistMeta st.
Proof.
  intros st.
  assert (Hwf : wf st) by apply wf_run, wf_new.
  split; [reflexivity|exact (proj1 (list_rows st Hwf))].
Defined.

(** *** Sessions do not interfere *)

Lemma other_loc st sid sid' l l' :
  wf st -> holds st sid l -> sid' <> sid ->
  map_get (sessions st) sid' = Some l' -> l' <> l.
Proof.
  intros (_ & _ & _ & Hown) Hheld Hne Hget ->.
  apply Hne. eapply Hown; [|done]. by left.
Qed.

Lemma get_entry_update_entry_other sid' l f st :
  (forall l', map_get (sessions st) sid' = Some l' -> l' <> l) ->
  get_entry sid' (update_entry l f st) = get_entry sid' st.
Proof.
  intros Hother. unfold get_entry. simpl.
  destruct (map_get (sessions st) sid') as [l'|]; [|done].
  by rewrite lookup_alter_ne by (symmetry; by apply Hother).
Qed.

Lemma get_entry_update_entry sid l e f st :
  get_entry sid st = Some (l, e) ->
  get_entry sid (update_entry l f st) = Some (l, f e).
Proof.
  intros [Hs He]%get_entry_Some. apply get_entry_Some. simpl.
  split; [done|]. by rewrite lookup_alter_eq, He.
Qed.

Lemma get_entry_same st st' sid :
  sessions st' = sessions st -> entries st' = entries st ->
  get_entry sid st' = get_entry sid st.
Proof. intros Hs He. unfold get_entry. by rewrite Hs, He. Qed.

Lemma get_entry_sessions_set_other sid sid' l st :
  sid' <> sid ->
  get_entry sid' (set_sessions (fun m => map_set m sid l) st) = get_entry sid' st.
Proof. intros Hne. unfold get_entry. simpl. by rewrite map_get_set_ne. Qed.

Lemma get_entry_sessions_delete_other sid sid' st :
  sid' <> sid ->
  get_entry sid' (set_sessions (fun m => map_delete m sid) st) = get_entry sid' st.
Proof. intros Hne. unfold get_entry. simpl. by rewrite map_get_delete_ne. Qed.

Lemma get_entry_sessions_delete sid st :
  wf st -> get_entry sid (set_sessions (fun m => map_delete m sid) st) = None.
Proof.
  intros (Hnd & _). unfold get_entry. simpl. by rewrite map_get_delete_eq.
Qed.

Lemma get_entry_write_back sid l e f st :
  get_entry sid st = Some (l, e) ->
  get_entry sid (set_sessions (fun m => map_set m sid l) (update_entry l f st))
  = Some (l, f e).
Proof.
  intros [Hs He]%get_entry_Some. apply get_entry_Some. simpl.
  split; [apply map_get_set_eq|]. by rewrite lookup_alter_eq, He.
Qed.

Lemma get_entry_None st sid :
  wf st -> (get_entry sid st = None <-> sid ∉ _persistMeta st).
Proof.
  intros Hwf. unfold _persistMeta. rewrite <- map_get_None. unfold get_entry.
  destruct (map_get (sessions st) sid) as [l|] eqn:Hs; [|done].
  destruct (wf_registry_ok st Hwf sid l Hs) as [e ->]. done.
Qed.

Lemma handle_unknown sid u st :
  get_entry sid st = None -> _handleConnectionUpdate sid u st = st.
Proof. intros H. unfold _handleConnectionUpdate. by rewrite H. Qed.

Lemma get_entry_logout_other sid sid' st :
  sid' <> sid -> get_entry sid' (logout sid st).2 = get_entry sid' st.
Proof.
  intros Hne. unfold logout. destruct (get_entry sid st); simpl; [|done].
  by apply get_entry_sessions_delete_other.
Qed.

Lemma get_entry_stop_other sid sid' st :
  wf st -> sid' <> sid -> get_entry sid' (stop sid st).2 = get_entry sid' st.
Proof.
  intros Hwf Hne. unfold stop.
  destruct (get_entry sid st) as [[l e]|] eqn:Hget; [|done].
  destruct (sock e); [|done]. simpl.
  rewrite get_entry_sessions_set_other by done.
  apply get_entry_update_entry_other. intros l' Hl'.
  eapply other_loc; [done| |done|done]. by eapply get_entry_holds.
Qed.

(** X3: [logout(id)] returns whether the id was registered; afterwards the
    id is gone (not running, not listed, not persisted), a second logout
    returns false and changes nothing, connection updates for the id are
    ignored, the entries of the other ids are as before, and pending
    reconnect timers are not cancelled.  A close classified as permanent
    leaves the manager in the same state as [logout]. *)
Theorem logout_terminal (st : t) (sid : string) :
  wf st ->
  ((logout sid st).1 = true <-> sid ∈ _persistMeta st)
  /\ (sid ∉ _persistMeta st -> (logout sid st).2 = st)
  /\ get_entry sid (logout sid st).2 = None
  /\ isRunning sid (logout sid st).2 = false
  /\ (sid ∉ _persistMeta (logout sid st).2)
  /\ logout sid (logout sid st).2 = (false, (logout sid st).2)
  /\ (forall u, _handleConnectionUpdate sid u (logout sid st).2 = (logout sid st).2)
  /\ (forall sid', sid' <> sid ->
        get_entry sid' (logout sid st).2 = get_entry sid' st)
  /\ timers (logout sid st).2 = timers st
  /\ (forall u, permanent u ->
        _handleConnectionUpdate sid u st = (logout sid st).2).
Proof.
  intros Hwf.
  assert (Hgone : get_entry sid (logout sid st).2 = None).
  { unfold logout. destruct (get_entry sid st) eqn:E; simpl; [|done].
    by apply get_entry_sessions_delete. }
  split; [|split; [|split; [done|split; [|split; [|split; [|split; [|split; [|split]]]]]]]].
  - unfold logout. destruct (get_entry sid st) eqn:E; simpl.
    + split; [intros _|done]. destruct (decide (sid ∈ _persistMeta st)); [done|].
      apply get_entry_None in n; [congruence|done].
    + split; [done|]. intros Hin. by apply get_entry_None in E.
  - intros Hout%get_entry_None; [|done]. unfold logout. by rewrite Hout.
  - unfold isRunning. by rewrite Hgone.
  - apply get_entry_None; [by apply wf_logout|done].
  - unfold logout at 1. by rewrite Hgone.
  - intros u. by apply handle_unknown.
  - intros sid' Hne. by apply get_entry_logout_other.
  - unfold logout. by destruct (get_entry sid st).
  - intros u [Hc Hp]. unfold _handleConnectionUpdate, logout.
    destruct (get_entry sid st) as [[l e]|]; [|done]. by rewrite Hc, Hp.
Qed.

Lemma logout_terminal_witness :
  let st := run [CallStart "a"; RunMicrotask; FactoryResolves 0; DelayElapsed 0;
                 CallRegister "b"] (new no_options) in
  (logout "a" st).1 = true
  /\ _persistMeta (logout "a" st).2 = ["b"]
  /\ logout "a" (logout "a" st).2 = (false, (logout "a" st).2).
Proof.
  intros st.
  assert (Hwf : wf st) by apply wf_run, wf_new.
  destruct (logout_terminal st "a" Hwf) as (_ & _ & _ & _ & _ & Htwice & _).
  split; [reflexivity|]. split; [reflexivity|exact Htwice].
Defined.

(** X4: [stop(id)] returns whether the session was running; afterwards
    the session is not running, its entry is ['stopped'] with the same
    backoff and restart guard, the id stays registered at its place, a
    second stop returns false and changes nothing, the entries of the
    other ids are as before, and neither a start in progress nor a pending
    reconnect is cancelled. *)
Theorem stop_keeps_registration (st : t) (sid : string) :
  wf st ->
  (stop sid st).1 = isRunning sid st
  /\ (isRunning sid st = false -> (stop sid st).2 = st)
  /\ (forall l e, get_entry sid st = Some (l, e) -> isRunning sid st = true ->
        get_entry sid (stop sid st).2
        = Some (l, {| sock := None; backoffMs := backoffMs e;
                      restarting := restarting e; status := stopped |}))
  /\ isRunning sid (stop sid st).2 = false
  /\ _persistMeta (stop sid st).2 = _persistMeta st
  /\ stop sid (stop sid st).2 = (false, (stop sid st).2)
  /\ (forall sid', sid' <> sid ->
        get_entry sid' (stop sid st).2 = get_entry sid' st)
  /\ timers (stop sid st).2 = timers st
  /\ tasks (stop sid st).2 = tasks st.
Proof.
  intros Hwf. unfold stop, isRunning.
  destruct (get_entry sid st) as [[l e]|] eqn:Hget; simpl.
  2:{ rewrite Hget. repeat split; try done. }
  destruct (sock e) as [c|] eqn:Hsock; simpl.
  2:{ rewrite Hget, Hsock. repeat split; try done. }
  pose proof (get_entry_write_back sid l e
                (fun e => {| sock := None; backoffMs := backoffMs e;
                             restarting := restarting e; status := stopped |})
                st Hget) as Hafter.
  rewrite Hafter. simpl.
  split; [done|]. split; [done|]. split; [by intros l' e' [= <- <-]|].
  split; [done|]. split; [|split; [done|split; [|done]]].
  - unfold _persistMeta. simpl. apply map_keys_set_present.
    apply get_entry_Some in Hget as [Hs _]. apply map_has_true.
    unfold map_has. by rewrite Hs.
  - intros sid' Hne. rewrite get_entry_sessions_set_other by done.
    apply get_entry_update_entry_other. intros l' Hl'.
    eapply other_loc; [done| |done|done]. by eapply get_entry_holds.
Qed.

Lemma stop_keeps_registration_witness :
  let st := run [CallStart "a"; RunMicrotask; FactoryResolves 0; DelayElapsed 0;
                 CallRegister "b"] (new no_options) in
  (stop "a" st).1 = true
  /\ list_sessions (stop "a" st).2 = [("a", stopped, 1000); ("b", stopped, 1000)]
  /\ stop "a" (stop "a" st).2 = (false, (stop "a" st).2).
Proof.
  intros st.
  assert (Hwf : wf st) by apply wf_run, wf_new.
  destruct (stop_keeps_registration st "a" Hwf) as (_ & _ & _ & _ & _ & Htwice & _).
  split; [reflexivity|]. split; [reflexivity|exact Htwice].
Defined.

(** X5: [stop(id)] does not stop the reconnect machinery: when the socket
    it closed reports a close that is not a logout, the handler finds the
    stopped entry without restart guard, marks it ['reconnecting'] and
    schedules a reconnect after the entry's backoff; when that timer
    fires, [start(id)] is called for the stopped session. *)
Theorem stop_then_close_reconnects (st : t) (sid : string) (l : loc)
    (e : entry) (u : update) :
  get_entry sid st = Some (l, e) ->
  isRunning sid st = true ->
  restarting e = false ->
  transient u ->
  timers (_handleConnectionUpdate sid u (stop sid st).2)
  = timers st ++ [{| tm_sid := sid; tm_entry := l;
                     tm_delay := or_default (backoffMs e) (defaultBackoff (cfg st)) |}]
  /\ get_entry sid (_handleConnectionUpdate sid u (stop sid st).2)
     = Some (l, {| sock := None; backoffMs := backoffMs e;
                   restarting := true; status := reconnecting |})
  /\ (tasks (timer_fires (length (timers st))
               (_handleConnectionUpdate sid u (stop sid st).2))
      !! next_tid st)
     = Some {| t_sid := sid; t_entry := l; t_caller := ReconnectTimer l;
               t_phase := AwaitAcquire |}.
Proof.
  intros Hget Hrun Hr [Hc Hp].
  unfold isRunning in Hrun. rewrite Hget in Hrun.
  destruct (sock e) as [c|] eqn:Hsock; [|done].
  apply get_entry_Some in Hget as [Hs He].
  destruct st as [cf E nl S sem T k M TM F X R]. simpl in *.
  unfold stop, get_entry. simpl. rewrite Hs, He, Hsock. simpl.
  unfold _handleConnectionUpdate, get_entry. simpl.
  rewrite map_get_set_eq, lookup_alter_eq, He. simpl. rewrite Hc, Hp, Hr. simpl.
  split; [done|]. split.
  - by rewrite map_get_set_eq, !lookup_alter_eq, He.
  - unfold timer_fires. simpl. rewrite list_lookup_middle by done. simpl.
    unfold start, register, map_has, get_entry. simpl.
    rewrite map_get_set_eq. simpl.
    rewrite map_get_set_eq, !lookup_alter_eq, He. simpl.
    destruct (Semaphore.acquire k sem) as [a s]. simpl.
    by rewrite lookup_insert_eq.
Qed.

Lemma stop_then_close_reconnects_witness :
  let st := run [CallStart "a"; RunMicrotask; FactoryResolves 0; DelayElapsed 0]
              (new no_options) in
  timers (_handleConnectionUpdate "a" transient_close (stop "a" st).2)
  = [{| tm_sid := "a"; tm_entry := 0%nat; tm_delay := 1000 |}].
Proof.
  intros st.
  assert (Hget : get_entry "a" st
                 = Some (0%nat, {| sock := Some 0%nat; backoffMs := 1000;
                                   restarting := false; status := connected |})).
  { reflexivity. }
  assert (Htr : transient transient_close) by (split; reflexivity).
  exact (proj1 (stop_then_close_reconnects st "a" _ _ transient_close
                  Hget eq_refl eq_refl Htr)).
Defined.





Lemma get_entry_register_other sid sid' st :
  wf st -> sid' <> sid -> get_entry sid' (register sid st) = get_entry sid' st.
Proof.
  intros Hwf Hne. unfold register. destruct (map_has (sessions st) sid); [done|].
  unfold get_entry. simpl. rewrite map_get_set_ne by done.
  destruct (map_get (sessions st) sid') as [l'|] eqn:Hs; [|done].
  rewrite lookup_insert_ne; [done|].
  destruct Hwf as (_ & _ & Halloc & _).
  assert (l' < next_loc st)%nat by (eapply Halloc; by left). lia.
Qed.

Lemma start_registry who sid st :
  sessions (start who sid st).2 = sessions (register sid st)
  /\ entries (start who sid st).2 = entries (register sid st).
Proof.
  unfold start. destruct (get_entry sid (register sid st)) as [[l e]|]; [|done].
  destruct (sock e); [done|]. by destruct (Semaphore.acquire _ _).
Qed.

Lemma get_entry_start_other who sid sid' st :
  wf st -> sid' <> sid -> get_entry sid' (start who sid st).2 = get_entry sid' st.
Proof.
  intros Hwf Hne. destruct (start_registry who sid st) as [Hs He].
  rewrite (get_entry_same _ _ _ Hs He). by apply get_entry_register_other.
Qed.

Lemma get_entry_start_registered who sid sid' st :
  map_has (sessions st) sid = true ->
  get_entry sid' (start who sid st).2 = get_entry sid' st.
Proof.
  intros Hin. destruct (start_registry who sid st) as [Hs He].
  rewrite (get_entry_same _ _ _ Hs He). unfold register. by rewrite Hin.
Qed.

Lemma get_entry_alter_other sid' l f st st' :
  sessions st' = sessions st ->
  entries st' = alter f l (entries st) ->
  (forall l', map_get (sessions st) sid' = Some l' -> l' <> l) ->
  get_entry sid' st' = get_entry sid' st.
Proof.
  intros Hs He Hother. unfold get_entry. rewrite Hs, He.
  destruct (map_get (sessions st) sid') as [l'|]; [|done].
  by rewrite lookup_alter_ne by (symmetry; by apply Hother).
Qed.

Lemma task_entry_other k tk sid' st :
  wf st -> tasks st !! k = Some tk -> sid' <> t_sid tk ->
  forall l', map_get (sessions st) sid' = Some l' -> l' <> t_entry tk.
Proof.
  intros Hwf Hk Hne l' Hl'. eapply other_loc; [done| |done|done].
  by eapply holds_task.
Qed.

Lemma start_timers who sid st : timers (start who sid st).2 = timers st.
Proof.
  unfold start.
  assert (Hreg : timers (register sid st) = timers st).
  { unfold register. by destruct (map_has (sessions st) sid). }
  destruct (get_entry sid (register sid st)) as [[l e]|]; [|done].
  destruct (sock e); [done|]. by destruct (Semaphore.acquire _ _).
Qed.

Lemma get_entry_settle_caller_other who r sid sid' st :
  wf st -> (forall l, who = ReconnectTimer l -> holds st sid l) -> sid' <> sid ->
  get_entry sid' (settle_caller who r st) = get_entry sid' st.
Proof.
  intros Hwf Hwho Hne. unfold settle_caller. destruct who as [|l|]; try done.
  destruct r; [done|]. apply get_entry_update_entry_other. intros l' Hl'.
  eapply other_loc; [done| |done|done]. by apply Hwho.
Qed.

Lemma get_entry_launch_all sid' keys : forall ps st,
  (forall sid, sid ∈ keys -> map_has (sessions st) sid = true) ->
  get_entry sid'
    (fold_left (fun '(ps, s) sid =>
                  let '(p, s') := start StartAllTask sid s in (ps ++ [p], s'))
               keys (ps, st)).2
  = get_entry sid' st.
Proof.
  induction keys as [|sid keys IH]; intros ps st Hall; simpl; [done|].
  pose proof (get_entry_start_registered StartAllTask sid sid' st) as H1.
  pose proof (start_registry StartAllTask sid st) as [Hs _].
  destruct (start StartAllTask sid st) as [p s']. simpl in *.
  rewrite IH.
  - apply H1, Hall, list_elem_of_here.
  - intros sid0 Hin. rewrite Hs. unfold register.
    rewrite (Hall sid (list_elem_of_here _ _)). by apply Hall, list_elem_of_further.
Qed.

Lemma get_entry_timer_fires_other i tm sid' st :
  wf st -> timers st !! i = Some tm -> sid' <> tm_sid tm ->
  get_entry sid' (timer_fires i st) = get_entry sid' st.
Proof.
  intros Hwf Hi Hne. rewrite (timer_fires_unfold _ _ _ Hi). cbv zeta.
  assert (Hin : tm ∈ timers st) by (by eapply list_elem_of_lookup_2).
  set (st2 := update_entry (tm_entry tm) _ st).
  assert (Hwf2 : wf st2) by (by apply wf_update_entry).
  assert (Hheld2 : holds st2 (tm_sid tm) (tm_entry tm)) by (by apply holds_timer).
  assert (H2 : get_entry sid' st2 = get_entry sid' st).
  { apply get_entry_update_entry_other. intros l' Hl'.
    eapply other_loc; [done|by apply holds_timer|done|done]. }
  set (w := ReconnectTimer (tm_entry tm)) in *.
  assert (Hwf3 : wf (start w (tm_sid tm) st2).2).
  { apply wf_start; [done|]. by intros l [= <-]. }
  assert (H3 : get_entry sid' (start w (tm_sid tm) st2).2 = get_entry sid' st).
  { by rewrite get_entry_start_other. }
  assert (Hheld3 : holds (start w (tm_sid tm) st2).2 (tm_sid tm) (tm_entry tm)).
  { apply holds_timer. by rewrite start_timers. }
  etrans; [|exact H3].
  change (get_entry sid' (set_timers (delete i) ?y)) with (get_entry sid' y).
  destruct (start w (tm_sid tm) st2).1 as [r|k]; [|done].
  apply (get_entry_settle_caller_other _ _ (tm_sid tm)); try done.
  by intros l [= <-].
Qed.

(** X7: a job that works for one session never changes the entry
    registered under another id: calls, continuations of [start],
    connection updates and reconnect timers of a session leave every
    other session's registration, socket, status, backoff and restart
    guard as they were, and [startAll()] itself changes no entry. *)
Theorem sessions_do_not_interfere (st : t) (j : job) (sid' : string) :
  wf st ->
  job_session j st <> Some sid' ->
  get_entry sid' (step j st) = get_entry sid' st.
Proof.
  intros Hwf Hj. destruct j as [sid|sid| |sid|sid| |k|k|k|sid u|i]; simpl in *.
  - apply get_entry_register_other; [done|congruence].
  - apply get_entry_start_other; [done|congruence].
  - unfold startAll, launch_all.
    pose proof (get_entry_launch_all sid' (map_keys (sessions st)) [] st) as H.
    destruct (fold_left _ _ _) as [ps st1]. simpl in *. apply H.
    intros sid Hin. by apply map_has_true.
  - apply get_entry_stop_other; [done|congruence].
  - apply get_entry_logout_other. congruence.
  - unfold run_microtask. destruct (microtasks st) as [|[k b] rest]; [done|].
    unfold start_acquired. simpl.
    destruct (tasks st !! k) as [tk|] eqn:Hk; [|done].
    simpl in Hj. assert (sid' <> t_sid tk) by congruence.
    destruct (t_phase tk); try done.
    eapply get_entry_alter_other; [| |by eapply task_entry_other].
    + by destruct b.
    + simpl. by destruct b.
  - unfold factory_resolves. destruct (tasks st !! k) as [tk|] eqn:Hk; [|done].
    simpl in Hj. assert (sid' <> t_sid tk) by congruence.
    destruct (t_phase tk); try done.
    unfold get_entry. simpl. rewrite map_get_set_ne by done.
    destruct (map_get (sessions st) sid') as [l'|] eqn:Hl'; [|done].
    rewrite lookup_alter_ne; [done|]. symmetry. by eapply task_entry_other.
  - unfold factory_rejects. destruct (tasks st !! k) as [tk|]; [|done].
    by destruct (t_phase tk).
  - unfold delay_elapsed. destruct (tasks st !! k) as [tk|] eqn:Hk; [|done].
    simpl in Hj. assert (sid' <> t_sid tk) by congruence.
    destruct (t_phase tk); try done.
    destruct (Semaphore.release _) as [w s].
    rewrite (get_entry_settle_caller_other _ _ (t_sid tk)); try done.
    + by apply wf_set_phase, wf_set_microtasks, wf_set_semaphore.
    + intros l Hl. right; left. exists k.
      eexists. simpl. rewrite lookup_alter_eq, Hk. simpl.
      split; [done|]. split; [done|]. simpl. by right.
  - assert (Hne : sid' <> sid) by congruence.
    unfold _handleConnectionUpdate.
    destruct (get_entry sid st) as [[l e]|] eqn:Hget; [|done].
    assert (Hother : forall l', map_get (sessions st) sid' = Some l' -> l' <> l).
    { intros l' Hl'. eapply other_loc; [done| |done|done].
      by eapply get_entry_holds. }
    destruct (connection u) as [[| |]|]; try done.
    + rewrite get_entry_sessions_set_other by done.
      by apply get_entry_update_entry_other.
    + destruct (CloseReason.isLoggedOut _).
      * by apply get_entry_sessions_delete_other.
      * destruct (restarting e); [done|].
        by eapply get_entry_alter_other.
  - destruct (timers st !! i) as [tm|] eqn:Hi.
    + simpl in Hj. apply (get_entry_timer_fires_other i tm); [done|done|congruence].
    + unfold timer_fires. by rewrite Hi.
Qed.

Lemma sessions_do_not_interfere_witness :
  let st := run [CallStart "a"; RunMicrotask; FactoryResolves 0; DelayElapsed 0;
                 CallStart "b"; RunMicrotask; FactoryResolves 1; DelayElapsed 1]
              (new no_options) in
  get_entry "b" (step (ConnectionUpdate "a" transient_close) st) = get_entry "b" st.
Proof.
  intros st.
  assert (Hwf : wf st) by apply wf_run, wf_new.
  apply (sessions_do_not_interfere st (ConnectionUpdate "a" transient_close) "b" Hwf).
  simpl. discriminate.
Defined.

(** *** A start that succeeds *)

Lemma start_succeeding_registered st sid l e :
  get_entry sid st = Some (l, e) -> sock e = None -> slot_free st ->
  let k := next_tid st in
  let c := length (sockets st) in
  let st' := run [CallStart sid; RunMicrotask; FactoryResolves k; DelayElapsed k] st in
  (start External sid st).1 = Pending k
  /\ phase_of k st' = Some (Settled (Returned c))
  /\ semaphore st' = semaphore st
  /\ get_entry sid st'
     = Some (l, {| sock := Some c; backoffMs := defaultBackoff (cfg st);
                   restarting := false; status := connected |})
  /\ sockets st' = sockets st ++ [(c, sid)]
  /\ factory_calls st' = factory_calls st ++ [sid]
  /\ _persistMeta st' = _persistMeta st.
Proof.
  intros Hget Hsock (Hm & Hq & Ha0 & Ha).
  assert (Hreg : register sid st = st).
  { apply register_present. apply get_entry_Some in Hget as [-> _]. eauto. }
  apply get_entry_Some in Hget as [Hs He].
  assert (Hin : sid ∈ map_keys (sessions st)).
  { apply map_has_true. unfold map_has. by rewrite Hs. }
  destruct st as [c E nl S [L a q] T k M TM F X R]. simpl in *. subst M q.
  unfold start. rewrite Hreg. unfold get_entry. simpl. rewrite Hs, He, Hsock.
  unfold Semaphore.acquire. simpl.
  rewrite (proj2 (Z.ltb_lt _ _) Ha). simpl.
  unfold run_microtask. simpl. unfold start_acquired. simpl.
  rewrite lookup_insert_eq. simpl.
  unfold factory_resolves. simpl. rewrite lookup_alter_eq, lookup_insert_eq. simpl.
  unfold delay_elapsed. simpl. rewrite !lookup_alter_eq, lookup_insert_eq. simpl.
  unfold phase_of, get_entry, _persistMeta. simpl.
  rewrite !lookup_alter_eq, lookup_insert_eq, map_get_set_eq. simpl.
  rewrite !lookup_alter_eq, He. simpl.
  replace (0 `max` (a + 1 - 1)) with a by lia.
  rewrite map_keys_set_present by done. done.
Qed.

(** X8: a [start(id)] of a session that is not running, made with a free
    slot and run to its end with the factory returning a socket, resolves
    with that socket; the entry is then ['connected'] with the new socket,
    the base backoff and no restart guard, the slot is given back, the
    factory was called once, the registry holds the same ids, and a
    further [start(id)] returns the same socket without any effect. *)
Theorem start_success (st : t) (sid : string) :
  registry_ok st ->
  slot_free st ->
  isRunning sid st = false ->
  (start External sid st).1 = Pending (next_tid (register sid st))
  /\ phase_of (next_tid (register sid st)) (start_succeeding sid st)
     = Some (Settled (Returned (length (sockets st))))
  /\ semaphore (start_succeeding sid st) = semaphore st
  /\ (exists l, get_entry sid (start_succeeding sid st)
                = Some (l, {| sock := Some (length (sockets st));
                              backoffMs := defaultBackoff (cfg st);
                              restarting := false; status := connected |}))
  /\ isRunning sid (start_succeeding sid st) = true
  /\ sockets (start_succeeding sid st) = sockets st ++ [(length (sockets st), sid)]
  /\ factory_calls (start_succeeding sid st) = factory_calls st ++ [sid]
  /\ _persistMeta (start_succeeding sid st) = _persistMeta (register sid st)
  /\ start External sid (start_succeeding sid st)
     = (Done (Returned (length (sockets st))), start_succeeding sid st).
Proof.
  intros Hok Hfree Hnot.
  destruct (register_get_entry sid st Hok) as (l & e & Hget & Hsock).
  specialize (Hsock Hnot).
  destruct (register_other_fields sid st) as (Hsem & Hmt & _ & Hcfg).
  assert (Hfree1 : slot_free (register sid st)).
  { unfold slot_free in *. by rewrite Hsem, Hmt. }
  assert (Hsk : sockets (register sid st) = sockets st
                /\ factory_calls (register sid st) = factory_calls st).
  { unfold register. by destruct (map_has (sessions st) sid). }
  destruct Hsk as [Hsk Hfc].
  destruct (start_succeeding_registered _ _ _ _ Hget Hsock Hfree1)
    as (Hp & Hphase & Hs & Hentry & Hsockets & Hcalls & Hmeta).
  assert (Hrun : start_succeeding sid st
                 = run [CallStart sid; RunMicrotask;
                        FactoryResolves (next_tid (register sid st));
                        DelayElapsed (next_tid (register sid st))]
                       (register sid st)).
  { unfold start_succeeding, run. simpl. by rewrite start_register. }
  rewrite Hrun, start_register. rewrite Hsk, Hcfg, Hfc, Hsem in *.
  split; [done|]. split; [done|]. split; [done|]. split; [eauto|].
  split; [unfold isRunning; by rewrite Hentry|].
  split; [done|]. split; [done|]. split; [done|].
  unfold start at 1. rewrite register_present.
  - by rewrite Hentry.
  - apply get_entry_Some in Hentry as [-> _]. eauto.
Qed.

Lemma start_success_witness :
  let st := register "b" (new no_options) in
  list_sessions (start_succeeding "a" st)
  = [("b", stopped, 1000); ("a", connected, 1000)]
  /\ isRunning "a" (start_succeeding "a" st) = true
  /\ semaphore (start_succeeding "a" st) = semaphore st.
Proof.
  intros st.
  assert (Hok : registry_ok st) by apply wf_registry_ok, wf_register, wf_new.
  assert (Hfree : slot_free st).
  { unfold slot_free, st. simpl. repeat split; lia. }
  destruct (start_success st "a" Hok Hfree eq_refl)
    as (_ & _ & Hsem & _ & Hrun & _).
  split; [reflexivity|]. split; [exact Hrun|exact Hsem].
Defined.

(** *** The metadata file *)

Lemma list_sessions_insert_fresh (E : gmap loc entry) nl e0 (ss : list (string * loc)) :
  (forall sid l, (sid, l) ∈ ss -> l <> nl) ->
  omap (fun '(sid, l) =>
          match <[nl := e0]> E !! l with
          | Some e => Some (sid, status e, backoffMs e)
          | None => None
          end) ss
  = omap (fun '(sid, l) =>
            match E !! l with
            | Some e => Some (sid, status e, backoffMs e)
            | None => None
            end) ss.
Proof.
  induction ss as [|[sid l] ss IH]; intros Hall; [done|].
  csimpl. rewrite lookup_insert_ne.
  - rewrite IH; [done|]. intros sid' l' Hin. apply (Hall sid' l').
    by apply list_elem_of_further.
  - symmetry. apply (Hall sid l), list_elem_of_here.
Qed.

Lemma list_sessions_register_new sid st :
  wf st -> sid ∉ _persistMeta st ->
  list_sessions (register sid st)
  = list_sessions st ++ [(sid, stopped, defaultBackoff (cfg st))]
  /\ _persistMeta (register sid st) = _persistMeta st ++ [sid].
Proof.
  intros Hwf Hout. pose proof Hwf as (Hnd & _ & Halloc & _).
  unfold _persistMeta in *. pose proof Hout as Hnone%map_get_None.
  unfold register, map_has. rewrite Hnone. unfold list_sessions. simpl.
  rewrite map_set_absent by done. split.
  - rewrite omap_app. csimpl. rewrite lookup_insert_eq. simpl. f_equal.
    apply list_sessions_insert_fresh. intros sid' l Hin.
    assert (l < next_loc st)%nat; [|lia].
    eapply Halloc. left. by apply elem_of_map_get.
  - unfold map_keys. by rewrite fmap_app.
Qed.

Lemma loadMeta_new ids : forall st,
  wf st -> NoDup ids -> (forall id, id ∈ ids -> id ∉ _persistMeta st) ->
  _persistMeta (_loadMeta ids st) = _persistMeta st ++ ids
  /\ list_sessions (_loadMeta ids st)
     = list_sessions st ++ ((fun id => (id, stopped, defaultBackoff (cfg st))) <$> ids)
  /\ cfg (_loadMeta ids st) = cfg st.
Proof.
  unfold _loadMeta.
  induction ids as [|id ids IH]; intros st Hwf Hnd Hnew; simpl.
  - by rewrite !app_nil_r.
  - apply NoDup_cons in Hnd as [Hid Hnd].
    destruct (list_sessions_register_new id st Hwf) as [Hl Hp].
    { apply Hnew, list_elem_of_here. }
    destruct (register_other_fields id st) as (_ & _ & _ & Hcfg).
    destruct (IH (register id st)) as (Hp' & Hl' & Hcfg'); [by apply wf_register|done| |].
    { intros id' Hin. rewrite Hp, elem_of_app, list_elem_of_singleton.
      intros [Hold| ->]; [|done].
      by apply (Hnew id' (list_elem_of_further _ _ _ Hin)). }
    rewrite Hp', Hl', Hcfg', Hp, Hl, Hcfg, <- !app_assoc. done.
Qed.

Lemma loadMeta_keeps ids : forall st sid,
  wf st -> sid ∈ _persistMeta st ->
  get_entry sid (_loadMeta ids st) = get_entry sid st.
Proof.
  unfold _loadMeta.
  induction ids as [|id ids IH]; intros st sid Hwf Hin; simpl; [done|].
  rewrite IH.
  - destruct (decide (sid = id)) as [->|Hne].
    + rewrite register_present; [done|].
      destruct (map_get (sessions st) id) eqn:E; [eauto|].
      by apply map_get_None in E.
    + by apply get_entry_register_other.
  - by apply wf_register.
  - unfold register. destruct (map_has (sessions st) id); [done|].
    unfold _persistMeta. simpl. apply elem_of_map_keys_set. by right.
Qed.

(** X9: the id list written by [_persistMeta], read back by [_loadMeta]
    into a new manager, registers the same ids in the same order, every
    one ['stopped'] with the base backoff; and whenever [_loadMeta] runs,
    it leaves the entry of every id that is already registered as it is
    (a running session is not reset by a late metadata load). *)
Theorem meta_round_trip (st : t) (opts : options) (ids : list string) (sid : string) :
  wf st ->
  _persistMeta (_loadMeta (_persistMeta st) (new opts)) = _persistMeta st
  /\ list_sessions (_loadMeta (_persistMeta st) (new opts))
     = (fun id => (id, stopped, defaultBackoff (cfg (new opts)))) <$> _persistMeta st
  /\ (sid ∈ _persistMeta st ->
      get_entry sid (_loadMeta ids st) = get_entry sid st).
Proof.
  intros Hwf.
  destruct (loadMeta_new (_persistMeta st) (new opts) (wf_new opts))
    as (Hp & Hl & _); [apply Hwf| |].
  { intros id _. apply not_elem_of_nil. }
  split; [done|]. split; [done|]. intros Hin. by apply loadMeta_keeps.
Qed.

Lemma meta_round_trip_witness :
  let st := run [CallStart "a"; RunMicrotask; FactoryResolves 0; DelayElapsed 0;
                 CallRegister "b"] (new no_options) in
  _persistMeta st = ["a"; "b"]
  /\ list_sessions (_loadMeta (_persistMeta st) (new no_options))
     = [("a", stopped, 1000); ("b", stopped, 1000)].
Proof.
  intros st.
  assert (Hwf : wf st) by apply wf_run, wf_new.
  destruct (meta_round_trip st no_options [] "a" Hwf) as (_ & Hl & _).
  split; [reflexivity|exact Hl].
Defined.

(** *** [startAll] on any registry *)

Lemma launch_all_sessions keys : forall ps st,
  (forall sid, sid ∈ keys -> map_has (sessions st) sid = true) ->
  sessions (fold_left (fun '(ps, s) sid =>
                         let '(p, s') := start StartAllTask sid s in (ps ++ [p], s'))
                      keys (ps, st)).2
  = sessions st.
Proof.
  induction keys as [|sid keys IH]; intros ps st Hall; simpl; [done|].
  pose proof (start_registry StartAllTask sid st) as [Hs _].
  destruct (start StartAllTask sid st) as [p s']. simpl in *.
  assert (Hs' : sessions s' = sessions st).
  { rewrite Hs. unfold register. by rewrite (Hall sid (list_elem_of_here _ _)). }
  rewrite IH; [done|]. intros sid0 Hin. rewrite Hs'.
  by apply Hall, list_elem_of_further.
Qed.

(** X10: the promise of [startAll()] resolves when no id is registered
    and is rejected with a TypeError as soon as one is; either way the
    registry holds the same ids afterwards, so the starts it launched are
    for registered ids only. *)
Theorem startAll_settles (st : t) :
  concurrency (cfg st) <> O ->
  (startAll st).1
  = match sessions st with
    | [] => AllResolved
    | _ :: _ => AllRejected NotAFunction
    end
  /\ (sessions st = [] -> (startAll st).2 = st)
  /\ _persistMeta (startAll st).2 = _persistMeta st.
Proof.
  intros Hc. split; [|split].
  - destruct (sessions st) as [|x ss] eqn:E.
    + unfold startAll. rewrite E. reflexivity.
    + apply startAll_rejects; [by rewrite E|done].
  - intros E. unfold startAll. rewrite E. reflexivity.
  - unfold startAll, launch_all, _persistMeta.
    pose proof (launch_all_sessions (map_keys (sessions st)) [] st) as H.
    destruct (fold_left _ _ _) as [ps st1]. simpl in *. rewrite H; [done|].
    intros sid Hin. by apply map_has_true.
Qed.

Lemma startAll_settles_witness :
  (startAll (new no_options)).1 = AllResolved
  /\ (startAll (register "a" (new no_options))).1 = AllRejected NotAFunction.
Proof.
  split.
  - exact (proj1 (startAll_settles (new no_options) ltac:(discriminate))).
  - exact (proj1 (startAll_settles (register "a" (new no_options))
                    ltac:(discriminate))).
Defined.

End SessionManagerFacts.

(** ** Strings, continued *)

Module JsTextFacts.
Import JsString JsText.

Lemma append_cons c s t : String c s +:+ t = String c (s +:+ t).
Proof. reflexivity. Qed.

Lemma append_nil_l s : "" +:+ s = s.
Proof. reflexivity. Qed.

Lemma append_nil_r s : s +:+ "" = s.
Proof. induction s as [|c s IH]; [done|]. by rewrite append_cons, IH. Qed.

Lemma append_assoc s1 s2 s3 : (s1 +:+ s2) +:+ s3 = s1 +:+ (s2 +:+ s3).
Proof. induction s1 as [|c s1 IH]; [done|]. by rewrite !append_cons, IH. Qed.

Lemma startsWith_append p s : startsWith (p +:+ s) p = true.
Proof.
  induction p as [|c p IH]; [by destruct s|]. rewrite ?append_cons; simpl.
  by rewrite Ascii.eqb_refl.
Qed.

Lemma slice_append p s : slice (String.length p) (p +:+ s) = s.
Proof.
  induction p as [|c p IH]; [by destruct s|]. rewrite append_cons. by simpl.
Qed.

Lemma trimStart_pad pad s : all_space pad = true -> trimStart (pad +:+ s) = trimStart s.
Proof.
  induction pad as [|c pad IH]; [done|]. simpl.
  intros [Hc Hp]%andb_true_iff. rewrite ?append_cons; simpl. rewrite Hc. by apply IH.
Qed.

Lemma trimEnd_pad pad : all_space pad = true -> trimEnd pad = "".
Proof.
  induction pad as [|c pad IH]; simpl; [done|].
  intros [Hc Hp]%andb_true_iff. by rewrite (IH Hp), Hc.
Qed.

Lemma trimEnd_word w s : no_space w = true -> trimEnd (w +:+ s) = w +:+ trimEnd s.
Proof.
  induction w as [|c w IH]; [done|]. simpl.
  intros [Hc Hw]%andb_true_iff. rewrite ?append_cons; simpl. rewrite (IH Hw).
  apply negb_true_iff in Hc. rewrite Hc. by destruct (w +:+ trimEnd s).
Qed.

Lemma trimEnd_keep s t :
  trimEnd t <> "" -> trimEnd (s +:+ t) = s +:+ trimEnd t.
Proof.
  intros Ht. induction s as [|c s IH]; [done|]. rewrite ?append_cons; simpl.
  rewrite IH. destruct (s +:+ trimEnd t) eqn:E; [|done].
  destruct s; [|done]. by rewrite append_nil_l in E.
Qed.

Lemma split_go_word w : forall tok s,
  no_space w = true ->
  split_go false tok (w +:+ s) = split_go false (tok +:+ w) s.
Proof.
  induction w as [|c w IH]; intros tok s; [by rewrite append_nil_r|]. simpl.
  intros [Hc Hw]%andb_true_iff. apply negb_true_iff in Hc.
  rewrite ?append_cons; simpl. rewrite Hc, (IH _ _ Hw).
  by rewrite append_assoc.
Qed.

Lemma split_go_sep sep : forall s,
  all_space sep = true -> split_go true "" (sep +:+ s) = split_go true "" s.
Proof.
  induction sep as [|c sep IH]; intros s; [done|]. simpl.
  intros [Hc Hs]%andb_true_iff. rewrite ?append_cons; simpl. rewrite Hc. by apply IH.
Qed.

Lemma split_go_start c s :
  is_space c = false -> split_go true "" (String c s) = split_go false "" (String c s).
Proof. intros Hc. simpl. by rewrite Hc. Qed.

End JsTextFacts.

(** ** The plugin registry *)

Module PluginsFacts.
Import Plugins.

Lemma register_all_snoc ps p r :
  register_all (ps ++ [p]) r = Module_ p (register_all ps r).
Proof. unfold register_all. by rewrite fold_left_app. Qed.

Lemma last_snoc_filter (P : plugin -> Prop) `{!forall p, Decision (P p)} ps p :
  last (filter P (ps ++ [p])) = if decide (P p) then Some p else last (filter P ps).
Proof.
  rewrite filter_app. case_decide.
  - rewrite filter_cons_True, filter_nil by done. apply last_snoc.
  - rewrite filter_cons_False, filter_nil by done. by rewrite app_nil_r.
Qed.

Lemma registry_commands ps c :
  map_get (commandMap (register_all ps no_plugins)) c
  = if decide (c = "") then None
    else last (filter (fun p => command p = Some c) ps).
Proof.
  induction ps as [|p ps IH] using rev_ind.
  - simpl. by case_decide.
  - rewrite register_all_snoc, last_snoc_filter. simpl.
    destruct (command p) as [c'|] eqn:Ec.
    + destruct (decide (c' = "")) as [->|Hc'].
      * rewrite IH. case_decide; [done|]. rewrite decide_False; [done|]. congruence.
      * destruct (decide (c' = c)) as [->|Hne].
        -- rewrite map_get_set_eq. by rewrite decide_False, decide_True.
        -- rewrite map_get_set_ne by done. rewrite IH.
           case_decide; [done|]. rewrite decide_False; [done|]. congruence.
    + rewrite IH. case_decide; [done|]. by rewrite decide_False.
Qed.

(** X24: the registry after any sequence of registrations.  [all] holds
    every registered plugin in registration order and [text] those with
    [on: "text"], in the same order; a command name leads to the plugin
    that registered it last; no plugin is reachable under the empty
    command; every plugin a command leads to is a registered plugin with
    that command; and once a plugin is registered, [loadPlugins] imports
    nothing and returns the registry as it is. *)
Theorem registry_contents (ps : list plugin) :
  let r := register_all ps no_plugins in
  allPlugins r = ps
  /\ textPlugins r = filter (fun p => on p = Some "text") ps
  /\ (forall c, c <> "" ->
        map_get (commandMap r) c = last (filter (fun p => command p = Some c) ps))
  /\ map_get (commandMap r) "" = None
  /\ NoDup (map_keys (commandMap r))
  /\ (forall c p, map_get (commandMap r) c = Some p -> p ∈ ps /\ command p = Some c)
  /\ (forall files, ps <> [] -> loadPlugins files r = (getSnapshot r, r)).
Proof.
  intros r.
  assert (Hall : allPlugins r = ps).
  { subst r. induction ps as [|p ps IH] using rev_ind; [done|].
    rewrite register_all_snoc. simpl. by rewrite IH. }
  split; [done|]. split; [|split; [|split; [|split; [|split]]]].
  - subst r. clear Hall. induction ps as [|p ps IH] using rev_ind; [done|].
    rewrite register_all_snoc, filter_app. simpl. rewrite IH. case_decide.
    + by rewrite filter_cons_True, filter_nil.
    + rewrite filter_cons_False, filter_nil by done. by rewrite app_nil_r.
  - intros c Hc. subst r. rewrite registry_commands. by rewrite decide_False.
  - subst r. by rewrite registry_commands.
  - subst r. clear Hall. induction ps as [|p ps IH] using rev_ind; [apply NoDup_nil_2|].
    rewrite register_all_snoc. simpl. destruct (command p) as [c|]; [|done].
    case_decide; [done|]. by apply map_keys_NoDup_set.
  - intros c p. subst r. rewrite registry_commands. case_decide; [done|].
    intros Hl. apply last_Some in Hl as [l' Hl].
    assert (Hin : p ∈ filter (fun p => command p = Some c) ps).
    { rewrite Hl. apply elem_of_app. right. apply list_elem_of_here. }
    apply list_elem_of_filter in Hin as [? ?]. done.
  - intros files Hne. unfold loadPlugins. rewrite Hall. by destruct ps.
Qed.

End PluginsFacts.

(** ** Message dispatch *)

Module DispatchFacts.
Import JsString JsText Plugins Dispatch JsTextFacts.

Lemma prefix_of_cons configured : exists a p, prefix_of configured = String a p.
Proof. destruct configured as [[|a p]|]; simpl; eauto. Qed.

Lemma well_spaced_cons sep w rest :
  well_spaced ((sep, w) :: rest) = true ->
  (exists c sep', sep = String c sep' /\ is_space c = true /\ all_space sep' = true)
  /\ (exists d w', w = String d w' /\ is_space d = false /\ no_space w' = true)
  /\ all_space sep = true /\ no_space w = true
  /\ well_spaced rest = true.
Proof.
  unfold well_spaced. simpl.
  intros [[[[Hs Hs']%andb_true_iff Hw]%andb_true_iff Hw']%andb_true_iff Hr]%andb_true_iff.
  destruct sep as [|c sep]; [done|]. destruct w as [|d w]; [done|].
  simpl in Hs, Hw. apply andb_true_iff in Hs as [Hc Hsep].
  apply andb_true_iff in Hw as [Hd Hww]. apply negb_true_iff in Hd.
  split; [by eauto|]. split; [by eauto 6|]. split; [simpl; by rewrite Hc, Hsep|].
  split; [simpl; by rewrite Hd, Hww|done].
Qed.

Lemma trimEnd_tail rest pad :
  well_spaced rest = true -> all_space pad = true ->
  trimEnd (tail_of rest +:+ pad) = tail_of rest.
Proof.
  intros Hr Hp. induction rest as [|[sep w] rest IH]; simpl.
  - by apply trimEnd_pad.
  - apply well_spaced_cons in Hr as (_ & (d & w' & -> & Hd & Hw') & Hsep & Hw & Hr).
    rewrite !append_assoc.
    assert (E : trimEnd (String d w' +:+ tail_of rest +:+ pad)
                = String d w' +:+ tail_of rest).
    { rewrite trimEnd_word by done. by rewrite (IH Hr). }
    rewrite trimEnd_keep; rewrite E; done.
Qed.

Lemma split_go_tail rest : forall tok,
  well_spaced rest = true ->
  split_go false tok (tail_of rest) = tok :: rest.*2.
Proof.
  induction rest as [|[sep w] rest IH]; intros tok Hr; [done|]. csimpl.
  apply well_spaced_cons in Hr
    as ((c & sep' & -> & Hc & Hsep') & (d & w' & -> & Hd & Hw') & _ & Hw & Hr).
  rewrite append_cons. simpl. rewrite Hc. f_equal.
  rewrite split_go_sep by done. rewrite append_cons, split_go_start by done.
  rewrite <- append_cons, split_go_word by done. by rewrite (IH _ Hr).
Qed.

(** X25: how a message is dispatched.  A body that is the prefix, optional
    white space, a command word, arguments separated by white space of any
    kind and length, and optional trailing white space, runs exactly the
    plugin registered under the command word, with the arguments joined by
    single spaces, and no text plugin; when no plugin has that command,
    and for a body that does not start with the prefix, all text plugins
    run, in registration order, and no command; an empty body runs
    nothing. *)
Theorem command_line (plugins : snapshot) (configured : option string)
    (pad1 cmd pad2 body : string) (rest : list (string * string)) :
  (all_space pad1 = true -> all_space pad2 = true ->
   no_space cmd = true -> cmd <> "" -> well_spaced rest = true ->
   on_message plugins configured
     (prefix_of configured +:+ pad1 +:+ cmd +:+ tail_of rest +:+ pad2)
   = match map_get (commands plugins) cmd with
     | Some p => [RunCommand p (join " " rest.*2)]
     | None => RunText <$> text plugins
     end)
  /\ (startsWith body (prefix_of configured) = false -> body <> "" ->
      on_message plugins configured body = RunText <$> text plugins)
  /\ on_message plugins configured "" = [].
Proof.
  split; [|split].
  - intros Hp1 Hp2 Hcmd Hne Hrest. unfold on_message.
    rewrite startsWith_append, slice_append. unfold trim.
    rewrite trimStart_pad by done.
    destruct cmd as [|d cmd']; [done|]. simpl in Hcmd.
    apply andb_true_iff in Hcmd as [Hd Hcmd']. apply negb_true_iff in Hd.
    assert (Hw : no_space (String d cmd') = true) by (simpl; by rewrite Hd, Hcmd').
    rewrite append_cons. simpl trimStart. rewrite Hd. rewrite <- append_cons.
    rewrite trimEnd_word, trimEnd_tail by done.
    unfold split_ws. rewrite split_go_word by done. rewrite append_nil_l.
    rewrite split_go_tail by done.
    destruct (map_get (commands plugins) (String d cmd')); [done|].
    destruct (prefix_of_cons configured) as (a & p & ->). by rewrite append_cons.
  - intros Hs Hb. unfold on_message. rewrite Hs. by destruct body.
  - unfold on_message. destruct (prefix_of_cons configured) as (a & p & ->). done.
Qed.

Lemma command_line_witness :
  let reg := register_all
               [{| command := Some "ping"; on := None; exec := 1%nat |};
                {| command := None; on := Some "text"; exec := 2%nat |};
                {| command := Some "ping"; on := None; exec := 3%nat |}] no_plugins in
  on_message (getSnapshot reg) None ".  ping  a   b "
  = [RunCommand {| command := Some "ping"; on := None; exec := 3%nat |} "a b"]
  /\ on_message (getSnapshot reg) None "hello"
     = [RunText {| command := None; on := Some "text"; exec := 2%nat |}].
Proof.
  intros reg.
  destruct (command_line (getSnapshot reg) None "  " "ping" " " "hello"
              [("  ", "a"); ("   ", "b")]) as (H1 & H2 & _).
  split; [by apply H1|by apply H2].
Defined.

End DispatchFacts.

(** ** The pairing route *)

Module ServerFacts.
Import JsString JsText Server JsTextFacts.

Lemma length_append s t : String.length (s +:+ t) = (String.length s + String.length t)%nat.
Proof. induction s as [|c s IH]; [done|]. rewrite append_cons. simpl. by rewrite IH. Qed.

Lemma join_cons sep c g rest : exists r, join sep (String c g :: rest) = String c r.
Proof. destruct rest; simpl; eauto. Qed.

Lemma match_groups_spec s : forall cur,
  (String.length cur <= 3)%nat ->
  one_line s = true ->
  fold_right String.append "" (match_groups cur s) = cur +:+ s
  /\ (forall i g, match_groups cur s !! i = Some g ->
        (1 <= String.length g <= 4)%nat
        /\ ((S i < length (match_groups cur s))%nat -> String.length g = 4%nat)).
Proof.
  induction s as [|c s IH]; intros cur Hcur Hs.
  - simpl. destruct cur as [|d cur'].
    + split; [done|]. intros i g Hi. done.
    + split; [reflexivity|].
      intros [|i] g Hi; [|done]. injection Hi as <-. simpl in *.
      split; lia.
  - simpl in Hs. apply andb_true_iff in Hs as [Hc Hs]. apply negb_true_iff in Hc.
    simpl. rewrite Hc.
    assert (Hlen : String.length (cur +:+ String c "") = S (String.length cur)).
    { rewrite length_append. simpl. lia. }
    assert (Hcat : (cur +:+ String c "") +:+ s = cur +:+ String c s).
    { by rewrite append_assoc. }
    destruct (Nat.eqb_spec (String.length cur) 3) as [H3|H3].
    + destruct (IH "" ltac:(simpl; lia) Hs) as [IH1 IH2]. split.
      * cbn [fold_right]. rewrite IH1, append_nil_l. exact Hcat.
      * intros [|i] g Hi; simpl in *.
        -- injection Hi as <-. rewrite Hlen. lia.
        -- destruct (IH2 i g Hi) as [H1 H2]. split; [done|]. intros Hlt. apply H2. lia.
    + destruct (IH (cur +:+ String c "") ltac:(lia) Hs) as [IH1 IH2].
      split; [by rewrite IH1|done].
Qed.

(** X26: [fmtCode] groups a code by four.  For a non-empty code without
    line terminators the result is the code cut, from the left, into
    groups that are joined by ["-"]: put together the groups give the code
    back, every group but the last has four characters and the last has one
    to four. *)
Theorem fmtCode_groups (raw : string) :
  one_line raw = true -> raw <> "" ->
  exists groups,
    fmtCode raw = join "-" groups
    /\ fold_right String.append "" groups = raw
    /\ (forall i g, groups !! i = Some g ->
          (1 <= String.length g <= 4)%nat
          /\ ((S i < length groups)%nat -> String.length g = 4%nat)).
Proof.
  intros Hone Hne. exists (match_groups "" raw).
  destruct (match_groups_spec raw "" ltac:(simpl; lia) Hone) as [H1 H2].
  split; [|done]. unfold fmtCode. destruct raw as [|c raw]; [done|].
  destruct (match_groups "" (String c raw)) as [|g gs] eqn:E; [done|].
  destruct (H2 O g eq_refl) as [[Hg _] _].
  destruct g as [|d g]; [simpl in Hg; lia|].
  destruct (join_cons "-" d g gs) as [r ->]. done.
Qed.

Lemma fmtCode_groups_witness :
  exists groups, fmtCode "ABCD1234" = join "-" groups
                 /\ fold_right String.append "" groups = "ABCD1234".
Proof.
  destruct (fmtCode_groups "ABCD1234" eq_refl) as (groups & H1 & H2 & _); [done|].
  by exists groups.
Defined.

Example fmtCode_pairing_code : fmtCode "ABCD1234" = "ABCD-1234".
Proof. reflexivity. Qed.

#[local] Arguments retryable : simpl never.
#[local] Arguments fmtCode : simpl never.
#[local] Arguments valid_phone : simpl never.

Lemma unsupported_is_final :
  retryable "pairing API not supported by this Baileys version" = false.
Proof. vm_compute. reflexivity. Qed.

(** X27: the pairing route.  A phone that is not 6 to 15 digits is
    answered 400 before the session is started.  Otherwise at most four
    pairing requests are made; the wait after the k-th failed attempt is k
    seconds, so all waits together are at most ten seconds; a code is
    answered exactly when a request returned one after retryable failures
    only, and it is that code formatted by [fmtCode]; a socket without
    pairing API gets no request and no code. *)
Theorem pair_route (phone : string) (start : option string) (has : api)
    (sock : nat -> outcome) :
  let r := pair phone start has sock in
  (valid_phone phone = false ->
     answer r = Bad400 /\ started r = false /\ requests r = O)
  /\ (requests r <= 4)%nat
  /\ (length (waits r) <= 4)%nat
  /\ waits r = (fun k => 1000 * Z.of_nat k) <$> seq 1 (length (waits r))
  /\ (forall code raw, answer r = Code200 code raw ->
        code = fmtCode raw
        /\ sock (requests r) = Returns raw
        /\ length (waits r) = pred (requests r)
        /\ forall k, (1 <= k < requests r)%nat ->
             exists m, sock k = Throws m /\ retryable m = true)
  /\ (has = NoPairingApi ->
        requests r = O /\ forall code raw, answer r <> Code200 code raw)
  /\ (forall k raw,
        valid_phone phone = true -> start = None -> has <> NoPairingApi ->
        (1 <= k <= 4)%nat -> sock k = Returns raw ->
        (forall j, (1 <= j < k)%nat -> exists m, sock j = Throws m /\ retryable m = true) ->
        answer r = Code200 (fmtCode raw) raw /\ requests r = k).
Proof.
  intros r. subst r. unfold pair.
  destruct (valid_phone phone) eqn:Ev; simpl.
  2:{ repeat split; try done; try lia. }
  destruct start as [msg|]; simpl.
  { repeat split; try done; try lia. }
  pose proof unsupported_is_final as Hun.
  destruct has.
  3:{ simpl. rewrite ?Hun. simpl. repeat split; try done; try lia. }
  all: simpl;
    destruct (sock 1%nat) as [raw1|m1] eqn:E1; simpl;
    [|destruct (retryable m1) eqn:R1; simpl;
      [destruct (sock 2%nat) as [raw2|m2] eqn:E2; simpl;
       [|destruct (retryable m2) eqn:R2; simpl;
         [destruct (sock 3%nat) as [raw3|m3] eqn:E3; simpl;
          [|destruct (retryable m3) eqn:R3; simpl;
            [destruct (sock 4%nat) as [raw4|m4] eqn:E4; simpl;
             [|destruct (retryable m4) eqn:R4; simpl]|]]|]]|]];
    (split; [done|]); (split; [lia|]); (split; [lia|]); (split; [done|]);
    (split; [ | split; [done | ] ]).
  all: try (intros code raw Heq; simplify_eq;
            (split; [done|]); (split; [done|]); (split; [done|]);
            intros k Hk; destruct k as [|[|[|[|k]]]]; try lia; by eauto).
  all: intros k raw _ _ _ Hk Hret Hfail;
    pose proof (Hfail 1%nat) as F1; pose proof (Hfail 2%nat) as F2;
    pose proof (Hfail 3%nat) as F3;
    destruct k as [|[|[|[|[|k]]]]]; try lia;
    first [destruct (F1 ltac:(lia)) as (? & ? & ?)|clear F1];
    first [destruct (F2 ltac:(lia)) as (? & ? & ?)|clear F2];
    first [destruct (F3 ltac:(lia)) as (? & ? & ?)|clear F3];
    first [congruence|split; congruence].
Qed.

Lemma pair_route_witness :
  let sock := fun k => if (k =? 1)%nat then Throws "Connection Closed" else Returns "ABCD1234" in
  answer (pair "919812345678" None RequestPairingCode sock) = Code200 "ABCD-1234" "ABCD1234"
  /\ requests (pair "919812345678" None RequestPairingCode sock) = 2%nat
  /\ answer (pair "12ab" None RequestPairingCode sock) = Bad400.
Proof.
  intros sock.
  destruct (pair_route "919812345678" None RequestPairingCode sock)
    as (_ & _ & _ & _ & _ & _ & H7).
  destruct (pair_route "12ab" None RequestPairingCode sock) as (H1 & _).
  assert (Hf : forall j, (1 <= j < 2)%nat ->
                 exists m, sock j = Throws m /\ retryable m = true).
  { intros j Hj. assert (j = 1%nat) as -> by lia. exists "Connection Closed".
    split; [reflexivity|]. vm_compute. reflexivity. }
  destruct (H7 2%nat "ABCD1234" eq_refl eq_refl ltac:(done) ltac:(lia) eq_refl Hf)
    as [Ha Hr].
  split; [exact Ha|]. split; [exact Hr|]. by apply H1.
Defined.

End ServerFacts.

(** ** Restoring sessions at startup *)

Module RestoreFacts.
Import Restore.

Lemma enter_spec p :
  "" ∉ queue p ->
  workers (enter p).2 = workers p
  /\ started (enter p).2 ++ queue (enter p).2 = started p ++ queue p
  /\ (2 * length (queue (enter p).2) + weight (enter p).1 = 2 * length (queue p))%nat
  /\ ((enter p).1 = Finished -> queue p = [])
  /\ (queue p = [] -> enter p = (Finished, p)).
Proof.
  intros Hne. unfold enter. destruct (queue p) as [|number rest] eqn:Eq.
  - simpl. rewrite Eq. done.
  - destruct number as [|c number].
    + exfalso. apply Hne, list_elem_of_here.
    + simpl. rewrite <- app_assoc. repeat split; try done. lia.
Qed.

Lemma sum_weight_insert (l : list worker) i w0 w :
  l !! i = Some w0 ->
  (sum_list_with weight (<[i := w]> l) + weight w0
   = sum_list_with weight l + weight w)%nat.
Proof.
  revert i. induction l as [|x l IH]; intros [|i] Hi; try done; simpl in *.
  - injection Hi as ->. lia.
  - specialize (IH i Hi). lia.
Qed.

Lemma elem_of_insert_inv (l : list worker) i w x :
  x ∈ <[i := w]> l -> x = w \/ x ∈ l.
Proof.
  intros [j Hj]%list_elem_of_lookup.
  apply list_lookup_insert_Some in Hj as [(-> & -> & _)|[_ Hj]]; [by left|].
  right. by eapply list_elem_of_lookup_2.
Qed.

Lemma queue_clean numbers p :
  "" ∉ numbers -> pool_ok numbers p -> "" ∉ queue p.
Proof.
  intros Hne [Hq _] Hin. apply Hne. rewrite <- Hq. apply elem_of_app. by right.
Qed.

Lemma step_spec numbers e p :
  "" ∉ numbers -> pool_ok numbers p ->
  pool_ok numbers (step e p)
  /\ length (workers (step e p)) = length (workers p)
  /\ (step e p = p \/ (remaining (step e p) < remaining p)%nat).
Proof.
  intros Hne Hok. pose proof (queue_clean numbers p Hne Hok) as Hclean.
  destruct Hok as [Hq Hfin]. destruct e as [i|i]; simpl.
  - destruct (workers p !! i) as [[number| |]|] eqn:Ei; try (split; [done|]; split; [done|by left]).
    split; [|split].
    + split; [done|]. simpl. intros [?|Hin]%elem_of_insert_inv; [done|by apply Hfin].
    + simpl. apply length_insert.
    + right. unfold remaining. simpl.
      pose proof (sum_weight_insert (workers p) i _ Delaying Ei). simpl in *. lia.
  - destruct (workers p !! i) as [[number| |]|] eqn:Ei; try (split; [done|]; split; [done|by left]).
    destruct (enter_spec p Hclean) as (Hw & Hs & Hm & Hf & He).
    destruct (enter p) as [w p'] eqn:Een. simpl in *.
    split; [|split].
    + split; [simpl; by rewrite Hs|]. simpl. rewrite Hw.
      intros [ <- |Hin]%elem_of_insert_inv.
      * pose proof (Hf eq_refl) as Hq0. specialize (He Hq0). by injection He as ->.
      * specialize (Hfin Hin). specialize (He Hfin). by injection He as -> ->.
    + simpl. rewrite Hw. apply length_insert.
    + right. unfold remaining. simpl. rewrite Hw.
      pose proof (sum_weight_insert (workers p) i _ w Ei). simpl in *. lia.
Qed.

Lemma run_spec numbers es : forall p,
  "" ∉ numbers -> pool_ok numbers p ->
  pool_ok numbers (run es p)
  /\ length (workers (run es p)) = length (workers p)
  /\ (remaining (run es p) <= remaining p)%nat.
Proof.
  induction es as [|e es IH]; intros p Hne Hok; [done|].
  change (run (e :: es) p) with (run es (step e p)).
  destruct (step_spec numbers e p Hne Hok) as (Hok' & Hl & Hr).
  destruct (IH (step e p) Hne Hok') as (H1 & H2 & H3).
  split; [done|]. split; [congruence|].
  destruct Hr as [Hr|Hr]; [rewrite Hr in H3 |- *|]; lia.
Qed.

Lemma spawn_spec numbers k : forall p,
  "" ∉ numbers -> pool_ok numbers p ->
  pool_ok numbers (spawn k p)
  /\ length (workers (spawn k p)) = (length (workers p) + k)%nat
  /\ remaining (spawn k p) = remaining p.
Proof.
  induction k as [|k IH]; intros p Hne Hok; simpl.
  - split; [done|]. split; lia.
  - pose proof (queue_clean numbers p Hne Hok) as Hclean.
    destruct (enter_spec p Hclean) as (Hw & Hs & Hm & Hf & He).
    destruct Hok as [Hq Hfin].
    destruct (enter p) as [w p'] eqn:Een. simpl in *.
    match goal with |- context [spawn k ?q] => destruct (IH q Hne) as (H1 & H2 & H3) end.
    { split; [simpl; by rewrite Hs|]. simpl. rewrite Hw.
      intros [Hin| <-%list_elem_of_singleton]%elem_of_app.
      - specialize (Hfin Hin). specialize (He Hfin). by injection He as -> ->.
      - pose proof (Hf eq_refl) as Hq0. specialize (He Hq0). by injection He as ->. }
    split; [done|]. split.
    + rewrite H2. simpl. rewrite length_app, Hw. simpl. lia.
    + rewrite H3. unfold remaining. simpl. rewrite Hw, sum_list_with_app. simpl. lia.
Qed.

Lemma run_no_workers es : forall p, workers p = [] -> run es p = p.
Proof.
  induction es as [|e es IH]; intros p Hw; [done|]. simpl.
  assert (step e p = p) as ->; [|by apply IH].
  destruct e as [i|i]; simpl; by rewrite Hw.
Qed.

(** X28: the restore pool.  With non-empty folder names, at every point of
    every schedule the numbers for which [startBot] was called, followed by
    the queue, are the numbers found, in order (each is started once, none
    is skipped); the pool has [min(concurrency, found)] workers, so no more
    than [concurrency] starts are in progress at a time; every event that
    changes the pool uses up one of at most two awaits per number, and
    while a number is left some worker can go on; when all workers have
    returned every number has been started.  A negative
    [RESTORE_CONCURRENCY] creates no worker and starts nothing. *)
Theorem restore_pool (parsed : option Z) (numbers : list string) (es : list event) :
  "" ∉ numbers ->
  let c := concurrency parsed in
  let p := run es (create c numbers) in
  started p ++ queue p = numbers
  /\ length (workers p) = Z.to_nat (Z.min c (Z.of_nat (length numbers)))
  /\ Z.of_nat (in_flight p) <= Z.max 0 c
  /\ (remaining p <= 2 * length numbers)%nat
  /\ (forall e, step e p = p \/ (remaining (step e p) < remaining p)%nat)
  /\ (1 <= c -> queue p <> [] -> exists e, step e p <> p)
  /\ (1 <= c -> Forall (fun w => w = Finished) (workers p) -> started p = numbers)
  /\ (c < 0 -> started p = [] /\ workers p = []).
Proof.
  intros Hne c p.
  set (p0 := {| queue := numbers; workers := []; started := [] |}).
  assert (Hok0 : pool_ok numbers p0).
  { split; [done|]. simpl. by intros ?%elem_of_nil. }
  destruct (spawn_spec numbers (Z.to_nat (Z.min c (Z.of_nat (length numbers)))) p0 Hne Hok0)
    as (Hok1 & Hl1 & Hr1).
  change (spawn (Z.to_nat (Z.min c (Z.of_nat (length numbers)))) p0)
    with (create c numbers) in Hok1, Hl1, Hr1.
  destruct (run_spec numbers es (create c numbers) Hne Hok1) as (Hok & Hl & Hr).
  fold p in Hok, Hl, Hr. rewrite Hl1 in Hl. simpl in Hl.
  assert (Hrem0 : remaining p0 = (2 * length numbers)%nat).
  { unfold remaining. simpl. lia. }
  split; [apply Hok|]. split; [done|]. split; [|split; [|split; [|split; [|split]]]].
  - unfold in_flight. pose proof (length_filter (fun w => is_starting w = true) (workers p)).
    lia.
  - lia.
  - intros e. by destruct (step_spec numbers e p Hne Hok) as (_ & _ & ?).
  - intros Hc Hq. destruct Hok as [Hs Hfin].
    assert (Hn : numbers <> []).
    { intros ->. by destruct (started p), (queue p). }
    destruct (workers p) as [|w ws] eqn:Ew.
    { simpl in Hl. destruct numbers; [done|]. simpl in Hl. lia. }
    destruct w as [number| |].
    + exists (BotStarted 0). simpl. rewrite Ew. simpl.
      intros Heq. apply (f_equal workers) in Heq. simpl in Heq. by rewrite Ew in Heq.
    + exists (DelayElapsed 0). simpl. rewrite Ew. simpl.
      destruct (enter p) as [w p'] eqn:Een.
      intros Heq. apply (f_equal queue) in Heq. simpl in Heq.
      unfold enter in Een. destruct (queue p) as [|n rest] eqn:Eq; [done|].
      destruct n; injection Een as <- <-; simpl in Heq;
        apply (f_equal length) in Heq; simpl in Heq; lia.
    + exfalso. apply Hq, Hfin. apply list_elem_of_here.
  - intros Hc Hall. destruct Hok as [Hs Hfin].
    destruct numbers as [|n numbers'] eqn:En.
    { by destruct (started p), (queue p). }
    destruct (workers p) as [|w ws] eqn:Ew.
    { simpl in Hl. lia. }
    apply Forall_cons in Hall as [-> _].
    rewrite Hfin in Hs by apply list_elem_of_here. by rewrite app_nil_r in Hs.
  - intros Hc. unfold p, create.
    replace (Z.to_nat (Z.min c (Z.of_nat (length numbers)))) with O by lia.
    simpl. by rewrite run_no_workers.
Qed.

Lemma restore_pool_witness :
  let p := run [BotStarted 1; DelayElapsed 1; BotStarted 0]
             (create (concurrency (Some 2)) ["111"; "222"; "333"]) in
  started p ++ queue p = ["111"; "222"; "333"]
  /\ length (workers p) = 2%nat
  /\ started p = ["111"; "222"; "333"].
Proof.
  intros p.
  assert (Hne : "" ∉ ["111"; "222"; "333"]).
  { intros Hin. repeat (apply elem_of_cons in Hin as [Hin|Hin]; [done|]).
    by apply elem_of_nil in Hin. }
  destruct (restore_pool (Some 2) ["111"; "222"; "333"]
              [BotStarted 1; DelayElapsed 1; BotStarted 0] Hne) as (H1 & H2 & _).
  split; [exact H1|]. split; [exact H2|]. reflexivity.
Defined.

(** A negative setting is taken as it is: no worker is created and no
    session is restored. *)
Example negative_concurrency_restores_nothing :
  create (concurrency (Some (-1))) ["111"; "222"]
  = {| queue := ["111"; "222"]; workers := []; started := [] |}.
Proof. reflexivity. Qed.

End RestoreFacts.
